(** * tradeforyou: the instruction-to-action pipeline, the order requests,
      the brokerage client and the credential store

    A shallow embedding of the Python sources

      - [alpaca_trader/broker/ai_broker.py]  (AIBroker)
      - [alpaca_trader/core/orders.py]       (OrderManager)
      - [alpaca_trader/core/client.py]       (AlpacaClient)
      - [alpaca_trader/core/account.py]      (AccountManager)
      - [alpaca_trader/utils/config.py]      (ConfigManager)

    The first part holds the model, one module per source class, and the
    vocabulary of the statements; the second part holds the properties.

    Conventions of the model:
    - Python [str] values are sequences of characters; outside the module
      [Config] a character is an 8-bit code ([ascii]) and Python's
      character tables (whitespace, digits, letter case) are the ASCII
      ones: codes from 128 up stand for characters that are neither
      whitespace nor digits nor letters and have no case. In [Config] a string is the
      list of its Unicode code points.
    - Methods with effects run in a state monad whose state holds the
      outside world and the trace of the calls made to it; an exception is
      a value of [exn] on the left of a sum.
    - What the repository does not define is a parameter: the HTTP layer
      and the brokerage SDK with the objects they return, the AES block
      cipher, the language model with the text of its prompt, the JSON
      texts, and the wording of numbers. Floats are given by the
      rationals they denote. Lines printed for the user are modelled for
      the brokerage client and the order manager only. *)

From Stdlib Require Import ZArith NArith QArith List String Ascii Bool Lia.
From stdpp Require Import base option list gmap strings pretty.
Import ListNotations.

Local Open Scope string_scope.
Local Open Scope Z_scope.
Local Open Scope list_scope.

(** Text is handled as a list of characters; string literals of the source
    are written as Rocq strings and converted. *)
Abbreviation text := (list ascii).
Notation "'#' s" := (list_ascii_of_string s) (at level 9, s at level 0, format "'#' s").

(* ===================================================================== *)
(** ** Python string methods *)
(* ===================================================================== *)

Module PyStr.

Definition code (c : ascii) : N := N_of_ascii c.

Definition in_range (lo hi : N) (c : ascii) : bool :=
  ((lo <=? code c) && (code c <=? hi))%N.

(** [str.isspace] on one character: TAB, LF, VT, FF, CR, the four
    separators FS, GS, RS, US, and the space. *)
Definition is_space (c : ascii) : bool := in_range 9 13 c || in_range 28 32 c.

(** [0-9] *)
Definition is_digit (c : ascii) : bool := in_range 48 57 c.

Definition is_upper (c : ascii) : bool := in_range 65 90 c.
Definition is_lower (c : ascii) : bool := in_range 97 122 c.

Definition upper_char (c : ascii) : ascii :=
  if is_lower c then ascii_of_N (code c - 32) else c.

Definition lower_char (c : ascii) : ascii :=
  if is_upper c then ascii_of_N (code c + 32) else c.

(** [s.upper()] *)
Definition upper (s : text) : text := map upper_char s.

Fixpoint lstrip_by (p : ascii -> bool) (s : text) : text :=
  match s with
  | c :: s' => if p c then lstrip_by p s' else s
  | [] => []
  end.

Definition rstrip_by (p : ascii -> bool) (s : text) : text :=
  rev (lstrip_by p (rev s)).

Definition strip_by (p : ascii -> bool) (s : text) : text :=
  rstrip_by p (lstrip_by p s).

(** [s.strip()] *)
Definition strip (s : text) : text := strip_by is_space s.

Definition char_in (chars : text) (c : ascii) : bool :=
  existsb (Ascii.eqb c) chars.

(** [s.strip(chars)] *)
Definition strip_chars (chars : text) (s : text) : text :=
  strip_by (char_in chars) s.

(** [s.split(sep)] for a one-character separator: the pieces between the
    separators, always at least one piece. *)
Fixpoint split_on (sep : ascii) (s : text) : list text :=
  match s with
  | [] => [[]]
  | c :: s' =>
      if Ascii.eqb c sep then [] :: split_on sep s'
      else match split_on sep s' with
           | piece :: rest => (c :: piece) :: rest
           | [] => [[c]]
           end
  end.

Definition newline : ascii := ascii_of_N 10.
Definition dquote : ascii := ascii_of_N 34.
Definition squote : ascii := ascii_of_N 39.

Definition digit_value (c : ascii) : Z := Z.of_N (code c) - 48.

(** ASCII digits with single underscores between them, as [int] reads
    them. *)
Fixpoint int_body (acc : Z) (after_digit : bool) (s : text) : option Z :=
  match s with
  | [] => if after_digit then Some acc else None
  | c :: s' =>
      if is_digit c then int_body (10 * acc + digit_value c) true s'
      else if Ascii.eqb c "_" && after_digit then
        match s' with
        | d :: _ => if is_digit d then int_body acc false s' else None
        | [] => None
        end
      else None
  end.

(** [int(s)] for a string: surrounding whitespace, an optional sign, then
    the digits. [None] stands for [ValueError]. *)
Definition int_of (s : text) : option Z :=
  match strip s with
  | "-"%char :: d => option_map Z.opp (int_body 0 false d)
  | "+"%char :: d => int_body 0 false d
  | t => int_body 0 false t
  end.

(** Is [p] a prefix of [s]? *)
Fixpoint starts_with (p s : text) : bool :=
  match p, s with
  | [], _ => true
  | a :: p', b :: s' => Ascii.eqb a b && starts_with p' s'
  | _ :: _, [] => false
  end.

(** [sub in s] *)
Fixpoint contains (sub s : text) : bool :=
  starts_with sub s ||
  match s with
  | [] => false
  | _ :: s' => contains sub s'
  end.

End PyStr.

(* ===================================================================== *)
(** ** The regular expressions of [re], as a backtracking matcher *)
(* ===================================================================== *)

Module Regex.
Import PyStr.

Inductive cls :=
| Any                      (* .   *)
| Space                    (* \s  *)
| Digit                    (* \d  *)
| Range (lo hi : ascii).   (* [lo-hi] *)

Inductive greed := Greedy | Lazy.

Inductive regex :=
| Eps
| Lit (c : ascii)
| Cls (p : cls)
| Seq (r1 r2 : regex)
| Alt (r1 r2 : regex)
| Opt (r : regex)                (* r?  *)
| Star (g : greed) (r : regex)   (* r* and r*? *)
| Group (n : nat) (r : regex).   (* the n-th capturing group *)

(** The flags the source passes: [re.IGNORECASE] and [re.DOTALL]. *)
Record flags := { ignorecase : bool; dotall : bool }.

Definition lit_match (fl : flags) (c x : ascii) : bool :=
  if ignorecase fl then Ascii.eqb (lower_char c) (lower_char x) else Ascii.eqb c x.

Definition cls_match (fl : flags) (p : cls) (x : ascii) : bool :=
  match p with
  | Any => dotall fl || negb (Ascii.eqb x newline)
  | Space => is_space x
  | Digit => is_digit x
  | Range lo hi =>
      if ignorecase fl
      then in_range (code lo) (code hi) (lower_char x) || in_range (code lo) (code hi) (upper_char x)
      else in_range (code lo) (code hi) x
  end.

(** Captured groups, most recent first. *)
Definition captures := list (nat * text).

Fixpoint group (n : nat) (caps : captures) : option text :=
  match caps with
  | [] => None
  | (m, t) :: caps' => if Nat.eqb n m then Some t else group n caps'
  end.

(** The part of [s] consumed when [rest] is what remains of it. *)
Definition consumed (s rest : text) : text :=
  firstn (length s - length rest) s.

(** [rmatch fl r s caps k] matches [r] at the start of [s] and hands what
    remains to the continuation [k]; alternatives are tried in the order in
    which a backtracking matcher tries them, and the first that lets [k]
    succeed is the answer. *)
Fixpoint rmatch (fl : flags) (r : regex) (s : text) (caps : captures)
    (k : text -> captures -> option captures) {struct r} : option captures :=
  match r with
  | Eps => k s caps
  | Lit c =>
      match s with
      | x :: s' => if lit_match fl c x then k s' caps else None
      | [] => None
      end
  | Cls p =>
      match s with
      | x :: s' => if cls_match fl p x then k s' caps else None
      | [] => None
      end
  | Seq r1 r2 => rmatch fl r1 s caps (fun s' caps' => rmatch fl r2 s' caps' k)
  | Alt r1 r2 =>
      match rmatch fl r1 s caps k with
      | Some res => Some res
      | None => rmatch fl r2 s caps k
      end
  | Opt r1 =>
      match rmatch fl r1 s caps k with
      | Some res => Some res
      | None => k s caps
      end
  | Star Greedy r1 =>
      (fix loop (fuel : nat) (s : text) (caps : captures) {struct fuel} : option captures :=
         match fuel with
         | O => k s caps
         | S fuel' =>
             match rmatch fl r1 s caps
                     (fun s' caps' =>
                        if (length s' <? length s)%nat then loop fuel' s' caps' else None) with
             | Some res => Some res
             | None => k s caps
             end
         end) (length s) s caps
  | Star Lazy r1 =>
      (fix loop (fuel : nat) (s : text) (caps : captures) {struct fuel} : option captures :=
         match k s caps with
         | Some res => Some res
         | None =>
             match fuel with
             | O => None
             | S fuel' =>
                 rmatch fl r1 s caps
                   (fun s' caps' =>
                      if (length s' <? length s)%nat then loop fuel' s' caps' else None)
             end
         end) (length s) s caps
  | Group n r1 =>
      rmatch fl r1 s caps (fun s' caps' => k s' ((n, consumed s s') :: caps'))
  end.

(** A match of [r] starting exactly at the start of [s]. *)
Definition match_here (fl : flags) (r : regex) (s : text) : option captures :=
  rmatch fl r s [] (fun _ caps => Some caps).

(** [re.search(r, s, flags)]: the match at the leftmost position that has
    one. *)
Fixpoint search (fl : flags) (r : regex) (s : text) : option captures :=
  match match_here fl r s with
  | Some caps => Some caps
  | None =>
      match s with
      | [] => None
      | _ :: s' => search fl r s'
      end
  end.

(** Building blocks for writing patterns. *)
Fixpoint lits (s : text) : regex :=
  match s with
  | [] => Eps
  | c :: s' => Seq (Lit c) (lits s')
  end.

Fixpoint seq (rs : list regex) : regex :=
  match rs with
  | [] => Eps
  | [r] => r
  | r :: rs' => Seq r (seq rs')
  end.

Definition plus (g : greed) (r : regex) : regex := Seq r (Star g r).

End Regex.

(* ===================================================================== *)
(** ** Actions *)
(* ===================================================================== *)

(** The values held by the dictionaries that travel between the extractor
    and the dispatcher. *)
#[warnings="-register-all"]
Inductive value :=
| VNone
| VBool (b : bool)
| VInt (z : Z)
| VFloat (q : Q)
| VStr (s : text)
| VDict (d : list (string * value)).

(** An action dictionary [{"action": name, "params": {...}}]; the inner
    dictionary keeps its keys in insertion order. *)
Record action := Action {
  act_name : string;
  act_params : list (string * value)
}.

(** [params.get(key)] *)
Fixpoint dict_get (key : string) (d : list (string * value)) : option value :=
  match d with
  | [] => None
  | (k, v) :: d' => if String.eqb key k then Some v else dict_get key d'
  end.

(* ===================================================================== *)
(** ** AIBroker.extract_action_from_response *)
(* ===================================================================== *)

Module Extractor.
Import PyStr Regex.

Definition open_tag : text := #"<actions_taken>".
Definition close_tag : text := #"</actions_taken>".

(** [<actions_taken>(.*?)</actions_taken>], searched with [re.DOTALL]. *)
Definition tag_pattern : regex :=
  seq [lits open_tag; Group 1 (Star Lazy (Cls Any)); lits close_tag].

Definition tag_flags : flags := {| ignorecase := false; dotall := true |}.
Definition line_flags : flags := {| ignorecase := true; dotall := false |}.

(** [\s*], [\s+], [\d+], [[A-Z]+], the optional quote and the lazy
    group [(.*?)] shared by the patterns. *)
Definition ws : regex := Star Greedy (Cls Space).
Definition ws1 : regex := plus Greedy (Cls Space).
Definition digits : regex := plus Greedy (Cls Digit).
Definition letters : regex := plus Greedy (Cls (Range "A" "Z")).
Definition quote_opt : regex := Opt (Alt (Lit dquote) (Lit squote)).
Definition lazy_any (n : nat) : regex := Group n (Star Lazy (Cls Any)).

(** The list [action_patterns], in the order of the source. Written with
    Q for the optional quote [(?:DQUOTE|SQUOTE)?]:
    - 0: [buy_stock\(\s*Q(.*?)Q\s*,\s*(\d+)\s*\)]
    - 1: [buy_stock\(\s*Q(.*?)Q\s*,\s*quantity\s*=\s*(\d+)\s*\)]
    - 2: [buy_stock\(\s*symbol\s*=\s*Q(.*?)Q\s*,\s*quantity\s*=\s*(\d+)\s*\)]
    - 3: [buy\s+(\d+)\s+shares?\s+of\s+([A-Z]+)]
    - 4: [buy\s+([A-Z]+)\s+(\d+)\s+shares?]
    - 5: [get_stock_price\(\s*Q(.*?)Q\s*\)]
    - 6: [get_stock_price\(\s*symbol\s*=\s*Q(.*?)Q\s*\)]
    - 7: [get_account_info\(\s*\)] *)
Definition pattern0 : regex :=
  seq [lits #"buy_stock("; ws; quote_opt; lazy_any 1; quote_opt; ws;
       Lit ","; ws; Group 2 digits; ws; Lit ")"].

Definition pattern1 : regex :=
  seq [lits #"buy_stock("; ws; quote_opt; lazy_any 1; quote_opt; ws;
       Lit ","; ws; lits #"quantity"; ws; Lit "="; ws; Group 2 digits; ws; Lit ")"].

Definition pattern2 : regex :=
  seq [lits #"buy_stock("; ws; lits #"symbol"; ws; Lit "="; ws;
       quote_opt; lazy_any 1; quote_opt; ws;
       Lit ","; ws; lits #"quantity"; ws; Lit "="; ws; Group 2 digits; ws; Lit ")"].

Definition pattern3 : regex :=
  seq [lits #"buy"; ws1; Group 1 digits; ws1; lits #"share"; Opt (Lit "s"); ws1;
       lits #"of"; ws1; Group 2 letters].

Definition pattern4 : regex :=
  seq [lits #"buy"; ws1; Group 1 letters; ws1; Group 2 digits; ws1;
       lits #"share"; Opt (Lit "s")].

Definition pattern5 : regex :=
  seq [lits #"get_stock_price("; ws; quote_opt; lazy_any 1; quote_opt; ws; Lit ")"].

Definition pattern6 : regex :=
  seq [lits #"get_stock_price("; ws; lits #"symbol"; ws; Lit "="; ws;
       quote_opt; lazy_any 1; quote_opt; ws; Lit ")"].

Definition pattern7 : regex :=
  seq [lits #"get_account_info("; ws; Lit ")"].

Definition action_patterns : list regex :=
  [pattern0; pattern1; pattern2; pattern3; pattern4; pattern5; pattern6; pattern7].

Definition pattern_at (i : nat) : regex := nth i action_patterns Eps.

Definition quote_chars : text := [dquote; squote].

(** [match.group(n).strip().strip(QUOTES).upper()] *)
Definition clean_symbol (t : text) : text := upper (strip_chars quote_chars (strip t)).

(** The body of the [try] of the buy loop: the symbol and the quantity read
    off a match of pattern [idx]; [None] stands for the [ValueError] or
    [IndexError] that the [except] clause turns into [continue]. *)
Definition parse_buy (idx : nat) (caps : captures) : option (text * Z) :=
  if (idx <=? 2)%nat then
    g1 ← group 1 caps; g2 ← group 2 caps;
    quantity ← int_of g2;
    Some (clean_symbol g1, quantity)
  else if (idx =? 3)%nat then
    g1 ← group 1 caps; quantity ← int_of g1;
    g2 ← group 2 caps;
    Some (upper (strip g2), quantity)
  else
    g1 ← group 1 caps; g2 ← group 2 caps;
    quantity ← int_of g2;
    Some (upper (strip g1), quantity).

Definition buy_action (symbol : text) (quantity : Z) : action :=
  Action "buy_stock" [("symbol", VStr symbol); ("quantity", VInt quantity)].

Definition price_action (symbol : text) : action :=
  Action "get_stock_price" [("symbol", VStr symbol)].

Definition account_action : action := Action "get_account_info" [].

Definition nonempty (t : text) : bool :=
  match t with [] => false | _ => true end.

(** [for pattern_index in [0, 1, 2, 3, 4]: ...]: the first pattern that
    matches the line ends the loop (by [break]), whether or not its match
    passed the validation [symbol and quantity > 0]. *)
Fixpoint buy_loop (line : text) (indices : list nat) : list action :=
  match indices with
  | [] => []
  | idx :: rest =>
      match search line_flags (pattern_at idx) line with
      | None => buy_loop line rest
      | Some caps =>
          match parse_buy idx caps with
          | None => buy_loop line rest
          | Some (symbol, quantity) =>
              if nonempty symbol && (0 <? quantity) then [buy_action symbol quantity] else []
          end
      end
  end.

(** [for pattern_index in [5, 6]: ...] *)
Fixpoint price_loop (line : text) (indices : list nat) : list action :=
  match indices with
  | [] => []
  | idx :: rest =>
      match search line_flags (pattern_at idx) line with
      | None => price_loop line rest
      | Some caps =>
          match group 1 caps with
          | None => price_loop line rest
          | Some g1 =>
              let symbol := clean_symbol g1 in
              if nonempty symbol then [price_action symbol] else []
          end
      end
  end.

Definition account_check (line : text) : list action :=
  match search line_flags (pattern_at 7) line with
  | Some _ => [account_action]
  | None => []
  end.

Definition buy_indices : list nat := [0; 1; 2; 3; 4]%nat.
Definition price_indices : list nat := [5; 6]%nat.

(** What one line of the actions section appends to [actions]. *)
Definition line_actions (raw_line : text) : list action :=
  let line := strip raw_line in
  if nonempty line
  then buy_loop line buy_indices ++ price_loop line price_indices ++ account_check line
  else [].

(** The loop over [actions_text.split(NEWLINE)]. *)
Definition section_actions (actions_text : text) : list action :=
  concat (map line_actions (split_on newline actions_text)).

Definition extract_action_from_response (response : text) : list action :=
  match search tag_flags tag_pattern response with
  | None => []
  | Some caps =>
      match group 1 caps with
      | None => []
      | Some body => section_actions (strip body)
      end
  end.

End Extractor.

(* ===================================================================== *)
(** ** Exceptions *)
(* ===================================================================== *)

(** A raised exception, with the text [str(e)] gives for it. *)
Record exn := Exn { exn_kind : string; exn_message : text }.

(** [str(n)] for an integer. *)
Definition str_int (n : Z) : text := #(pretty n).

(* ===================================================================== *)
(** ** AccountManager.is_configured and AlpacaClient *)
(* ===================================================================== *)

Module Client.
Import PyStr.

(** The three values [get_alpaca_credentials] returns; [None] is Python's
    [None]. *)
Record credentials := Credentials {
  api_key : option text;
  api_secret : option text;
  base_url : option text
}.

(** Truth value of [None] or a string. *)
Definition truthy (v : option text) : bool :=
  match v with
  | Some (_ :: _) => true
  | _ => false
  end.

(** [AccountManager.is_configured]:
    [bool(self.api_key and self.api_secret and self.base_url)] *)
Definition is_configured (m : credentials) : bool :=
  truthy (api_key m) && truthy (api_secret m) && truthy (base_url m).

(** The client object: the account manager it refers to and what
    [__init__] copied from it. The three URLs exist as attributes only when
    [base_url] was true at construction. *)
Record client := Client {
  account_manager : credentials;
  own_key : option text;
  own_secret : option text;
  own_urls : option (text * text * text)   (* account_url, orders_url, positions_url *)
}.

(** [AlpacaClient.__init__] *)
Definition new_client (m : credentials) : client :=
  {| account_manager := m;
     own_key := api_key m;
     own_secret := api_secret m;
     own_urls :=
       match base_url m with
       | Some (c :: u) =>
           Some ((c :: u) ++ #"/v2/account", (c :: u) ++ #"/v2/orders",
                 (c :: u) ++ #"/v2/positions")
       | _ => None
       end |}.

Inductive http_verb := GET | POST | DELETE.

(** One call of [requests.get], [requests.post] or [requests.delete]. The
    body of a POST is the order dictionary that [json.dumps] serialises. *)
Record http_request := HttpRequest {
  verb : http_verb;
  url : text;
  key_header : option text;
  secret_header : option text;
  query : list (string * text);
  body : option (gmap string value)
}.

Record http_response (json : Type) := HttpResponse {
  status_code : Z;
  response_text : text;
  response_json : exn + json
}.
Arguments status_code {json} h.
Arguments response_text {json} h.
Arguments response_json {json} h.

(** The network and the JSON documents it answers with are parameters:
    [json] is a decoded document, [json_id] the text printed for
    [order_info.get('id')] and [json_len] is [len(result)]; both may raise
    when the document has another shape. *)
Record network := Network {
  world : Type;
  json : Type;
  json_id : json -> exn + text;
  json_len : json -> exn + Z;
  send : world -> http_request -> (exn + http_response json) * world
}.

Section Http.

Variable N : network.

(** The state the client's methods run in: the network, the requests sent
    so far and the lines printed so far. *)
Record cstate := CState {
  net : world N;
  sent : list http_request;
  console : list text
}.

(** What a method call yields: the value it returns, or the exception it
    lets escape. *)
Inductive ret :=
| RNone
| RBool (b : bool)
| RJson (j : json N).

Inductive outcome :=
| Returns (r : ret)
| Raises (e : exn).

Definition C (A : Type) : Type := cstate -> A * cstate.

Definition cret {A} (a : A) : C A := fun st => (a, st).

Definition cbind {A B} (m : C A) (f : A -> C B) : C B :=
  fun st => let (a, st') := m st in f a st'.

Notation "x <- m ;; k" := (cbind m (fun x => k))
  (at level 100, m at next level, right associativity).
Notation "m ;;; k" := (cbind m (fun _ => k))
  (at level 100, right associativity).

Definition print (line : text) : C unit :=
  fun st => (tt, {| net := net st; sent := sent st; console := console st ++ [line] |}).

(** One call into [requests]. *)
Definition request (r : http_request) : C (exn + http_response (json N)) :=
  fun st =>
    let (reply, w) := send N (net st) r in
    (reply, {| net := w; sent := sent st ++ [r]; console := console st |}).

Definition not_configured_line : text :=
  #"Account not configured. Please configure the account first.".

Definition attribute_error (name : string) : exn :=
  Exn "AttributeError" (#"'AlpacaClient' object has no attribute '" ++ #name ++ #"'").

Definition account_url (c : client) : exn + text :=
  match own_urls c with
  | Some (a, _, _) => inr a
  | None => inl (attribute_error "account_url")
  end.

Definition orders_url (c : client) : exn + text :=
  match own_urls c with
  | Some (_, o, _) => inr o
  | None => inl (attribute_error "orders_url")
  end.

Definition positions_url (c : client) : exn + text :=
  match own_urls c with
  | Some (_, _, p) => inr p
  | None => inl (attribute_error "positions_url")
  end.

Definition mk_request (c : client) (v : http_verb) (u : text)
    (q : list (string * text)) (b : option (gmap string value)) : http_request :=
  {| verb := v; url := u; key_header := own_key c; secret_header := own_secret c;
     query := q; body := b |}.

(** The shape shared by the GET methods: inside the [try], the request,
    then [response.json()] on status 200, otherwise two printed lines; any
    exception is printed and turned into [None]. *)
Definition get_json (c : client) (target : exn + text) (q : list (string * text))
    (what : text) (failure : text) : C outcome :=
  match target with
  | inl e => print (#"Error getting " ++ what ++ #": " ++ exn_message e) ;;; cret (Returns RNone)
  | inr u =>
      reply <- request (mk_request c GET u q None) ;;
      match reply with
      | inl e => print (#"Error getting " ++ what ++ #": " ++ exn_message e) ;;; cret (Returns RNone)
      | inr resp =>
          if status_code resp =? 200 then
            match response_json resp with
            | inr j => cret (Returns (RJson j))
            | inl e =>
                print (#"Error getting " ++ what ++ #": " ++ exn_message e) ;;; cret (Returns RNone)
            end
          else
            print (failure ++ #" Status code: " ++ str_int (status_code resp)) ;;;
            print (#"Response: " ++ response_text resp) ;;;
            cret (Returns RNone)
      end
  end.

Definition get_account (c : client) : C outcome :=
  if negb (is_configured (account_manager c)) then
    print not_configured_line ;;; cret (Returns RNone)
  else
    get_json c (account_url c) [] #"account information" #"Failed to get account information.".

Definition get_positions (c : client) : C outcome :=
  if negb (is_configured (account_manager c)) then
    print not_configured_line ;;; cret (Returns RNone)
  else
    get_json c (positions_url c) [] #"positions" #"Failed to get positions.".

(** [get_position]: the URL is built before the [try]; status 404 has its
    own message. *)
Definition get_position (c : client) (symbol : text) : C outcome :=
  if negb (is_configured (account_manager c)) then
    print not_configured_line ;;; cret (Returns RNone)
  else
    match positions_url c with
    | inl e => cret (Raises e)
    | inr p =>
        reply <- request (mk_request c GET (p ++ #"/" ++ symbol) [] None) ;;
        match reply with
        | inl e =>
            print (#"Error getting position for " ++ symbol ++ #": " ++ exn_message e) ;;;
            cret (Returns RNone)
        | inr resp =>
            if status_code resp =? 200 then
              match response_json resp with
              | inr j => cret (Returns (RJson j))
              | inl e =>
                  print (#"Error getting position for " ++ symbol ++ #": " ++ exn_message e) ;;;
                  cret (Returns RNone)
              end
            else if status_code resp =? 404 then
              print (#"No position found for " ++ symbol) ;;; cret (Returns RNone)
            else
              print (#"Failed to get position for " ++ symbol ++ #". Status code: "
                     ++ str_int (status_code resp)) ;;;
              print (#"Response: " ++ response_text resp) ;;;
              cret (Returns RNone)
        end
    end.

(** [get_orders(status=None, limit=50)] *)
Definition get_orders (c : client) (status : option text) (limit : Z) : C outcome :=
  if negb (is_configured (account_manager c)) then
    print not_configured_line ;;; cret (Returns RNone)
  else
    let params :=
      ("limit", str_int limit) ::
      (if truthy status then
         match status with Some s => [("status", s)] | None => [] end
       else []) in
    get_json c (orders_url c) params #"orders" #"Failed to get orders.".

Definition get_order (c : client) (order_id : text) : C outcome :=
  if negb (is_configured (account_manager c)) then
    print not_configured_line ;;; cret (Returns RNone)
  else
    match orders_url c with
    | inl e => cret (Raises e)
    | inr o =>
        reply <- request (mk_request c GET (o ++ #"/" ++ order_id) [] None) ;;
        match reply with
        | inl e =>
            print (#"Error getting order " ++ order_id ++ #": " ++ exn_message e) ;;;
            cret (Returns RNone)
        | inr resp =>
            if status_code resp =? 200 then
              match response_json resp with
              | inr j => cret (Returns (RJson j))
              | inl e =>
                  print (#"Error getting order " ++ order_id ++ #": " ++ exn_message e) ;;;
                  cret (Returns RNone)
              end
            else
              print (#"Failed to get order " ++ order_id ++ #". Status code: "
                     ++ str_int (status_code resp)) ;;;
              print (#"Response: " ++ response_text resp) ;;;
              cret (Returns RNone)
        end
    end.

Definition submit_order (c : client) (order_data : gmap string value) : C outcome :=
  if negb (is_configured (account_manager c)) then
    print not_configured_line ;;; cret (Returns RNone)
  else
    match orders_url c with
    | inl e => print (#"Error submitting order: " ++ exn_message e) ;;; cret (Returns RNone)
    | inr o =>
        reply <- request (mk_request c POST o [] (Some order_data)) ;;
        match reply with
        | inl e => print (#"Error submitting order: " ++ exn_message e) ;;; cret (Returns RNone)
        | inr resp =>
            if (status_code resp =? 200) || (status_code resp =? 201) then
              match response_json resp with
              | inl e =>
                  print (#"Error submitting order: " ++ exn_message e) ;;; cret (Returns RNone)
              | inr j =>
                  match json_id N j with
                  | inl e =>
                      print (#"Error submitting order: " ++ exn_message e) ;;;
                      cret (Returns RNone)
                  | inr id =>
                      print (#"Order submitted successfully. Order ID: " ++ id) ;;;
                      cret (Returns (RJson j))
                  end
              end
            else
              print (#"Failed to submit order. Status code: " ++ str_int (status_code resp)) ;;;
              print (#"Response: " ++ response_text resp) ;;;
              cret (Returns RNone)
        end
    end.

Definition cancel_order (c : client) (order_id : text) : C outcome :=
  if negb (is_configured (account_manager c)) then
    print not_configured_line ;;; cret (Returns (RBool false))
  else
    match orders_url c with
    | inl e => cret (Raises e)
    | inr o =>
        reply <- request (mk_request c DELETE (o ++ #"/" ++ order_id) [] None) ;;
        match reply with
        | inl e =>
            print (#"Error cancelling order " ++ order_id ++ #": " ++ exn_message e) ;;;
            cret (Returns (RBool false))
        | inr resp =>
            if status_code resp =? 204 then
              print (#"Order " ++ order_id ++ #" cancelled successfully.") ;;;
              cret (Returns (RBool true))
            else
              print (#"Failed to cancel order " ++ order_id ++ #". Status code: "
                     ++ str_int (status_code resp)) ;;;
              print (#"Response: " ++ response_text resp) ;;;
              cret (Returns (RBool false))
        end
    end.

Definition cancel_all_orders (c : client) : C outcome :=
  if negb (is_configured (account_manager c)) then
    print not_configured_line ;;; cret (Returns (RBool false))
  else
    match orders_url c with
    | inl e => print (#"Error cancelling all orders: " ++ exn_message e) ;;; cret (Returns (RBool false))
    | inr o =>
        reply <- request (mk_request c DELETE o [] None) ;;
        match reply with
        | inl e =>
            print (#"Error cancelling all orders: " ++ exn_message e) ;;;
            cret (Returns (RBool false))
        | inr resp =>
            if status_code resp =? 207 then
              match response_json resp with
              | inl e =>
                  print (#"Error cancelling all orders: " ++ exn_message e) ;;;
                  cret (Returns (RBool false))
              | inr j =>
                  match json_len N j with
                  | inl e =>
                      print (#"Error cancelling all orders: " ++ exn_message e) ;;;
                      cret (Returns (RBool false))
                  | inr n =>
                      print (#"Cancelled " ++ str_int n ++ #" orders.") ;;;
                      cret (Returns (RBool true))
                  end
              end
            else
              print (#"Failed to cancel all orders. Status code: "
                     ++ str_int (status_code resp)) ;;;
              print (#"Response: " ++ response_text resp) ;;;
              cret (Returns (RBool false))
        end
    end.

(** The operations of the gateway, for statements about all of them. *)
Inductive operation :=
| OpGetAccount
| OpGetPositions
| OpGetPosition (symbol : text)
| OpGetOrders (status : option text) (limit : Z)
| OpGetOrder (order_id : text)
| OpSubmitOrder (order_data : gmap string value)
| OpCancelOrder (order_id : text)
| OpCancelAllOrders.

Definition run (c : client) (op : operation) : C outcome :=
  match op with
  | OpGetAccount => get_account c
  | OpGetPositions => get_positions c
  | OpGetPosition symbol => get_position c symbol
  | OpGetOrders status limit => get_orders c status limit
  | OpGetOrder order_id => get_order c order_id
  | OpSubmitOrder order_data => submit_order c order_data
  | OpCancelOrder order_id => cancel_order c order_id
  | OpCancelAllOrders => cancel_all_orders c
  end.

(** The sentinel an operation returns when it has nothing to give: [False]
    for the two cancel operations, [None] for the others. *)
Definition sentinel (op : operation) : ret :=
  match op with
  | OpCancelOrder _ | OpCancelAllOrders => RBool false
  | _ => RNone
  end.

(** A structured error result in the sense of the specification: a
    document, carrying an error status. Neither [None] nor [False] is
    one. *)
Definition is_structured_error (is_error_document : json N -> bool) (o : outcome) : bool :=
  match o with
  | Returns (RJson j) => is_error_document j
  | _ => false
  end.

End Http.

Arguments RNone {N}.
Arguments RBool {N} b.
Arguments RJson {N} j.
Arguments Returns {N} r.
Arguments Raises {N} e.
Arguments CState {N} net sent console.
Arguments net {N} c.
Arguments sent {N} c.
Arguments console {N} c.
Arguments cret {N A} a.
Arguments cbind {N A B} m f.
Arguments print {N} line.

End Client.

(* ===================================================================== *)
(** ** OrderManager *)
(* ===================================================================== *)

Module Orders.
Import PyStr Client.

Inductive OrderSide := BUY | SELL.

Inductive OrderType := MARKET | LIMIT | STOP | STOP_LIMIT.

Inductive TimeInForce := DAY | GTC | OPG | CLS | IOC | FOK.

(** The [.value] of the three enumerations. *)
Definition side_value (s : OrderSide) : text :=
  match s with BUY => #"buy" | SELL => #"sell" end.

Definition type_value (t : OrderType) : text :=
  match t with
  | MARKET => #"market" | LIMIT => #"limit" | STOP => #"stop" | STOP_LIMIT => #"stop_limit"
  end.

Definition tif_value (t : TimeInForce) : text :=
  match t with
  | DAY => #"day" | GTC => #"gtc" | OPG => #"opg" | CLS => #"cls" | IOC => #"ioc" | FOK => #"fok"
  end.

Section Manager.

Variable N : network.

(** [str(x)] for a share count, a dollar amount or a price: the wording of
    numbers is a parameter. Amounts are rationals. *)
Variable str_num : Q -> text.

Notation "x <- m ;; k" := (cbind m (fun x => k))
  (at level 100, m at next level, right associativity).
Notation "m ;;; k" := (cbind m (fun _ => k))
  (at level 100, right associativity).

(** [float(x) <= 0] *)
Definition nonpositive (x : Q) : bool := Qle_bool x 0.

(** [validate_order_parameters(symbol, qty=None, notional=None)] *)
Definition validate_order_parameters (symbol : text) (qty notional : option Q) : C N bool :=
  match symbol with
  | [] => print #"Symbol is required." ;;; cret false
  | _ :: _ =>
      match qty, notional with
      | None, None | Some _, Some _ =>
          print #"Either 'qty' or 'notional' must be provided, but not both." ;;; cret false
      | Some q, None =>
          if nonpositive q then print #"Quantity must be positive." ;;; cret false
          else cret true
      | None, Some n =>
          if nonpositive n then print #"Notional value must be positive." ;;; cret false
          else cret true
      end
  end.

(** [_prepare_order_base]; [None] is the [None] it returns when the
    validation fails. *)
Definition _prepare_order_base (symbol : text) (side : OrderSide)
    (qty notional : option Q) (time_in_force : TimeInForce)
    : C N (option (gmap string value)) :=
  valid <- validate_order_parameters symbol qty notional ;;
  if negb valid then cret None
  else
    let order : gmap string value :=
      <["time_in_force" := VStr (tif_value time_in_force)]>
        (<["side" := VStr (side_value side)]>
           (<["symbol" := VStr (upper symbol)]> ∅)) in
    match qty with
    | Some q => cret (Some (<["qty" := VStr (str_num q)]> order))
    | None =>
        match notional with
        | Some n => cret (Some (<["notional" := VStr (str_num n)]> order))
        | None => cret (Some (<["notional" := VStr #"None"]> order))
        end
    end.

Definition with_extended_hours (extended_hours : bool) (order : gmap string value)
    : gmap string value :=
  if extended_hours then <["extended_hours" := VBool true]> order else order.

(** [market_order] *)
Definition market_order (c : client) (symbol : text) (side : OrderSide)
    (qty notional : option Q) (time_in_force : TimeInForce) (extended_hours : bool)
    : C N (outcome N) :=
  prepared <- _prepare_order_base symbol side qty notional time_in_force ;;
  match prepared with
  | None => cret (Returns RNone)
  | Some order =>
      submit_order N c
        (with_extended_hours extended_hours (<["type" := VStr (type_value MARKET)]> order))
  end.

(** [limit_order]; a price is [None] or a number, and
    [not price or float(price) <= 0] rejects [None], zero and negative
    prices. *)
Definition bad_price (price : option Q) : bool :=
  match price with
  | None => true
  | Some p => nonpositive p
  end.

Definition str_price (price : option Q) : text :=
  match price with
  | None => #"None"
  | Some p => str_num p
  end.

Definition limit_order (c : client) (symbol : text) (side : OrderSide)
    (limit_price : option Q) (qty notional : option Q) (time_in_force : TimeInForce)
    (extended_hours : bool) : C N (outcome N) :=
  prepared <- _prepare_order_base symbol side qty notional time_in_force ;;
  match prepared with
  | None => cret (Returns RNone)
  | Some order =>
      if bad_price limit_price then
        print #"Limit price must be positive." ;;; cret (Returns RNone)
      else
        submit_order N c
          (with_extended_hours extended_hours
             (<["limit_price" := VStr (str_price limit_price)]>
                (<["type" := VStr (type_value LIMIT)]> order)))
  end.

Definition stop_order (c : client) (symbol : text) (side : OrderSide)
    (stop_price : option Q) (qty notional : option Q) (time_in_force : TimeInForce)
    : C N (outcome N) :=
  prepared <- _prepare_order_base symbol side qty notional time_in_force ;;
  match prepared with
  | None => cret (Returns RNone)
  | Some order =>
      if bad_price stop_price then
        print #"Stop price must be positive." ;;; cret (Returns RNone)
      else
        submit_order N c
          (<["stop_price" := VStr (str_price stop_price)]>
             (<["type" := VStr (type_value STOP)]> order))
  end.

Definition stop_limit_order (c : client) (symbol : text) (side : OrderSide)
    (stop_price limit_price : option Q) (qty notional : option Q)
    (time_in_force : TimeInForce) : C N (outcome N) :=
  prepared <- _prepare_order_base symbol side qty notional time_in_force ;;
  match prepared with
  | None => cret (Returns RNone)
  | Some order =>
      if bad_price stop_price then
        print #"Stop price must be positive." ;;; cret (Returns RNone)
      else if bad_price limit_price then
        print #"Limit price must be positive." ;;; cret (Returns RNone)
      else
        submit_order N c
          (<["limit_price" := VStr (str_price limit_price)]>
             (<["stop_price" := VStr (str_price stop_price)]>
                (<["type" := VStr (type_value STOP_LIMIT)]> order)))
  end.

End Manager.

(** Exactly one of the two size fields is present in an order
    dictionary. *)
Definition exactly_one_size (order : gmap string value) : Prop :=
  (is_Some (order !! "qty") /\ order !! "notional" = None) \/
  (order !! "qty" = None /\ is_Some (order !! "notional")).

End Orders.

(* ===================================================================== *)
(** ** AIBroker: market data, the three operations, the dispatcher *)
(* ===================================================================== *)

Module Broker.
Import PyStr.

(** [TimeFrame.Day], [TimeFrame.Hour], [TimeFrame.Minute] *)
Inductive timeframe := Day | Hour | Minute.

(** [StockBarsRequest(symbol_or_symbols, timeframe, start, limit)]; times
    are microseconds. *)
Record bars_request := BarsRequest {
  bars_symbol : text;
  bars_timeframe : timeframe;
  bars_start : Z;
  bars_limit : Z
}.

(** [MarketOrderRequest(symbol, qty, side, time_in_force)]; a field the
    constructor is not given is [None]. *)
Record market_order_request := MarketOrderRequest {
  mo_symbol : text;
  mo_qty : option Z;
  mo_notional : option Q;
  mo_side : Orders.OrderSide;
  mo_time_in_force : Orders.TimeInForce
}.

(** The calls into the brokerage SDK. *)
Inductive sdk_call :=
| SubmitOrder (r : market_order_request)
| GetStockBars (r : bars_request)
| GetAccount.

(** What [get_stock_bars] returns: the attribute [data], when the object
    has one, and the mapping the object itself is. *)
Record bars_reply (bar : Type) := BarsReply {
  data_attr : option (list (text * list bar));
  items : list (text * list bar)
}.
Arguments data_attr {bar} b.
Arguments items {bar} b.

(** The brokerage SDK and the interpreter services the broker relies on
    are parameters: the state of the brokerage, the objects the SDK hands
    out, how they are read, and the replies to the three calls. Reading an
    object may raise. Floats are given by the rationals they denote. *)
Record platform := Platform {
  sdk_world : Type;
  order : Type;
  bar : Type;
  account : Type;
  (* datetime.datetime.now() *)
  clock : sdk_world -> Z;
  (* trading_client.submit_order, data_client.get_stock_bars, trading_client.get_account *)
  submit : sdk_world -> market_order_request -> (exn + order) * sdk_world;
  stock_bars : sdk_world -> bars_request -> (exn + bars_reply bar) * sdk_world;
  fetch_account : sdk_world -> (exn + account) * sdk_world;
  (* _order_to_dict(order), which catches its own exceptions *)
  order_to_dict : order -> list (string * value);
  (* str(order.id), order.symbol, float(order.qty) if order.qty else 0, str(order.status) *)
  order_summary : order -> exn + (text * text * Q * text);
  (* float(bar.close), str(bar.timestamp) *)
  bar_price : bar -> exn + (Q * text);
  (* float(bar.close), float(bar.open), str(bar.timestamp), float(bar.volume) *)
  bar_quote : bar -> exn + (Q * Q * text * Q);
  (* float(account.equity), float(account.cash), float(account.buying_power) *)
  account_money : account -> exn + (Q * Q * Q);
  account_status : account -> value;
  account_daytrade_count : account -> value;
  (* str(timeframe).split('.')[-1] *)
  timeframe_str : timeframe -> text;
  (* repr(s) for a string, as it appears in the message of a ValueError *)
  repr : text -> text
}.

Definition dict := list (string * value).

Definition thirty_days : Z := 30 * 86400 * 1000000.
Definition ninety_days : Z := 90 * 86400 * 1000000.

(** [d.get(key, default)] *)
Definition get_default (key : string) (default : value) (d : dict) : value :=
  match dict_get key d with
  | Some v => v
  | None => default
  end.

(** [symbol in mapping] and [mapping[symbol]] on a mapping from symbols to
    lists of bars. *)
Fixpoint bars_of {bar : Type} (symbol : text) (m : list (text * list bar)) : option (list bar) :=
  match m with
  | [] => None
  | (k, v) :: m' => if bool_decide (k = symbol) then Some v else bars_of symbol m'
  end.

(** The bars the two branches of the [if]/[elif] look at: those of
    [bars.data] when it has the symbol, else those of [bars] itself when it
    has the symbol; [None] when neither branch is taken. *)
Definition found_bars {bar : Type} (symbol : text) (reply : bars_reply bar) : option (list bar) :=
  match data_attr reply with
  | Some d =>
      match bars_of symbol d with
      | Some l => Some l
      | None => bars_of symbol (items reply)
      end
  | None => bars_of symbol (items reply)
  end.

(** [bars[symbol][-1]] when [len(bars[symbol]) > 0] *)
Definition latest_bar {bar : Type} (symbol : text) (reply : bars_reply bar) : option bar :=
  match found_bars symbol reply with
  | Some l => last l
  | None => None
  end.

(** [MarketOrderRequest(symbol=symbol.upper(), qty=quantity,
    side=OrderSide.BUY, time_in_force=TimeInForce.DAY)] *)
Definition buy_request (symbol : text) (quantity : Z) : market_order_request :=
  {| mo_symbol := upper symbol; mo_qty := Some quantity; mo_notional := None;
     mo_side := Orders.BUY; mo_time_in_force := Orders.DAY |}.

Definition type_name (v : value) : text :=
  match v with
  | VNone => #"NoneType"
  | VBool _ => #"bool"
  | VInt _ => #"int"
  | VFloat _ => #"float"
  | VStr _ => #"str"
  | VDict _ => #"dict"
  end.

Section Operations.

Variable P : platform.

(** The state the broker runs in: the brokerage, and the SDK calls made so
    far. *)
Record bstate := BState {
  sdk_state : sdk_world P;
  calls : list sdk_call
}.

Definition B (A : Type) : Type := bstate -> A * bstate.

Definition bret {A} (a : A) : B A := fun st => (a, st).

Definition bbind {A T} (m : B A) (f : A -> B T) : B T :=
  fun st => let (a, st') := m st in f a st'.

Notation "x <- m ;; k" := (bbind m (fun x => k))
  (at level 100, m at next level, right associativity).

Definition now : B Z := fun st => (clock P (sdk_state st), st).

Definition call_submit (r : market_order_request) : B (exn + order P) :=
  fun st =>
    let (reply, w) := submit P (sdk_state st) r in
    (reply, {| sdk_state := w; calls := calls st ++ [SubmitOrder r] |}).

Definition call_stock_bars (r : bars_request) : B (exn + bars_reply (bar P)) :=
  fun st =>
    let (reply, w) := stock_bars P (sdk_state st) r in
    (reply, {| sdk_state := w; calls := calls st ++ [GetStockBars r] |}).

Definition call_get_account : B (exn + account P) :=
  fun st =>
    let (reply, w) := fetch_account P (sdk_state st) in
    (reply, {| sdk_state := w; calls := calls st ++ [GetAccount] |}).

Definition error_result (message : text) : dict :=
  [("status", VStr #"error"); ("message", VStr message)].

(** *** get_market_data *)

Definition quote_entry (q : Q * Q * text * Q) : dict :=
  let '(close, open_price, timestamp, volume) := q in
  [("price", VFloat close); ("change", VFloat (close - open_price)%Q);
   ("volume", VFloat volume); ("timestamp", VStr timestamp)].

Definition no_data_entry : dict :=
  [("price", VNone); ("error", VStr #"No data found");
   ("note", VStr #"Stock symbol is valid and can be traded even without price data");
   ("tradeable", VBool true)].

(** The loop [for timeframe in [TimeFrame.Day, TimeFrame.Hour,
    TimeFrame.Minute]] of [get_market_data]: [Some] is the entry stored
    before [break]; an exception in the body, a reply without bars for the
    symbol and an empty list of bars all lead to the next timeframe. *)
Fixpoint quote_loop (symbol : text) (start : Z) (timeframes : list timeframe)
    : B (option dict) :=
  match timeframes with
  | [] => bret None
  | tf :: rest =>
      reply <- call_stock_bars
                 {| bars_symbol := symbol; bars_timeframe := tf;
                    bars_start := start; bars_limit := 1 |} ;;
      match reply with
      | inl _ => quote_loop symbol start rest
      | inr bars =>
          match latest_bar symbol bars with
          | None => quote_loop symbol start rest
          | Some latest =>
              match bar_quote P latest with
              | inl _ => quote_loop symbol start rest
              | inr q => bret (Some (quote_entry q))
              end
          end
      end
  end.

Definition timeframes : list timeframe := [Day; Hour; Minute].

(** The body of [for symbol in symbols]. Everything that can raise stands
    inside the [try] of the inner loop, so the outer [except] clause is
    never entered and has no counterpart here. *)
Definition symbol_data (symbol : text) (market_data : gmap text dict) : B (gmap text dict) :=
  end_ <- now ;;
  let start := end_ - thirty_days in
  found <- quote_loop symbol start timeframes ;;
  match found with
  | Some entry => bret (<[symbol := entry]> market_data)
  | None =>
      match market_data !! symbol with
      | None => bret (<[symbol := no_data_entry]> market_data)
      | Some _ => bret market_data
      end
  end.

Fixpoint symbols_data (symbols : list text) (market_data : gmap text dict) : B (gmap text dict) :=
  match symbols with
  | [] => bret market_data
  | symbol :: rest =>
      market_data' <- symbol_data symbol market_data ;;
      symbols_data rest market_data'
  end.

Definition account_entry : B dict :=
  reply <- call_get_account ;;
  match reply with
  | inl e => bret [("error", VStr (exn_message e))]
  | inr acct =>
      match account_money P acct with
      | inl e => bret [("error", VStr (exn_message e))]
      | inr (equity, cash, buying_power) =>
          bret [("equity", VFloat equity); ("cash", VFloat cash);
                ("buying_power", VFloat buying_power); ("status", account_status P acct)]
      end
  end.

Definition get_market_data (symbols : list text) : B (gmap text dict) :=
  market_data <- symbols_data symbols ∅ ;;
  entry <- account_entry ;;
  bret (<[#"account" := entry]> market_data).

(** *** buy_stock *)

(** The dictionary returned for a submitted order. *)
Definition order_result (summary : text * text * Q * text) (details : dict) : dict :=
  let '(id, sym, qty, status) := summary in
  [("status", VStr #"success"); ("order_id", VStr id);
   ("symbol", VStr sym); ("quantity", VFloat qty);
   ("order_status", VStr status); ("details", VDict details)].

Definition buy_stock (symbol : text) (quantity : Z) : B dict :=
  match symbol with
  | [] => bret (error_result #"Symbol is required")
  | _ :: _ =>
      if quantity <=? 0 then bret (error_result #"Quantity must be positive")
      else
        reply <- call_submit (buy_request symbol quantity) ;;
        match reply with
        | inl e => bret (error_result (exn_message e))
        | inr o =>
            match order_summary P o with
            | inl e => bret (error_result (exn_message e))
            | inr summary => bret (order_result summary (order_to_dict P o))
            end
        end
  end.

(** *** get_stock_price *)

Definition price_result (symbol : text) (p : Q * text) (note : text) : dict :=
  [("status", VStr #"success"); ("symbol", VStr symbol); ("price", VFloat (fst p));
   ("timestamp", VStr (snd p)); ("note", VStr note)].

(** The loop over the three timeframes of [get_stock_price]: [Some] is the
    dictionary returned from inside the loop. *)
Fixpoint price_loop (symbol : text) (start : Z) (timeframes : list timeframe)
    : B (option dict) :=
  match timeframes with
  | [] => bret None
  | tf :: rest =>
      reply <- call_stock_bars
                 {| bars_symbol := symbol; bars_timeframe := tf;
                    bars_start := start; bars_limit := 1 |} ;;
      match reply with
      | inl _ => price_loop symbol start rest
      | inr bars =>
          match latest_bar symbol bars with
          | None => price_loop symbol start rest
          | Some latest =>
              match bar_price P latest with
              | inl _ => price_loop symbol start rest
              | inr p =>
                  bret (Some (price_result symbol p
                                (#"Price from latest available " ++ timeframe_str P tf ++ #" bar")))
              end
          end
      end
  end.

Definition partial_result (symbol : text) : dict :=
  [("status", VStr #"partial"); ("symbol", VStr symbol); ("price", VNone);
   ("message", VStr (#"No price data available for " ++ symbol));
   ("note", VStr #"Stock can still be traded without current price data");
   ("tradeable", VBool true)].

(** [get_stock_price]: the three timeframes over 30 days, then the daily
    bars of 90 days, then the result without a price. The outermost
    [except] clause is never entered: what can raise stands inside the
    inner [try] blocks. *)
Definition get_stock_price (symbol0 : text) : B dict :=
  let symbol := upper (strip symbol0) in
  end_ <- now ;;
  found <- price_loop symbol (end_ - thirty_days) timeframes ;;
  match found with
  | Some result => bret result
  | None =>
      reply <- call_stock_bars
                 {| bars_symbol := symbol; bars_timeframe := Day;
                    bars_start := end_ - ninety_days; bars_limit := 5 |} ;;
      match reply with
      | inl _ => bret (partial_result symbol)
      | inr bars =>
          match latest_bar symbol bars with
          | None => bret (partial_result symbol)
          | Some latest =>
              match bar_price P latest with
              | inl _ => bret (partial_result symbol)
              | inr p =>
                  bret (price_result symbol p #"Historical price data - may not be current")
              end
          end
      end
  end.

(** *** get_account_info *)

(** The dictionary literal names the key [status] twice; the later value,
    [account.status], is the one kept. *)
Definition get_account_info : B dict :=
  reply <- call_get_account ;;
  match reply with
  | inl e => bret (error_result (exn_message e))
  | inr acct =>
      match account_money P acct with
      | inl e => bret (error_result (exn_message e))
      | inr (equity, cash, buying_power) =>
          bret [("status", account_status P acct); ("equity", VFloat equity);
                ("cash", VFloat cash); ("buying_power", VFloat buying_power);
                ("day_trade_count", account_daytrade_count P acct)]
      end
  end.

(** *** execute_actions *)

(** [v.strip()]: a method of strings only. *)
Definition value_strip (v : value) : exn + text :=
  match v with
  | VStr s => inr (strip s)
  | _ => inl (Exn "AttributeError"
                (#"'" ++ type_name v ++ #"' object has no attribute 'strip'"))
  end.

(** [int(v)] *)
Definition value_int (v : value) : exn + Z :=
  match v with
  | VInt z => inr z
  | VBool b => inr (if b then 1 else 0)
  | VFloat q => inr (Z.quot (Qnum q) (Zpos (Qden q)))
  | VStr s =>
      match int_of s with
      | Some z => inr z
      | None => inl (Exn "ValueError"
                       (#"invalid literal for int() with base 10: " ++ repr P s))
      end
  | _ => inl (Exn "TypeError"
                (#"int() argument must be a string, a bytes-like object or a real number, not '"
                 ++ type_name v ++ #"'"))
  end.

(** [f"{action_name}_{i}"] and the two other keys. *)
Definition action_key (action_name : string) (i : nat) : text :=
  #action_name ++ #"_" ++ #(pretty i).

Definition unknown_key (i : nat) : text := #"unknown_action_" ++ #(pretty i).

Definition error_key (action_name : string) (i : nat) : text :=
  #action_name ++ #"_" ++ #(pretty i) ++ #"_error".

(** The body of the [try] for the action at index [i]: the key it assigns
    and the value assigned, or the exception that escapes it. Every path
    through the body assigns exactly one entry of [results]. *)
Definition try_action (i : nat) (a : action) : B (exn + text * dict) :=
  let action_name := act_name a in
  let params := act_params a in
  if String.eqb action_name "buy_stock" then
    match value_strip (get_default "symbol" (VStr []) params) with
    | inl e => bret (inl e)
    | inr stripped =>
        let symbol := upper stripped in
        match value_int (get_default "quantity" (VInt 0) params) with
        | inl e => bret (inl e)
        | inr quantity =>
            match symbol with
            | [] => bret (inr (action_key action_name i, error_result #"Missing or invalid symbol"))
            | _ :: _ =>
                if quantity <=? 0 then
                  bret (inr (action_key action_name i, error_result #"Quantity must be positive"))
                else
                  result <- buy_stock symbol quantity ;;
                  bret (inr (action_key action_name i, result))
            end
        end
    end
  else if String.eqb action_name "get_stock_price" then
    match value_strip (get_default "symbol" (VStr []) params) with
    | inl e => bret (inl e)
    | inr stripped =>
        let symbol := upper stripped in
        match symbol with
        | [] => bret (inr (action_key action_name i, error_result #"Missing or invalid symbol"))
        | _ :: _ =>
            result <- get_stock_price symbol ;;
            bret (inr (action_key action_name i, result))
        end
    end
  else if String.eqb action_name "get_account_info" then
    result <- get_account_info ;;
    bret (inr (action_key action_name i, result))
  else
    bret (inr (unknown_key i, error_result (#"Unknown action: " ++ #action_name))).

(** The body of the loop: the [try] and its [except Exception]. *)
Definition run_action (i : nat) (a : action) : B (text * dict) :=
  outcome <- try_action i a ;;
  match outcome with
  | inr entry => bret entry
  | inl e =>
      bret (error_key (act_name a) i,
            error_result (#"Error executing " ++ #(act_name a) ++ #": " ++ exn_message e))
  end.

(** [for i, action in enumerate(actions)], from index [i] on. *)
Fixpoint execute_from (i : nat) (actions : list action) (results : gmap text dict)
    : B (gmap text dict) :=
  match actions with
  | [] => bret results
  | a :: rest =>
      entry <- run_action i a ;;
      execute_from (S i) rest (<[fst entry := snd entry]> results)
  end.

Definition execute_actions (actions : list action) : B (gmap text dict) :=
  execute_from 0 actions ∅.

End Operations.

Arguments BState {P} sdk_state calls.
Arguments sdk_state {P} b.
Arguments calls {P} b.

End Broker.

(* ===================================================================== *)
(** ** ConfigManager: the credential store *)
(* ===================================================================== *)

Module Config.

(** In this module a string is the list of its code points and bytes are
    [Byte.byte]. *)
Definition ustr := list N.
Definition bytes := list Byte.byte.

Definition byte_of (n : N) : Byte.byte :=
  match Byte.of_N n with
  | Some b => b
  | None => Byte.x00
  end.

Definition val (b : Byte.byte) : N := Byte.to_N b.

(** *** [str.encode('utf-8')] and [bytes.decode('utf-8')] *)

Definition is_surrogate (cp : N) : bool := ((0xD800 <=? cp) && (cp <? 0xE000))%N.

(** The bytes of one code point; [None] stands for [UnicodeEncodeError]
    (a surrogate). *)
Definition encode_point (cp : N) : option bytes :=
  (if cp <? 0x80 then Some [byte_of cp]
   else if cp <? 0x800 then
     Some [byte_of (0xC0 + cp / 64); byte_of (0x80 + cp mod 64)]
   else if cp <? 0x10000 then
     if is_surrogate cp then None
     else Some [byte_of (0xE0 + cp / 4096); byte_of (0x80 + (cp / 64) mod 64);
                byte_of (0x80 + cp mod 64)]
   else if cp <? 0x110000 then
     Some [byte_of (0xF0 + cp / 262144); byte_of (0x80 + (cp / 4096) mod 64);
           byte_of (0x80 + (cp / 64) mod 64); byte_of (0x80 + cp mod 64)]
   else None)%N.

Fixpoint utf8_encode (s : ustr) : option bytes :=
  match s with
  | [] => Some []
  | cp :: s' =>
      match encode_point cp, utf8_encode s' with
      | Some b, Some bs => Some (b ++ bs)
      | _, _ => None
      end
  end.

Definition is_cont (b : Byte.byte) : bool := ((0x80 <=? val b) && (val b <? 0xC0))%N.

Definition cont (b : Byte.byte) : N := (val b - 0x80)%N.

Definition push (cp : N) (rest : option ustr) : option ustr :=
  match rest with
  | Some s => Some (cp :: s)
  | None => None
  end.

(** The strict decoder: [None] stands for [UnicodeDecodeError] (a stray
    continuation byte, a truncated or overlong sequence, a surrogate, a
    code point beyond U+10FFFF). *)
Fixpoint utf8_decode (bs : bytes) : option ustr :=
  match bs with
  | [] => Some []
  | b0 :: rest =>
      let n0 := val b0 in
      (if n0 <? 0x80 then push n0 (utf8_decode rest)
       else if n0 <? 0xC2 then None
       else if n0 <? 0xE0 then
         match rest with
         | b1 :: rest1 =>
             if is_cont b1
             then push ((n0 - 0xC0) * 64 + cont b1) (utf8_decode rest1)
             else None
         | _ => None
         end
       else if n0 <? 0xF0 then
         match rest with
         | b1 :: b2 :: rest2 =>
             let cp := (n0 - 0xE0) * 4096 + cont b1 * 64 + cont b2 in
             if is_cont b1 && is_cont b2 && negb (cp <? 0x800) && negb (is_surrogate cp)
             then push cp (utf8_decode rest2)
             else None
         | _ => None
         end
       else if n0 <? 0xF5 then
         match rest with
         | b1 :: b2 :: b3 :: rest3 =>
             let cp := (n0 - 0xF0) * 262144 + cont b1 * 4096 + cont b2 * 64 + cont b3 in
             if is_cont b1 && is_cont b2 && is_cont b3
                && negb (cp <? 0x10000) && (cp <? 0x110000)
             then push cp (utf8_decode rest3)
             else None
         | _ => None
         end
       else None)%N
  end.

(** *** [base64.b64encode] and [base64.b64decode] *)

Definition alphabet : bytes :=
  map (fun c => byte_of (N_of_ascii c))
    #"ABCDEFGHIJKLMNOPQRSTUVWXYZabcdefghijklmnopqrstuvwxyz0123456789+/".

Definition pad_char : Byte.byte := byte_of 61.

(** The character of a six-bit value. *)
Definition b64_char (v : N) : Byte.byte := nth (N.to_nat v) alphabet Byte.x00.

(** The six-bit value of a character; [None] for a character outside the
    alphabet. *)
Definition b64_value (c : Byte.byte) : option N :=
  let n := val c in
  (if (65 <=? n) && (n <=? 90) then Some (n - 65)
   else if (97 <=? n) && (n <=? 122) then Some (n - 71)
   else if (48 <=? n) && (n <=? 57) then Some (n + 4)
   else if n =? 43 then Some 62
   else if n =? 47 then Some 63
   else None)%N.

Fixpoint b64encode (data : bytes) : bytes :=
  match data with
  | [] => []
  | [a] =>
      [b64_char (val a / 4); b64_char ((val a mod 4) * 16); pad_char; pad_char]%N
  | [a; b] =>
      [b64_char (val a / 4); b64_char ((val a mod 4) * 16 + val b / 16);
       b64_char ((val b mod 16) * 4); pad_char]%N
  | a :: b :: c :: rest =>
      [b64_char (val a / 4); b64_char ((val a mod 4) * 16 + val b / 16);
       b64_char ((val b mod 16) * 4 + val c / 64); b64_char (val c mod 64)]%N
      ++ b64encode rest
  end.

(** [binascii.a2b_base64] as [b64decode] calls it (not strict): characters
    outside the alphabet are skipped, the data ends at the padding that
    completes a group, and [None] stands for [binascii.Error] (a group
    left incomplete). [quad_pos], [leftchar] and [pads] are the variables
    of the decoder. *)
Fixpoint a2b_base64 (quad_pos : nat) (leftchar : N) (pads : nat) (s : bytes)
    : option bytes :=
  match s with
  | [] => if Nat.eqb quad_pos 0 then Some [] else None
  | c :: s' =>
      if Byte.eqb c pad_char then
        if (2 <=? quad_pos)%nat && (4 <=? quad_pos + S pads)%nat then Some []
        else a2b_base64 quad_pos leftchar
               (if (2 <=? quad_pos)%nat then S pads else pads) s'
      else
        match b64_value c with
        | None => a2b_base64 quad_pos leftchar pads s'
        | Some v =>
            match quad_pos with
            | 0%nat => a2b_base64 1 v 0 s'
            | 1%nat =>
                option_map (cons (byte_of ((leftchar * 4 + v / 16) mod 256)))
                  (a2b_base64 2 (v mod 16) 0 s')
            | 2%nat =>
                option_map (cons (byte_of ((leftchar * 16 + v / 4) mod 256)))
                  (a2b_base64 3 (v mod 4) 0 s')
            | _ =>
                option_map (cons (byte_of ((leftchar * 64 + v) mod 256)))
                  (a2b_base64 0 0 0 s')
            end
        end
  end.

Definition b64decode (s : bytes) : option bytes := a2b_base64 0 0 0 s.

(** *** [Crypto.Util.Padding.pad] and [unpad], with the block size 16 *)

Definition block_size : nat := 16.

Definition pad (data : bytes) : bytes :=
  let padding_len := (block_size - length data mod block_size)%nat in
  data ++ repeat (byte_of (N.of_nat padding_len)) padding_len.

(** [None] stands for [ValueError]. *)
Definition unpad (padded : bytes) : option bytes :=
  let pdata_len := length padded in
  if Nat.eqb pdata_len 0 then None
  else if negb (Nat.eqb (pdata_len mod block_size) 0) then None
  else
    let padding_len := N.to_nat (val (List.last padded Byte.x00)) in
    if (padding_len <? 1)%nat || (Nat.min block_size pdata_len <? padding_len)%nat then None
    else if negb (forallb (Byte.eqb (byte_of (N.of_nat padding_len)))
                    (drop (pdata_len - padding_len) padded))
    then None
    else Some (take (pdata_len - padding_len) padded).

(** *** AES in CBC mode *)

Definition byte_xor (a b : Byte.byte) : Byte.byte := byte_of (N.lxor (val a) (val b)).

Definition block_xor (a b : bytes) : bytes := zip_with byte_xor a b.

(** The data cut into pieces of 16 bytes. *)
Fixpoint blocks_of (fuel : nat) (data : bytes) : list bytes :=
  match fuel with
  | O => []
  | S fuel' =>
      match data with
      | [] => []
      | _ => take block_size data :: blocks_of fuel' (drop block_size data)
      end
  end.

Definition blocks (data : bytes) : list bytes := blocks_of (length data) data.

Fixpoint cbc_encrypt (E : bytes -> bytes) (prev : bytes) (plain : list bytes) : list bytes :=
  match plain with
  | [] => []
  | p :: rest =>
      let c := E (block_xor p prev) in
      c :: cbc_encrypt E c rest
  end.

Fixpoint cbc_decrypt (D : bytes -> bytes) (prev : bytes) (cipher : list bytes) : list bytes :=
  match cipher with
  | [] => []
  | c :: rest => block_xor (D c) prev :: cbc_decrypt D c rest
  end.

(** [AES.new] accepts keys of 16, 24 and 32 bytes. *)
Definition valid_key (key : bytes) : bool :=
  Nat.eqb (length key) 16 || Nat.eqb (length key) 24 || Nat.eqb (length key) 32.

Section Cipher.

(** The block cipher itself is a parameter: what AES does to one block of
    16 bytes under a key. *)
Variable aes_encrypt_block : bytes -> bytes -> bytes.
Variable aes_decrypt_block : bytes -> bytes -> bytes.

(** [AES.new(key, AES.MODE_CBC, iv).encrypt(data)]; [None] stands for the
    [ValueError] of a bad key, a bad IV or data that is no whole number of
    blocks. *)
Definition aes_cbc_encrypt (key iv data : bytes) : option bytes :=
  if negb (valid_key key) then None
  else if negb (Nat.eqb (length iv) block_size) then None
  else if negb (Nat.eqb (length data mod block_size) 0) then None
  else Some (concat (cbc_encrypt (aes_encrypt_block key) iv (blocks data))).

Definition aes_cbc_decrypt (key iv data : bytes) : option bytes :=
  if negb (valid_key key) then None
  else if negb (Nat.eqb (length iv) block_size) then None
  else if negb (Nat.eqb (length data mod block_size) 0) then None
  else Some (concat (cbc_decrypt (aes_decrypt_block key) iv (blocks data))).

(** [_encrypt_value]: [key] is what [_get_encryption_key] reads from the
    key file and [iv] what [get_random_bytes(16)] returns. [None] stands
    for an exception, which the method lets escape. *)
Definition _encrypt_value (key iv : bytes) (value : ustr) : option ustr :=
  data ← utf8_encode value;
  encrypted_data ← aes_cbc_encrypt key iv (pad data);
  utf8_decode (b64encode (iv ++ encrypted_data)).

(** [_decrypt_value]: every exception of the body is caught and the
    method returns [None]. *)
Definition _decrypt_value (key : bytes) (encrypted_value : ustr) : option ustr :=
  encoded ← utf8_encode encrypted_value;
  raw_data ← b64decode encoded;
  let iv := take 16 raw_data in
  let encrypted_data := drop 16 raw_data in
  decrypted_data ← aes_cbc_decrypt key iv encrypted_data;
  data ← unpad decrypted_data;
  utf8_decode data.

End Cipher.

(** *** get_alpaca_credentials and set_alpaca_credentials *)

Definition paper_url : text := #"https://paper-api.alpaca.markets".
Definition live_url : text := #"https://api.alpaca.markets".

(** The configuration: a dictionary of sections, each a dictionary. *)
Definition get_alpaca_credentials (config : gmap string (gmap string value))
    : value * value * value :=
  match config !! "alpaca" with
  | None => (VNone, VNone, VNone)
  | Some section =>
      (default VNone (section !! "api_key"),
       default VNone (section !! "api_secret"),
       default (VStr paper_url) (section !! "base_url"))
  end.

(** [set_alpaca_credentials], up to the call of [save_config]. *)
Definition set_alpaca_credentials (config : gmap string (gmap string value))
    (api_key api_secret : value) (paper_trading : bool)
    : gmap string (gmap string value) :=
  let section := default ∅ (config !! "alpaca") in
  <["alpaca" :=
      <["base_url" := VStr (if paper_trading then paper_url else live_url)]>
        (<["api_secret" := api_secret]> (<["api_key" := api_key]> section))]> config.

End Config.

(* ===================================================================== *)
(** ** ConfigManager: the configuration in memory and in its files *)
(* ===================================================================== *)

Module Store.
Import Config.

(** A value held by a section of the configuration: [None], a string, or
    a value of another type, of which only the truth value matters here
    (it has no method [encode]). *)
Inductive cell :=
| CNone
| CStr (s : ustr)
| COther (truth : bool).

(** The truth value of a cell, as [if] takes it. *)
Definition cell_truthy (c : cell) : bool :=
  match c with
  | CNone => false
  | CStr [] => false
  | CStr (_ :: _) => true
  | COther truth => truth
  end.

(** The configuration is a dictionary of sections, and a section is a
    dictionary; the configuration file holds such a dictionary as JSON. *)
Abbreviation settings := (gmap string cell).
Abbreviation document := (gmap string (gmap string cell)).

(** The two files of a manager. The key file holds bytes. The
    configuration file is absent ([None]), holds something that
    [json.load] rejects ([Some None]), or holds a document. *)
Record disk := Disk {
  key_file : option bytes;
  config_file : option (option document)
}.

(** The code points of a string literal of the source. *)
Definition points (t : text) : ustr := map N_of_ascii t.

Section Cipher.

Variable aes_encrypt_block : bytes -> bytes -> bytes.
Variable aes_decrypt_block : bytes -> bytes -> bytes.

(** [_get_encryption_key]: [None] stands for the exception [open] raises
    when the key file is missing. *)
Definition _get_encryption_key (d : disk) : option bytes := key_file d.

(** One of the two steps of [save_config],
    [if name in section and section[name]:
         section[name] = self._encrypt_value(section[name])];
    [None] stands for an exception: the key file is missing, the cipher
    or the encoding rejects its input, or the value is no string. *)
Definition encrypt_entry (d : disk) (iv : bytes) (name : string) (s : settings)
    : option settings :=
  match s !! name with
  | None => Some s
  | Some c =>
      if cell_truthy c then
        match c with
        | CStr v =>
            key ← _get_encryption_key d;
            encrypted ← _encrypt_value aes_encrypt_block key iv v;
            Some (<[name := CStr encrypted]> s)
        | _ => None
        end
      else Some s
  end.

(** [json.dump(data_to_save, f)] into the configuration file. *)
Definition write_config (data : document) (d : disk) : disk :=
  {| key_file := key_file d; config_file := Some (Some data) |}.

(** [save_config]: what the call does ([Some tt] when it returns, [None]
    when it lets an exception escape), the configuration in memory
    afterwards, and the files afterwards. [data_to_save] is a shallow copy
    of [self.config], so the section [alpaca] of the copy is the very
    dictionary that [self.config] holds: the encrypted values assigned to
    the copy's section are thereby assigned to the configuration in
    memory. [iv_key] and [iv_secret] are what [get_random_bytes(16)]
    returns for the key and for the secret. *)
Definition save_config (iv_key iv_secret : bytes) (config : document) (d : disk)
    : option unit * document * disk :=
  match config !! "alpaca" with
  | None => (Some tt, config, write_config config d)
  | Some s =>
      match encrypt_entry d iv_key "api_key" s with
      | None => (None, config, d)
      | Some s1 =>
          match encrypt_entry d iv_secret "api_secret" s1 with
          | None => (None, <["alpaca" := s1]> config, d)
          | Some s2 =>
              (Some tt, <["alpaca" := s2]> config,
               write_config (<["alpaca" := s2]> config) d)
          end
      end
  end.

(** One of the two steps of [load_config]. [_decrypt_value] reads the key
    file before its [try]: a missing key file is an exception ([None]);
    everything else that goes wrong makes [_decrypt_value] return
    [None], which is stored. *)
Definition decrypt_entry (d : disk) (name : string) (s : settings) : option settings :=
  match s !! name with
  | None => Some s
  | Some c =>
      if cell_truthy c then
        key ← _get_encryption_key d;
        Some (<[name :=
                  match c with
                  | CStr v =>
                      match _decrypt_value aes_decrypt_block key v with
                      | Some plain => CStr plain
                      | None => CNone
                      end
                  | _ => CNone
                  end]> s)
      else Some s
  end.

(** [load_config]: the configuration in memory afterwards. Every
    exception of the body ends in [self.config = {}]. *)
Definition load_config (d : disk) : document :=
  match config_file d with
  | None => ∅
  | Some None => ∅
  | Some (Some data) =>
      match data !! "alpaca" with
      | None => data
      | Some s =>
          match decrypt_entry d "api_key" s with
          | None => ∅
          | Some s1 =>
              match decrypt_entry d "api_secret" s1 with
              | None => ∅
              | Some s2 => <["alpaca" := s2]> data
              end
          end
      end
  end.

(** [ConfigManager.__init__]: the key file is written, with the bytes
    [fresh_key] of [get_random_bytes(32)], only when there is none; then
    the configuration is loaded when its file exists. *)
Definition new_manager (fresh_key : bytes) (d : disk) : document * disk :=
  let d' :=
    match key_file d with
    | Some _ => d
    | None => {| key_file := Some fresh_key; config_file := config_file d |}
    end in
  (load_config d', d').

(** [set_alpaca_credentials], with the call of [save_config] that ends
    it. *)
Definition set_alpaca_credentials (iv_key iv_secret : bytes)
    (api_key api_secret : cell) (paper_trading : bool)
    (config : document) (d : disk) : option unit * document * disk :=
  let s := default ∅ (config !! "alpaca") in
  save_config iv_key iv_secret
    (<["alpaca" :=
        <["base_url" := CStr (points (if paper_trading then paper_url else live_url))]>
          (<["api_secret" := api_secret]> (<["api_key" := api_key]> s))]> config) d.

End Cipher.

(** [get_alpaca_credentials], on the values of this module. *)
Definition get_alpaca_credentials (config : document) : cell * cell * cell :=
  match config !! "alpaca" with
  | None => (CNone, CNone, CNone)
  | Some s =>
      (default CNone (s !! "api_key"),
       default CNone (s !! "api_secret"),
       default (CStr (points paper_url)) (s !! "base_url"))
  end.

End Store.

(* ===================================================================== *)
(** ** AccountManager: configuring the account *)
(* ===================================================================== *)

Module Account.
Import PyStr Regex Client.

(** The character sets [[A-Z0-9]] and [[a-zA-Z0-9]]. *)
Definition upper_or_digit : regex :=
  Alt (Cls (Range "A" "Z")) (Cls (Range "0" "9")).

Definition letter_or_digit : regex :=
  Alt (Cls (Range "a" "z")) (Alt (Cls (Range "A" "Z")) (Cls (Range "0" "9"))).

(** [r{n,}] *)
Fixpoint at_least (n : nat) (r : regex) : regex :=
  match n with
  | O => Star Greedy r
  | S n' => Seq r (at_least n' r)
  end.

(** The two patterns, between their [^] and [$]:
    [^[A-Z0-9]{12,}$] and [^[a-zA-Z0-9]{32,}$]. *)
Definition key_pattern : regex := at_least 12 upper_or_digit.
Definition secret_pattern : regex := at_least 32 letter_or_digit.

Definition plain_flags : flags := {| ignorecase := false; dotall := false |}.

(** [$] without [re.MULTILINE]: at the end of the text, or just before a
    newline that ends the text. *)
Definition at_dollar (rest : text) : bool :=
  match rest with
  | [] => true
  | [c] => Ascii.eqb c newline
  | _ => false
  end.

(** [re.match] of a pattern written between [^] and [$], as a truth
    value: the pattern is matched at the start of the text, and [$] is
    what must follow it. *)
Definition match_whole (r : regex) (s : text) : bool :=
  match rmatch plain_flags r s []
          (fun rest caps => if at_dollar rest then Some caps else None) with
  | Some _ => true
  | None => false
  end.

(** [not v or not re.match(pattern, v)] for an argument that is [None] or
    a string. *)
Definition bad_format (r : regex) (v : option text) : bool :=
  match v with
  | Some (x :: s) => negb (match_whole r (x :: s))
  | _ => true
  end.

(** What a call of [configure_account] leaves behind, besides its
    effects on the network and the console: what it returns or raises,
    the attributes of the manager afterwards, and the arguments of its
    call of [set_alpaca_credentials], when it makes one. *)
Record configured := Configured {
  answer : exn + bool;
  manager_after : credentials;
  saved : option (text * text * bool)
}.

Section Http.

Variable N : network.

Notation "x <- m ;; k" := (cbind m (fun x => k))
  (at level 100, m at next level, right associativity).
Notation "m ;;; k" := (cbind m (fun _ => k))
  (at level 100, right associativity).

Definition environment_url (paper_trading : bool) : text :=
  if paper_trading then Config.paper_url else Config.live_url.

(** The request of [_test_api_keys]. *)
Definition test_request (api_key api_secret : text) (paper_trading : bool) : http_request :=
  {| verb := GET;
     url := environment_url paper_trading ++ #"/v2/account";
     key_header := Some api_key;
     secret_header := Some api_secret;
     query := [];
     body := None |}.

(** [_test_api_keys] *)
Definition _test_api_keys (api_key api_secret : text) (paper_trading : bool) : C N bool :=
  reply <- request N (test_request api_key api_secret paper_trading) ;;
  match reply with
  | inl e => print (#"Error testing API keys: " ++ exn_message e) ;;; cret false
  | inr resp =>
      if status_code resp =? 200 then
        match response_json resp with
        | inl e => print (#"Error testing API keys: " ++ exn_message e) ;;; cret false
        | inr j =>
            match json_id N j with
            | inl e => print (#"Error testing API keys: " ++ exn_message e) ;;; cret false
            | inr id =>
                print (#"Successfully connected to Alpaca account: " ++ id) ;;; cret true
            end
        end
      else
        print (#"Failed to connect to Alpaca. Status code: " ++ str_int (status_code resp)) ;;;
        print (#"Response: " ++ response_text resp) ;;;
        cret false
  end.

(** [configure_account] for a manager with the attributes [m].
    [save_raises] is what the call of
    [config_manager.set_alpaca_credentials] does: it returns ([None]) or
    raises an exception, which [configure_account] lets escape before it
    has changed an attribute. *)
Definition configure_account (save_raises : option exn) (m : credentials)
    (api_key api_secret : option text) (paper_trading : bool) : C N configured :=
  if bad_format key_pattern api_key then
    print #"Invalid API key format. Please check your API key." ;;;
    cret {| answer := inr false; manager_after := m; saved := None |}
  else if bad_format secret_pattern api_secret then
    print #"Invalid API secret format. Please check your API secret." ;;;
    cret {| answer := inr false; manager_after := m; saved := None |}
  else
    let key := default [] api_key in
    let secret := default [] api_secret in
    valid <- _test_api_keys key secret paper_trading ;;
    if negb valid then
      print #"Unable to validate API keys. Please check your credentials." ;;;
      cret {| answer := inr false; manager_after := m; saved := None |}
    else
      match save_raises with
      | Some e =>
          cret {| answer := inl e; manager_after := m;
                  saved := Some (key, secret, paper_trading) |}
      | None =>
          print #"Account configured successfully." ;;;
          cret {| answer := inr true;
                  manager_after :=
                    {| api_key := Some key; api_secret := Some secret;
                       base_url := Some (environment_url paper_trading) |};
                  saved := Some (key, secret, paper_trading) |}
      end.

End Http.

End Account.

(* ===================================================================== *)
(** ** AIBroker.process_instruction *)
(* ===================================================================== *)

Module Instruction.
Import PyStr Broker.

(** The dictionary [company_to_symbol], in the order of its literal. *)
Definition company_to_symbol : list (text * text) :=
  [(#"APPLE", #"AAPL"); (#"MICROSOFT", #"MSFT"); (#"AMAZON", #"AMZN");
   (#"GOOGLE", #"GOOGL"); (#"ALPHABET", #"GOOGL"); (#"TESLA", #"TSLA");
   (#"NVIDIA", #"NVDA"); (#"META", #"META"); (#"FACEBOOK", #"META");
   (#"NETFLIX", #"NFLX"); (#"ANALOG DEVICES", #"ADI"); (#"INTEL", #"INTC");
   (#"AMD", #"AMD"); (#"ADVANCED MICRO DEVICES", #"AMD");
   (#"COCA COLA", #"KO"); (#"COCA-COLA", #"KO");
   (#"DISNEY", #"DIS"); (#"WALT DISNEY", #"DIS");
   (#"JPMORGAN", #"JPM"); (#"JP MORGAN", #"JPM");
   (#"BANK OF AMERICA", #"BAC"); (#"GOLDMAN SACHS", #"GS");
   (#"JOHNSON & JOHNSON", #"JNJ"); (#"JOHNSON AND JOHNSON", #"JNJ");
   (#"VISA", #"V"); (#"MASTERCARD", #"MA"); (#"WALMART", #"WMT");
   (#"TARGET", #"TGT"); (#"COSTCO", #"COST"); (#"HOME DEPOT", #"HD");
   (#"NIKE", #"NKE"); (#"MCDONALDS", #"MCD"); (#"MCDONALD'S", #"MCD");
   (#"STARBUCKS", #"SBUX"); (#"PFIZER", #"PFE"); (#"MODERNA", #"MRNA");
   (#"EXXON", #"XOM"); (#"EXXONMOBIL", #"XOM"); (#"EXXON MOBIL", #"XOM");
   (#"CHEVRON", #"CVX"); (#"BOEING", #"BA");
   (#"AMERICAN AIRLINES", #"AAL"); (#"DELTA", #"DAL");
   (#"DELTA AIR LINES", #"DAL")].

(** The set [common_words]. *)
Definition common_words : list text :=
  [(#"I"); #"A"; #"AN"; #"THE"; #"AND"; #"OR"; #"FOR"; #"TO"; #"IN"; #"OF";
   #"AT"; #"BY"; #"AS"; #"IS"; #"ARE"; #"AM"; #"BE"; #"BEEN"; #"BEING";
   #"WAS"; #"WERE"; #"HAS"; #"HAVE"; #"HAD"; #"DO"; #"DOES"; #"DID"; #"CAN";
   #"COULD"; #"WILL"; #"WOULD"; #"SHALL"; #"SHOULD"; #"MAY"; #"MIGHT";
   #"MUST"; #"THAT"; #"WHICH"; #"WHO"; #"WHOM"; #"WHOSE"; #"WHAT"; #"PRICE"].

(** [x in l] and [x in s] for a list or a set of strings. *)
Definition mem (x : text) (l : list text) : bool :=
  existsb (fun y => bool_decide (x = y)) l.

(** *** The two patterns searched in the user's text *)

(** [\w] on one character. *)
Definition is_word (c : ascii) : bool :=
  is_upper c || is_lower c || is_digit c || Ascii.eqb c "_".

(** [\b] at a position: of the character before it and the character at
    it, either of which is missing at an end of the text, exactly one is a
    word character. *)
Definition boundary (before : option ascii) (s : text) : bool :=
  xorb (from_option is_word false before) (from_option is_word false (head s)).

(** [[A-Z]{1,n}\b] at the start of [s]: as many letters as possible come
    first, and one letter at a time is given up until a boundary follows
    the letters kept. *)
Fixpoint letters_to_boundary (n : nat) (s : text) : option text :=
  match n, s with
  | S n', x :: s' =>
      if is_upper x then
        match letters_to_boundary n' s' with
        | Some w => Some (x :: w)
        | None => if boundary (Some x) s' then Some [x] else None
        end
      else None
  | _, _ => None
  end.

(** A match of a pattern at a position: what [findall] reports for it, and
    the number of characters matched. *)
Definition match_at := option ascii -> text -> option (text * nat).

(** [\b[A-Z]{1,5}\b], which [findall] reports whole. *)
Definition word_here : match_at := fun before s =>
  if boundary before s
  then w ← letters_to_boundary 5 s; Some (w, length w)
  else None.

(** [\$([A-Z]{1,5})\b], of which [findall] reports the group. *)
Definition dollar_here : match_at := fun _ s =>
  match s with
  | "$"%char :: s' => w ← letters_to_boundary 5 s'; Some (w, S (length w))
  | _ => None
  end.

(** [re.findall] for a pattern that matches no empty text: the matches
    from left to right, each search starting where the match before it
    ended. [before] is the character before the position, and [skip]
    counts the characters of [s] that still belong to the last match. *)
Fixpoint findall (m : match_at) (before : option ascii) (skip : nat) (s : text)
    {struct s} : list text :=
  match s with
  | [] => []
  | x :: s' =>
      match skip with
      | S k => findall m (Some x) k s'
      | O =>
          match m before s with
          | Some (w, n) => w :: findall m (Some x) (n - 1) s'
          | None => findall m (Some x) 0 s'
          end
      end
  end.

(** [for company, symbol in company_to_symbol.items(): if company in
    user_input_upper and symbol not in symbols: symbols.append(symbol)] *)
Fixpoint add_companies (user_input_upper : text) (table : list (text * text))
    (symbols : list text) : list text :=
  match table with
  | [] => symbols
  | (company, symbol) :: rest =>
      add_companies user_input_upper rest
        (if contains company user_input_upper && negb (mem symbol symbols)
         then symbols ++ [symbol] else symbols)
  end.

(** [for company, symbol in company_to_symbol.items(): if symbol in
    symbols: company_mapping[company] = symbol] *)
Definition company_mapping_of (symbols : list text) : list (text * text) :=
  List.filter (fun entry => mem (snd entry) symbols) company_to_symbol.

(** The language model and the interpreter services [process_instruction]
    relies on are parameters: the state of the model's service and its
    answer to a prompt, the order in which a set is listed, the text of the
    prompt, and the JSON texts. *)
Record assistant := Assistant {
  llm_world : Type;
  (* claude_client.messages.create(...) followed by message.content[0].text *)
  ask : llm_world -> text -> (exn + text) * llm_world;
  (* list(set(l)) *)
  list_of_set : list text -> list text;
  (* json.dumps(market_data, indent=2) *)
  dumps_market_data : gmap text dict -> exn + text;
  (* json.dumps(company_mapping, indent=2) *)
  dumps_mapping : list (text * text) -> text;
  (* the f-string, given the two JSON texts and user_input *)
  prompt_text : text -> text -> text -> text;
  (* json.dumps(results, indent=2, cls=UUIDEncoder) *)
  dumps_results : gmap text dict -> exn + text
}.

(** The symbols sent to [get_market_data]: the words of one to five
    letters of the upper-cased text, the tickers written after a dollar
    sign, the symbols of the companies named, without the common words. *)
Definition input_symbols (A : assistant) (user_input : text) : list text :=
  let symbols := findall word_here None 0 (upper user_input) in
  let symbols := list_of_set A symbols in
  let dollar_symbols := findall dollar_here None 0 (upper user_input) in
  let symbols := symbols ++ dollar_symbols in
  let user_input_upper := upper user_input in
  let symbols := add_companies user_input_upper company_to_symbol symbols in
  let symbols := list_of_set A symbols in
  List.filter (fun s => negb (mem s common_words)) symbols.

(** The text returned by the [except] clause. *)
Definition error_block (e : exn) : text :=
  #"<broker_response>" ++ [newline] ++ #"<error>" ++ [newline]
  ++ #"An error occurred while processing your request: " ++ exn_message e
  ++ [newline] ++ #"</error>" ++ [newline] ++ #"</broker_response>".

(** [claude_response + NEWLINE NEWLINE <actual_results> NEWLINE + ... + NEWLINE
    </actual_results>] *)
Definition full_response (claude_response results_json : text) : text :=
  claude_response ++ [newline; newline] ++ #"<actual_results>" ++ [newline]
  ++ results_json ++ [newline] ++ #"</actual_results>".

Section Process.

Variable P : platform.
Variable A : assistant.

(** The state [process_instruction] runs in: that of the broker, that of
    the model's service, and the prompts sent so far with what came
    back. *)
Record istate := IState {
  broker : bstate P;
  llm : llm_world A;
  asked : list (text * (exn + text))
}.

Definition call_claude (prompt : text) (st : istate) : (exn + text) * istate :=
  let (reply, w) := ask A (llm st) prompt in
  (reply, {| broker := broker st; llm := w; asked := asked st ++ [(prompt, reply)] |}).

Definition with_broker (st : istate) (b : bstate P) : istate :=
  {| broker := b; llm := llm st; asked := asked st |}.

Definition process_instruction (user_input : text) (st : istate) : text * istate :=
  let symbols := input_symbols A user_input in
  let (market_data, b1) := get_market_data P symbols (broker st) in
  let st1 := with_broker st b1 in
  let company_mapping := company_mapping_of symbols in
  match dumps_market_data A market_data with
  | inl e => (error_block e, st1)
  | inr market_json =>
      let prompt := prompt_text A market_json (dumps_mapping A company_mapping) user_input in
      let (reply, st2) := call_claude prompt st1 in
      match reply with
      | inl e => (error_block e, st2)
      | inr claude_response =>
          let actions := Extractor.extract_action_from_response claude_response in
          match actions with
          | [] => (claude_response, st2)
          | _ :: _ =>
              let (results, b3) := execute_actions P actions (broker st2) in
              let st3 := with_broker st2 b3 in
              match dumps_results A results with
              | inl e => (error_block e, st3)
              | inr results_json => (full_response claude_response results_json, st3)
              end
          end
      end
  end.

End Process.

Arguments IState {P A} broker llm asked.
Arguments broker {P A} i.
Arguments llm {P A} i.
Arguments asked {P A} i.

End Instruction.

(* ===================================================================== *)
(** ** The vocabulary of the statements, and data for closed examples *)
(* ===================================================================== *)

Section MatcherVocabulary.
Import PyStr Regex Extractor.

(** The first suffix of [s], from the longest on, that the continuation
    accepts. *)
Fixpoint first_suffix (k : text -> captures -> option captures)
    (s : text) (caps : captures) : option captures :=
  match k s caps with
  | Some res => Some res
  | None =>
      match s with
      | [] => None
      | _ :: s' => first_suffix k s' caps
      end
  end.

(** What follows the opening tag: the closing tag, with group 1 holding
    what was skipped to reach it. *)
Definition after_open (s1 : text) : text -> captures -> option captures :=
  fun s' caps' =>
    if starts_with close_tag s' then Some ((1%nat, consumed s1 s') :: caps') else None.



(** What it means for a pattern to match a text, apart from the order in
    which a matcher tries the alternatives: [matches fl r t c c'] says that
    [r] matches exactly [t] and turns the captures [c] into [c']. *)
Inductive matches (fl : flags) : regex -> text -> captures -> captures -> Prop :=
| M_Eps c : matches fl Eps [] c c
| M_Lit x y c : lit_match fl x y = true -> matches fl (Lit x) [y] c c
| M_Cls p y c : cls_match fl p y = true -> matches fl (Cls p) [y] c c
| M_Seq a b t1 t2 c c' c'' :
    matches fl a t1 c c' -> matches fl b t2 c' c'' ->
    matches fl (Seq a b) (t1 ++ t2) c c''
| M_Alt_l a b t c c' : matches fl a t c c' -> matches fl (Alt a b) t c c'
| M_Alt_r a b t c c' : matches fl b t c c' -> matches fl (Alt a b) t c c'
| M_Opt_some a t c c' : matches fl a t c c' -> matches fl (Opt a) t c c'
| M_Opt_none a c : matches fl (Opt a) [] c c
| M_Star_nil g a c : matches fl (Star g a) [] c c
| M_Star_cons g a t1 t2 c c' c'' :
    matches fl a t1 c c' -> matches fl (Star g a) t2 c' c'' ->
    matches fl (Star g a) (t1 ++ t2) c c''
| M_Group n a t c c' : matches fl a t c c' -> matches fl (Group n a) t c ((n, t) :: c').


(** Every group of [r] captures only texts that satisfy [Q]. *)
Fixpoint groups_sat (fl : flags) (Q : nat -> text -> Prop) (r : regex) : Prop :=
  match r with
  | Seq a b | Alt a b => groups_sat fl Q a /\ groups_sat fl Q b
  | Opt a | Star _ a => groups_sat fl Q a
  | Group n a => groups_sat fl Q a /\ (forall t c c', matches fl a t c c' -> Q n t)
  | _ => True
  end.


(** Which group of the buy pattern [idx] holds the quantity. *)
Definition quantity_group (idx : nat) : nat := if (idx =? 3)%nat then 1%nat else 2%nat.

(** The block of the specification's example, with its double quotes. *)
Definition aapl_call : text := #"buy_stock(" ++ [dquote] ++ #"AAPL" ++ [dquote] ++ #", 10)".
Definition aapl_block : text := open_tag ++ aapl_call ++ close_tag.

End MatcherVocabulary.

Section GatewayVocabulary.
Import PyStr Client Orders.

(** A network that is never reached, for closed examples: any request
    raises. *)
Definition offline : network :=
  {| world := unit;
     json := unit;
     json_id := fun _ => inr #"id";
     json_len := fun _ => inr 0;
     send := fun w _ => (inl (Exn "ConnectionError" #"unreachable"), w) |}.

Definition no_credentials : credentials :=
  {| api_key := None; api_secret := None; base_url := None |}.

Definition fresh : cstate offline := @CState offline tt [] [].

(** The requests a method added to those already sent all carry exactly
    one size field in their body. *)
Definition sizes_ok {N : network} (before after : cstate N) : Prop :=
  exists added,
    sent after = sent before ++ added /\
    Forall (fun r => forall b, body r = Some b -> exactly_one_size b) added.

(** The same for a [MarketOrderRequest]. *)
Definition request_one_size (r : Broker.market_order_request) : Prop :=
  (is_Some (Broker.mo_qty r) /\ Broker.mo_notional r = None) \/
  (Broker.mo_qty r = None /\ is_Some (Broker.mo_notional r)).

End GatewayVocabulary.

Section BrokerVocabulary.
Import PyStr Broker.

(** The three shapes of key: a name, an underscore, the index, and maybe
    the ending [_error]. *)
Definition key_shape (i : nat) (k : text) : Prop :=
  exists name : text, k = name ++ "_"%char :: #(pretty i)
                   \/ k = (name ++ "_"%char :: #(pretty i)) ++ "_"%char :: #"error".

(** The actions the extractor builds. *)
Definition extracted (a : action) : Prop :=
  (exists symbol quantity, a = Extractor.buy_action symbol quantity)
  \/ (exists symbol, a = Extractor.price_action symbol)
  \/ a = Extractor.account_action.

(** A brokerage for closed examples: the first order submitted is
    accepted and every later one is refused; bars exist for every symbol
    and timeframe exactly when [has_data] is set. *)
Definition demo (has_data : bool) : platform :=
  {| sdk_world := nat;
     order := text * Z;
     bar := Q;
     account := unit;
     clock := fun _ => 1700000000000000;
     submit := fun w r =>
       if (w =? 0)%nat
       then (inr (mo_symbol r, default 0 (mo_qty r)), S w)
       else (inl (Exn "APIError" #"insufficient buying power"), S w);
     stock_bars := fun w r =>
       (inr {| data_attr := None;
               items := if has_data then [(bars_symbol r, [150%Q])] else [] |}, w);
     fetch_account := fun w => (inr tt, w);
     order_to_dict := fun o => [("symbol", VStr (fst o))];
     order_summary := fun o => inr (#"order-1", fst o, inject_Z (snd o), #"accepted");
     bar_price := fun b => inr (b, #"2024-01-02");
     bar_quote := fun b => inr (b, b, #"2024-01-02", 1000%Q);
     account_money := fun _ => inr (100000%Q, 100000%Q, 200000%Q);
     account_status := fun _ => VStr #"ACTIVE";
     account_daytrade_count := fun _ => VInt 0;
     timeframe_str := fun tf =>
       match tf with Day => #"1Day" | Hour => #"1Hour" | Minute => #"1Min" end;
     repr := fun s => #"'" ++ s ++ #"'" |}.

Definition demo_start (has_data : bool) : bstate (demo has_data) :=
  @BState (demo has_data) 0%nat [].

(** The entry [get_market_data] stores for a reply of [get_stock_bars]:
    [None] when the call raised, when the reply has no bars for the symbol,
    when the list of bars is empty, and when reading the latest bar
    raises. *)
Definition reply_entry (P : platform) (symbol : text)
    (reply : exn + bars_reply (bar P)) : option dict :=
  match reply with
  | inl _ => None
  | inr bars =>
      match latest_bar symbol bars with
      | None => None
      | Some latest =>
          match bar_quote P latest with
          | inl _ => None
          | inr q => Some (quote_entry q)
          end
      end
  end.

(** The request for one bar of [symbol] at timeframe [tf] since [start]. *)
Definition bar_request (symbol : text) (tf : timeframe) (start : Z) : bars_request :=
  {| bars_symbol := symbol; bars_timeframe := tf; bars_start := start; bars_limit := 1 |}.

End BrokerVocabulary.

Section CredentialVocabulary.
Import Config.

Definition all_bytes : bytes := map (fun n => byte_of (N.of_nat n)) (seq 0 256).

(** A toy block cipher for a closed example: it reverses the block. *)
Definition toy_cipher (key block : bytes) : bytes := rev block.

Definition toy_key : bytes := repeat Byte.x2a 32.
Definition toy_iv : bytes := repeat Byte.x07 16.

(** The code points of [PK4FZ-é] and of a sign outside the basic plane. *)
Definition toy_secret : ustr := [80; 75; 52; 70; 90; 45; 233; 128273]%N.

End CredentialVocabulary.

(** Settles the comparisons of the goal that linear arithmetic decides. *)
Ltac settle_tests :=
  repeat match goal with
    | |- context [(?a <? ?b)%N] =>
        first [ replace (a <? b)%N with true by (symmetry; apply N.ltb_lt; lia)
              | replace (a <? b)%N with false by (symmetry; apply N.ltb_ge; lia) ]
    | |- context [(?a <=? ?b)%N] =>
        first [ replace (a <=? b)%N with true by (symmetry; apply N.leb_le; lia)
              | replace (a <=? b)%N with false by (symmetry; apply N.leb_gt; lia) ]
    end.

Section ExtractorVocabulary.
Import PyStr Regex Extractor.

(** A symbol as the extractor emits it: not empty, without any of the
    letters [a] to [z], and with no quote character at either end. *)
Definition tidy_symbol (t : text) : Prop :=
  t <> [] /\
  Forall (fun c => is_lower c = false) t /\
  (forall c, head t = Some c \/ last t = Some c -> char_in quote_chars c = false).

(** The text is made of 7-bit characters, for which the character tables
    of the model are those of Python. *)
Definition is_ascii (t : text) : Prop := Forall (fun c => (code c < 128)%N) t.

(** Captured groups with every text upper-cased. *)
Definition upper_captures (caps : captures) : captures :=
  map (fun nt => (fst nt, upper (snd nt))) caps.

End ExtractorVocabulary.

Section DispatcherVocabulary.
Import PyStr Broker.

(** The order requests among a list of SDK calls, in order. *)
Definition orders_in (l : list sdk_call) : list market_order_request :=
  flat_map (fun c => match c with SubmitOrder r => [r] | _ => [] end) l.

(** An order as the broker is meant to place them: a purchase for the day
    of a positive number of shares of a named symbol, written without the
    letters [a] to [z]. *)
Definition sound_order (r : market_order_request) : Prop :=
  mo_symbol r <> [] /\
  Forall (fun c => is_lower c = false) (mo_symbol r) /\
  (exists q, mo_qty r = Some q /\ 0 < q) /\
  mo_notional r = None /\
  mo_side r = Orders.BUY /\
  mo_time_in_force r = Orders.DAY.

(** The order the dispatcher places for an action, if any: read off the
    action alone. *)
Definition order_of (P : platform) (a : action) : list market_order_request :=
  if String.eqb (act_name a) "buy_stock" then
    match value_strip (get_default "symbol" (VStr []) (act_params a)),
          value_int P (get_default "quantity" (VInt 0) (act_params a)) with
    | inr stripped, inr quantity =>
        if Extractor.nonempty (upper stripped) && (0 <? quantity)
        then [buy_request (upper stripped) quantity]
        else []
    | _, _ => []
    end
  else [].

(** The four queries of [get_stock_price] for a symbol at time [t]: one
    bar of each timeframe over 30 days, then five daily bars over 90
    days. *)
Definition price_queries (symbol : text) (t : Z) : list sdk_call :=
  map (fun tf => GetStockBars (bar_request symbol tf (t - thirty_days))) timeframes
  ++ [GetStockBars {| bars_symbol := symbol; bars_timeframe := Day;
                      bars_start := t - ninety_days; bars_limit := 5 |}].

(** A query for the latest bar of one of the symbols. *)
Definition quote_query (symbols : list text) (c : sdk_call) : Prop :=
  exists symbol tf start,
    In symbol symbols /\ c = GetStockBars (bar_request symbol tf start).

End DispatcherVocabulary.

Section GatewayCoverageVocabulary.
Import PyStr Client Orders.

(** The HTTP method and the address each operation of the gateway uses,
    for a client whose base URL is [u]. *)
Definition method_of (op : operation) : http_verb :=
  match op with
  | OpSubmitOrder _ => POST
  | OpCancelOrder _ | OpCancelAllOrders => DELETE
  | _ => GET
  end.

Definition endpoint (u : text) (op : operation) : text :=
  match op with
  | OpGetAccount => u ++ #"/v2/account"
  | OpGetPositions => u ++ #"/v2/positions"
  | OpGetPosition symbol => (u ++ #"/v2/positions") ++ #"/" ++ symbol
  | OpGetOrders _ _ | OpSubmitOrder _ | OpCancelAllOrders => u ++ #"/v2/orders"
  | OpGetOrder order_id | OpCancelOrder order_id => (u ++ #"/v2/orders") ++ #"/" ++ order_id
  end.

(** The query parameters: [get_orders] alone has some. *)
Definition op_query (op : operation) : list (string * text) :=
  match op with
  | OpGetOrders status limit =>
      ("limit", str_int limit) ::
      match status with
      | Some (x :: s) => [("status", x :: s)]
      | _ => []
      end
  | _ => []
  end.

(** The request of an operation of client [c] whose base URL is [u]. *)
Definition request_of (c : client) (u : text) (op : operation) : http_request :=
  mk_request c (method_of op) (endpoint u op) (op_query op)
    (match op with OpSubmitOrder order_data => Some order_data | _ => None end).

(** The status code that an operation takes for success. *)
Definition success_code (op : operation) (code : Z) : bool :=
  match op with
  | OpSubmitOrder _ => (code =? 200) || (code =? 201)
  | OpCancelOrder _ => code =? 204
  | OpCancelAllOrders => code =? 207
  | _ => code =? 200
  end.

(** A client whose account manager has since been given other
    credentials (by [configure_account]): the client keeps what its
    constructor copied. *)
Definition reconfigured (c : client) (m : credentials) : client :=
  {| account_manager := m; own_key := own_key c; own_secret := own_secret c;
     own_urls := own_urls c |}.

(** The operations whose address is put together before the [try]. *)
Definition builds_url_first (op : operation) : bool :=
  match op with
  | OpGetPosition _ | OpGetOrder _ | OpCancelOrder _ => true
  | _ => false
  end.

Definition some_credentials : credentials :=
  {| api_key := Some #"PKTESTKEY1234"; api_secret := Some #"secret";
     base_url := Some Config.paper_url |}.

(** The calls of the order manager that place an order. *)
Inductive order_call :=
| MarketCall (symbol : text) (side : OrderSide) (qty notional : option Q)
    (time_in_force : TimeInForce) (extended_hours : bool)
| LimitCall (symbol : text) (side : OrderSide) (limit_price : option Q)
    (qty notional : option Q) (time_in_force : TimeInForce) (extended_hours : bool)
| StopCall (symbol : text) (side : OrderSide) (stop_price : option Q)
    (qty notional : option Q) (time_in_force : TimeInForce)
| StopLimitCall (symbol : text) (side : OrderSide) (stop_price limit_price : option Q)
    (qty notional : option Q) (time_in_force : TimeInForce).

Definition place (N : network) (str_num : Q -> text) (c : client) (call : order_call)
    : C N (outcome N) :=
  match call with
  | MarketCall symbol side qty notional tif ext =>
      market_order N str_num c symbol side qty notional tif ext
  | LimitCall symbol side limit qty notional tif ext =>
      limit_order N str_num c symbol side limit qty notional tif ext
  | StopCall symbol side stop qty notional tif =>
      stop_order N str_num c symbol side stop qty notional tif
  | StopLimitCall symbol side stop limit qty notional tif =>
      stop_limit_order N str_num c symbol side stop limit qty notional tif
  end.

(** The arguments every such call has. *)
Definition call_symbol (call : order_call) : text :=
  match call with
  | MarketCall s _ _ _ _ _ | LimitCall s _ _ _ _ _ _ | StopCall s _ _ _ _ _
  | StopLimitCall s _ _ _ _ _ _ => s
  end.

Definition call_side (call : order_call) : OrderSide :=
  match call with
  | MarketCall _ s _ _ _ _ | LimitCall _ s _ _ _ _ _ | StopCall _ s _ _ _ _
  | StopLimitCall _ s _ _ _ _ _ => s
  end.

Definition call_qty (call : order_call) : option Q :=
  match call with
  | MarketCall _ _ q _ _ _ | LimitCall _ _ _ q _ _ _ | StopCall _ _ _ q _ _
  | StopLimitCall _ _ _ _ q _ _ => q
  end.

Definition call_notional (call : order_call) : option Q :=
  match call with
  | MarketCall _ _ _ n _ _ | LimitCall _ _ _ _ n _ _ | StopCall _ _ _ _ n _
  | StopLimitCall _ _ _ _ _ n _ => n
  end.

Definition call_tif (call : order_call) : TimeInForce :=
  match call with
  | MarketCall _ _ _ _ t _ | LimitCall _ _ _ _ _ t _ | StopCall _ _ _ _ _ t
  | StopLimitCall _ _ _ _ _ _ t => t
  end.

Definition call_type (call : order_call) : OrderType :=
  match call with
  | MarketCall _ _ _ _ _ _ => MARKET
  | LimitCall _ _ _ _ _ _ _ => LIMIT
  | StopCall _ _ _ _ _ _ => STOP
  | StopLimitCall _ _ _ _ _ _ _ => STOP_LIMIT
  end.

Definition call_limit (call : order_call) : option (option Q) :=
  match call with
  | LimitCall _ _ l _ _ _ _ | StopLimitCall _ _ _ l _ _ _ => Some l
  | _ => None
  end.

Definition call_stop (call : order_call) : option (option Q) :=
  match call with
  | StopCall _ _ s _ _ _ | StopLimitCall _ _ s _ _ _ _ => Some s
  | _ => None
  end.

Definition call_extended (call : order_call) : bool :=
  match call with
  | MarketCall _ _ _ _ _ e | LimitCall _ _ _ _ _ _ e => e
  | _ => false
  end.

(** A positive amount. *)
Definition positive (x : option Q) : bool :=
  match x with
  | Some q => negb (nonpositive q)
  | None => false
  end.

(** The symbol and the sizes pass the checks: a symbol, and exactly one of
    the two sizes, which is positive. *)
Definition sizes_pass (symbol : text) (qty notional : option Q) : bool :=
  Extractor.nonempty symbol
  && match qty, notional with
     | Some q, None => negb (nonpositive q)
     | None, Some n => negb (nonpositive n)
     | _, _ => false
     end.

(** The arguments pass all the checks: the symbol and the sizes, and
    positive prices where the order type has prices. *)
Definition acceptable (call : order_call) : bool :=
  sizes_pass (call_symbol call) (call_qty call) (call_notional call)
  && match call_stop call with Some p => positive p | None => true end
  && match call_limit call with Some p => positive p | None => true end.

(** The fields of the order posted for an acceptable call. *)
Definition posted_field (str_num : Q -> text) (call : order_call) (key : string)
    : option value :=
  if String.eqb key "symbol" then Some (VStr (upper (call_symbol call)))
  else if String.eqb key "side" then Some (VStr (side_value (call_side call)))
  else if String.eqb key "type" then Some (VStr (type_value (call_type call)))
  else if String.eqb key "time_in_force" then Some (VStr (tif_value (call_tif call)))
  else if String.eqb key "qty" then option_map (fun q => VStr (str_num q)) (call_qty call)
  else if String.eqb key "notional" then
    option_map (fun n => VStr (str_num n)) (call_notional call)
  else if String.eqb key "limit_price" then
    match call_limit call with
    | Some (Some p) => Some (VStr (str_num p))
    | _ => None
    end
  else if String.eqb key "stop_price" then
    match call_stop call with
    | Some (Some p) => Some (VStr (str_num p))
    | _ => None
    end
  else if String.eqb key "extended_hours" then
    if call_extended call then Some (VBool true) else None
  else None.

End GatewayCoverageVocabulary.

Section StoreVocabulary.
Import Config Store.

(** A value that [save_config] can write: a string that UTF-8 can encode,
    or a value that counts as false, which is written as it is. *)
Definition storable (c : cell) : Prop :=
  match c with
  | CNone => True
  | CStr v => is_Some (utf8_encode v)
  | COther truth => truth = false
  end.

(** What [save_config] leaves in memory and in the file for a value. *)
Definition stored_as (E : bytes -> bytes -> bytes) (key iv : bytes) (c stored : cell)
    : Prop :=
  match c with
  | CStr (x :: v) =>
      exists encrypted,
        _encrypt_value E key iv (x :: v) = Some encrypted /\ stored = CStr encrypted
  | _ => stored = c
  end.

(** A disk for closed examples: it holds a key file and no configuration
    yet. *)
Definition toy_disk : disk := {| key_file := Some toy_key; config_file := None |}.

End StoreVocabulary.

Section AccountVocabulary.
Import PyStr Regex Account.

(** The matcher on a pattern that takes one character of a set: the
    longest run of such characters first, then the shorter ones. *)
Fixpoint longest_first (p : ascii -> bool) (k : text -> captures -> option captures)
    (s : text) (caps : captures) : option captures :=
  match s with
  | x :: s' =>
      if p x then
        match longest_first p k s' caps with
        | Some res => Some res
        | None => k s caps
        end
      else k s caps
  | [] => k [] caps
  end.

Fixpoint at_least_run (p : ascii -> bool) (n : nat)
    (k : text -> captures -> option captures) (s : text) (caps : captures)
    : option captures :=
  match n with
  | O => longest_first p k s caps
  | S n' =>
      match s with
      | x :: s' => if p x then at_least_run p n' k s' caps else None
      | [] => None
      end
  end.

(** A pattern that takes exactly one character, one of the set [p]. *)
Definition char_like (fl : flags) (r : regex) (p : ascii -> bool) : Prop :=
  (forall caps k, rmatch fl r [] caps k = None)
  /\ (forall x s caps k, rmatch fl r (x :: s) caps k = if p x then k s caps else None).

(** What follows the pattern must be what [$] accepts. *)
Definition dollar : text -> captures -> option captures :=
  fun rest caps => if at_dollar rest then Some caps else None.

(** A text made of at least [n] characters of the set [p], with or
    without a newline after them. *)
Definition run_of (p : ascii -> bool) (n : nat) (s : text) : Prop :=
  exists body,
    (s = body \/ s = body ++ [newline])
    /\ (n <= length body)%nat
    /\ Forall (fun c => p c = true) body.

End AccountVocabulary.

Section InstructionVocabulary.
Import PyStr Broker Instruction.

(** The orders an exchange with the model leads to: those of the actions
    read off its answer, and none when the call failed. *)
Definition orders_of_exchange (P : platform) (x : text * (exn + text))
    : list market_order_request :=
  match snd x with
  | inr claude_response =>
      flat_map (order_of P) (Extractor.extract_action_from_response claude_response)
  | inl _ => []
  end.

(** A run of one to [n] capital letters. *)
Definition capitals (n : nat) (w : text) : Prop :=
  (1 <= length w <= n)%nat /\ Forall (fun c => is_upper c = true) w.

(** A word of one to five capital letters that is no common word. *)
Definition ticker_like (s : text) : Prop :=
  capitals 5 s /\ ~ In s common_words.

(** No word character: the end of the text, or a character other than a
    letter, a digit and the underscore. *)
Definition no_word (c : option ascii) : Prop :=
  from_option is_word false c = false.

(** [w] stands in [s] as a whole word of one to five capital letters. *)
Definition stands_alone (s w : text) : Prop :=
  exists pre post,
    s = pre ++ w ++ post /\ capitals 5 w /\ no_word (last pre) /\ no_word (head post).

(** [w] stands in [s] after a dollar sign, as one to five capital letters
    that end a word. *)
Definition follows_dollar (s w : text) : Prop :=
  exists pre post,
    s = pre ++ "$"%char :: w ++ post /\ capitals 5 w /\ no_word (head post).

(** The character before the position that follows [pre], when [before]
    is the character before [pre]. *)
Definition before_after (before : option ascii) (pre : text) : option ascii :=
  match last pre with
  | Some c => Some c
  | None => before
  end.

(** A match covers, after its first character, capital letters only. *)
Definition letters_follow (m : match_at) : Prop :=
  forall before s w n,
    m before s = Some (w, n) -> Forall (fun c => is_upper c = true) (take (n - 1) (tail s)).

(** [list(set(l))] lists the elements of [l], in whatever order. *)
Definition set_lister (A : assistant) : Prop :=
  forall l x, In x (list_of_set A l) <-> In x l.

(** An assistant for closed examples: a set is listed in the order of the
    first occurrences, and the model answers every prompt with [answer]. *)
Definition scripted (answer : exn + text) : assistant :=
  {| llm_world := unit;
     ask := fun w _ => (answer, w);
     list_of_set := fun l => remove_dups l;
     dumps_market_data := fun _ => inr #"{}";
     dumps_mapping := fun _ => #"{}";
     prompt_text := fun _ _ user_input => user_input;
     dumps_results := fun _ => inr #"{}" |}.

(** A run on the demonstration brokerage: the model answers with one
    purchase, written with single quotes. *)
Definition demo_answer : text :=
  #"<actions_taken>" ++ [newline] ++ #"buy_stock('AAPL', 10)" ++ [newline]
  ++ #"</actions_taken>".

Definition demo_istate : istate (demo true) (scripted (inr demo_answer)) :=
  @IState (demo true) (scripted (inr demo_answer)) (demo_start true) tt [].

End InstructionVocabulary.

Section PatternVocabulary.
Import PyStr Regex Extractor.


(** Every repetition in [r] repeats a pattern that takes one character. *)
Fixpoint single_stars (r : regex) : Prop :=
  match r with
  | Seq a b | Alt a b => single_stars a /\ single_stars b
  | Opt a | Group _ a => single_stars a
  | Star _ a => match a with Lit _ | Cls _ => True | _ => False end
  | _ => True
  end.





End PatternVocabulary.

(** Tactics for the proofs of the second part. *)

(** Facts about single characters are settled by running through the 256
    of them. *)
Ltac each_char c := destruct c as [[] [] [] [] [] [] [] []]; vm_compute; try reflexivity; auto.

(** One step through the body of a method of the client: the reply of the
    network, the test of its status code, the decoding of its document. *)
Ltac step_client :=
  match goal with
  | |- context [Client.send ?net ?w ?r] => destruct (Client.send net w r) as [[?e|?resp] ?w1]
  | |- context [Client.status_code ?resp =? ?n] =>
      destruct (Client.status_code resp =? n) eqn:?
  | |- context [Client.response_json ?resp] =>
      destruct (Client.response_json resp) as [?e|?j]
  | |- context [Client.json_id ?net ?j] => destruct (Client.json_id net j)
  | |- context [Client.json_len ?net ?j] => destruct (Client.json_len net j)
  end.

(** Settles the lookup of a key in a dictionary built by insertions. *)
Ltac settle_lookup key :=
  repeat match goal with
    | |- context [String.eqb key ?k] =>
        destruct (String.eqb_spec key k) as [->|?];
        [repeat (rewrite lookup_insert_ne by done);
         first [rewrite lookup_insert_eq; reflexivity | apply lookup_empty]|]
    end;
  repeat (rewrite lookup_insert_ne by congruence); apply lookup_empty.

(** The lookup of [key] in the order a method has put together from the
    base order [base]. *)
Ltac settle_field key Hbase :=
  unfold posted_field, Orders.with_extended_hours;
  cbn [call_symbol call_side call_type call_tif call_qty call_notional call_limit
       call_stop call_extended];
  repeat match goal with
    | |- context [String.eqb key ?k] =>
        destruct (String.eqb_spec key k) as [->|?];
        [repeat (rewrite lookup_insert_ne by done);
         first [rewrite lookup_insert_eq; reflexivity | rewrite Hbase; reflexivity]|]
    end;
  repeat (rewrite lookup_insert_ne by congruence);
  rewrite Hbase;
  repeat match goal with
    | |- context [String.eqb key ?k] =>
        destruct (String.eqb_spec key k); [congruence|]
    end;
  reflexivity.

(* ===================================================================== *)
(** * Properties *)
(* ===================================================================== *)

(** ** Facts about the matcher *)

Section MatcherFacts.
Import PyStr Regex.

Lemma starts_with_app (p s : text) : starts_with p (p ++ s) = true.
Proof.
  induction p as [|c p IH]; simpl; [reflexivity|].
  rewrite Ascii.eqb_refl. exact IH.
Qed.

Lemma starts_with_spec (p s : text) :
  starts_with p s = true <-> exists t, s = p ++ t.
Proof.
  split.
  - revert s. induction p as [|c p IH]; intros s H; simpl in *.
    + exists s. reflexivity.
    + destruct s as [|x s]; [discriminate|].
      apply andb_true_iff in H as [Hc Hp].
      apply Ascii.eqb_eq in Hc. subst x.
      destruct (IH _ Hp) as [t ->]. exists t. reflexivity.
  - intros [t ->]. apply starts_with_app.
Qed.

Lemma contains_cons_false (sub : text) (a : ascii) (s : text) :
  contains sub (a :: s) = false ->
  starts_with sub (a :: s) = false /\ contains sub s = false.
Proof.
  simpl. intros H. apply orb_false_iff in H. exact H.
Qed.

(** A literal word, matched case-sensitively, is a prefix test. *)
Lemma rmatch_lits (fl : flags) (p s : text) caps k :
  ignorecase fl = false ->
  rmatch fl (lits p) s caps k
  = if starts_with p s then k (drop (length p) s) caps else None.
Proof.
  intros Hfl. revert s. induction p as [|c p IH]; intros s; simpl.
  - reflexivity.
  - destruct s as [|x s]; [reflexivity|].
    unfold lit_match. rewrite Hfl.
    destruct (Ascii.eqb c x); simpl; [apply IH | reflexivity].
Qed.

(** Under [re.DOTALL] the lazy [.*?] hands every suffix to what follows it,
    the longest first. *)
Lemma rmatch_lazy_any (fl : flags) (s : text) caps k :
  dotall fl = true ->
  rmatch fl (Star Lazy (Cls Any)) s caps k = first_suffix k s caps.
Proof.
  intros Hfl. simpl. rewrite Hfl. cbn [orb].
  generalize (Nat.le_refl (length s)).
  generalize (length s) at 2 3 as fuel.
  intros fuel. revert s.
  induction fuel as [|fuel IH]; intros s Hlen.
  - destruct s; [|simpl in Hlen; lia]. simpl. destruct (k [] caps); reflexivity.
  - destruct s as [|x s].
    + simpl. destruct (k [] caps); reflexivity.
    + cbn [first_suffix]. destruct (k (x :: s) caps); [reflexivity|].
      replace (length s <? length (x :: s))%nat with true
        by (symmetry; apply Nat.ltb_lt; simpl; lia).
      apply IH. simpl in Hlen. lia.
Qed.

(** A word whose first character does not occur again in it cannot start
    inside [pre] and run over into a copy of itself placed after [pre]. *)
Lemma prefix_runs_over (c : ascii) (w pre t : text) :
  ~ In c w ->
  starts_with w (pre ++ c :: t) = true ->
  starts_with w pre = true.
Proof.
  revert pre. induction w as [|d w IH]; intros pre Hc E; [reflexivity|].
  destruct pre as [|b pre]; simpl in *.
  - apply andb_true_iff in E as [Ed _].
    apply Ascii.eqb_eq in Ed. exfalso. apply Hc. left. exact Ed.
  - apply andb_true_iff in E as [Eb E]. rewrite Eb. simpl.
    apply IH; [|exact E]. intros Hin. apply Hc. right. exact Hin.
Qed.

Lemma no_straddle (c : ascii) (w pre rest : text) :
  ~ In c w ->
  pre <> [] ->
  starts_with (c :: w) pre = false ->
  starts_with (c :: w) (pre ++ (c :: w) ++ rest) = false.
Proof.
  intros Hc Hne Hpre.
  destruct (starts_with (c :: w) (pre ++ (c :: w) ++ rest)) eqn:E; [|reflexivity].
  exfalso.
  destruct pre as [|a pre]; [congruence|].
  simpl in E, Hpre. apply andb_true_iff in E as [Ea E].
  rewrite Ea in Hpre. simpl in Hpre.
  rewrite (prefix_runs_over c w pre (w ++ rest) Hc E) in Hpre. discriminate.
Qed.

End MatcherFacts.

(** ** The search for the actions section *)

Section TagSearch.
Import PyStr Regex Extractor.

Lemma rmatch_Seq fl a b s caps k :
  rmatch fl (Seq a b) s caps k
  = rmatch fl a s caps (fun s' caps' => rmatch fl b s' caps' k).
Proof. reflexivity. Qed.

Lemma rmatch_Group fl n r s caps k :
  rmatch fl (Group n r) s caps k
  = rmatch fl r s caps (fun s' caps' => k s' ((n, consumed s s') :: caps')).
Proof. reflexivity. Qed.

Lemma search_unfold fl r s :
  search fl r s
  = match match_here fl r s with
    | Some caps => Some caps
    | None => match s with [] => None | _ :: s' => search fl r s' end
    end.
Proof. destruct s; reflexivity. Qed.

Lemma first_suffix_ext k1 k2 s caps :
  (forall t c, k1 t c = k2 t c) ->
  first_suffix k1 s caps = first_suffix k2 s caps.
Proof.
  intros H. induction s as [|x s IH]; simpl; rewrite H.
  - reflexivity.
  - destruct (k2 (x :: s) caps); [reflexivity | exact IH].
Qed.

Lemma open_tag_head : open_tag = "<"%char :: #"actions_taken>".
Proof. reflexivity. Qed.

Lemma close_tag_head : close_tag = "<"%char :: #"/actions_taken>".
Proof. reflexivity. Qed.

Lemma open_tag_tail : ~ In "<"%char #"actions_taken>".
Proof. simpl. intros H. repeat (destruct H as [H|H]; [discriminate H|]). exact H. Qed.

Lemma close_tag_tail : ~ In "<"%char #"/actions_taken>".
Proof. simpl. intros H. repeat (destruct H as [H|H]; [discriminate H|]). exact H. Qed.

Lemma open_tag_not_here (a : ascii) (pre rest : text) :
  starts_with open_tag (a :: pre) = false ->
  starts_with open_tag ((a :: pre) ++ open_tag ++ rest) = false.
Proof.
  intros H.
  refine (no_straddle "<"%char #"actions_taken>" (a :: pre) rest open_tag_tail _ H).
  discriminate.
Qed.

Lemma close_tag_not_here (a : ascii) (pre rest : text) :
  starts_with close_tag (a :: pre) = false ->
  starts_with close_tag ((a :: pre) ++ close_tag ++ rest) = false.
Proof.
  intros H.
  refine (no_straddle "<"%char #"/actions_taken>" (a :: pre) rest close_tag_tail _ H).
  discriminate.
Qed.

Lemma match_here_tag (s : text) :
  match_here tag_flags tag_pattern s
  = if starts_with open_tag s
    then first_suffix (after_open (drop (length open_tag) s)) (drop (length open_tag) s) []
    else None.
Proof.
  unfold match_here, tag_pattern.
  change (seq [lits open_tag; Group 1 (Star Lazy (Cls Any)); lits close_tag])
    with (Seq (lits open_tag) (Seq (Group 1 (Star Lazy (Cls Any))) (lits close_tag))).
  rewrite rmatch_Seq, rmatch_lits by reflexivity.
  destruct (starts_with open_tag s); [|reflexivity].
  rewrite rmatch_Seq, rmatch_Group, rmatch_lazy_any by reflexivity.
  apply first_suffix_ext. intros t c.
  rewrite rmatch_lits by reflexivity. reflexivity.
Qed.

Lemma consumed_app (a b : text) : consumed (a ++ b) b = a.
Proof.
  unfold consumed. rewrite length_app.
  replace (length a + length b - length b)%nat with (length a) by lia.
  apply take_app_length.
Qed.

Lemma first_suffix_close (b1 b2 rest : text) :
  contains close_tag b2 = false ->
  first_suffix (after_open (b1 ++ b2 ++ close_tag ++ rest)) (b2 ++ close_tag ++ rest) []
  = Some [(1%nat, b1 ++ b2)].
Proof.
  revert b1. induction b2 as [|a b2 IH]; intros b1 Hno.
  - cbn [app]. rewrite app_nil_r.
    assert (E : after_open (b1 ++ close_tag ++ rest) (close_tag ++ rest) []
                = Some [(1%nat, b1)]).
    { unfold after_open. rewrite starts_with_app, consumed_app. reflexivity. }
    change (close_tag ++ rest) with ("<"%char :: #"/actions_taken>" ++ rest) at 2.
    cbn [first_suffix].
    change ("<"%char :: #"/actions_taken>" ++ rest) with (close_tag ++ rest).
    rewrite E. reflexivity.
  - apply contains_cons_false in Hno as [Hhere Hno].
    change ((a :: b2) ++ close_tag ++ rest) with (a :: b2 ++ close_tag ++ rest) at 2.
    cbn [first_suffix].
    assert (E : after_open (b1 ++ (a :: b2) ++ close_tag ++ rest)
                  (a :: b2 ++ close_tag ++ rest) [] = None).
    { unfold after_open.
      change (a :: b2 ++ close_tag ++ rest) with ((a :: b2) ++ close_tag ++ rest).
      rewrite (close_tag_not_here a b2 rest Hhere). reflexivity. }
    rewrite E.
    replace (b1 ++ (a :: b2) ++ close_tag ++ rest)
      with ((b1 ++ [a]) ++ b2 ++ close_tag ++ rest)
      by (rewrite <- app_assoc; reflexivity).
    rewrite IH by exact Hno.
    rewrite <- app_assoc. reflexivity.
Qed.

(** The search returns the first block: the text between the leftmost
    opening tag and the first closing tag after it. *)
Lemma search_first_block (pre body rest : text) :
  contains open_tag pre = false ->
  contains close_tag body = false ->
  search tag_flags tag_pattern (pre ++ open_tag ++ body ++ close_tag ++ rest)
  = Some [(1%nat, body)].
Proof.
  intros Hpre Hbody. induction pre as [|a pre IH].
  - cbn [app]. rewrite search_unfold, match_here_tag.
    rewrite starts_with_app, drop_app_length.
    pose proof (first_suffix_close [] body rest Hbody) as H.
    cbn [app] in H. rewrite H. reflexivity.
  - apply contains_cons_false in Hpre as [Hhere Hpre].
    rewrite search_unfold, match_here_tag.
    rewrite (open_tag_not_here a pre _ Hhere).
    cbn [app]. apply IH. exact Hpre.
Qed.

End TagSearch.

(** ** The matcher finds only matches *)

Section MatcherSoundness.
Import PyStr Regex.

(** Whatever [rmatch] answers is the answer of its continuation on the rest
    of a text that the pattern matches. *)
Lemma rmatch_sound (fl : flags) (r : regex) :
  forall s caps k res,
    rmatch fl r s caps k = Some res ->
    exists t s' caps',
      s = t ++ s' /\ matches fl r t caps caps' /\ k s' caps' = Some res.
Proof.
  induction r as [|c|p|r1 IH1 r2 IH2|r1 IH1 r2 IH2|r1 IH1|g r1 IH1|n r1 IH1];
    intros s caps k res H.
  - exists [], s, caps. repeat split; [constructor | exact H].
  - cbn [rmatch] in H. destruct s as [|x s]; [discriminate|].
    destruct (lit_match fl c x) eqn:E; [|discriminate].
    exists [x], s, caps. repeat split; [constructor; exact E | exact H].
  - cbn [rmatch] in H. destruct s as [|x s]; [discriminate|].
    destruct (cls_match fl p x) eqn:E; [|discriminate].
    exists [x], s, caps. repeat split; [constructor; exact E | exact H].
  - cbn [rmatch] in H.
    apply IH1 in H as (t1 & s1 & c1 & -> & M1 & H).
    apply IH2 in H as (t2 & s2 & c2 & -> & M2 & H).
    exists (t1 ++ t2), s2, c2. repeat split.
    + rewrite app_assoc. reflexivity.
    + econstructor; eassumption.
    + exact H.
  - cbn [rmatch] in H.
    destruct (rmatch fl r1 s caps k) as [res1|] eqn:E1.
    + injection H as <-. apply IH1 in E1 as (t & s' & c' & -> & M1 & Hk).
      exists t, s', c'. repeat split; [apply M_Alt_l; exact M1 | exact Hk].
    + apply IH2 in H as (t & s' & c' & -> & M2 & Hk).
      exists t, s', c'. repeat split; [apply M_Alt_r; exact M2 | exact Hk].
  - cbn [rmatch] in H.
    destruct (rmatch fl r1 s caps k) as [res1|] eqn:E1.
    + injection H as <-. apply IH1 in E1 as (t & s' & c' & -> & M1 & Hk).
      exists t, s', c'. repeat split; [apply M_Opt_some; exact M1 | exact Hk].
    + exists [], s, caps. repeat split; [apply M_Opt_none | exact H].
  - destruct g; cbn [rmatch] in H; revert H;
      generalize (length s) as fuel; intros fuel; revert s caps;
      induction fuel as [|fuel IHf]; intros s caps H.
    + exists [], s, caps. repeat split; [apply M_Star_nil | exact H].
    + match type of H with
      | match ?m with _ => _ end = _ => destruct m as [res1|] eqn:E1
      end.
      * injection H as <-.
        apply IH1 in E1 as (t1 & s1 & c1 & -> & M1 & Hk).
        destruct (length s1 <? length (t1 ++ s1))%nat; [|discriminate].
        apply IHf in Hk as (t2 & s2 & c2 & -> & M2 & Hk).
        exists (t1 ++ t2), s2, c2. repeat split.
        -- rewrite app_assoc. reflexivity.
        -- econstructor; eassumption.
        -- exact Hk.
      * exists [], s, caps. repeat split; [apply M_Star_nil | exact H].
    + destruct (k s caps) as [res1|] eqn:Ek; [|discriminate].
      injection H as <-.
      exists [], s, caps. repeat split; [apply M_Star_nil | exact Ek].
    + destruct (k s caps) as [res1|] eqn:Ek.
      * injection H as <-.
        exists [], s, caps. repeat split; [apply M_Star_nil | exact Ek].
      * apply IH1 in H as (t1 & s1 & c1 & -> & M1 & Hk).
        destruct (length s1 <? length (t1 ++ s1))%nat; [|discriminate].
        apply IHf in Hk as (t2 & s2 & c2 & -> & M2 & Hk).
        exists (t1 ++ t2), s2, c2. repeat split.
        -- rewrite app_assoc. reflexivity.
        -- econstructor; eassumption.
        -- exact Hk.
  - cbn [rmatch] in H.
    apply IH1 in H as (t & s' & c' & -> & M1 & Hk).
    rewrite consumed_app in Hk.
    exists t, s', ((n, t) :: c'). repeat split; [constructor; exact M1 | exact Hk].
Qed.

(** A successful search returns the captures of a match of some part of
    the text. *)
Lemma search_sound (fl : flags) (r : regex) (s : text) (caps : captures) :
  search fl r s = Some caps ->
  exists pre t post, s = pre ++ t ++ post /\ matches fl r t [] caps.
Proof.
  induction s as [|x s IH]; intros H.
  - cbn [search] in H. unfold match_here in H.
    destruct (rmatch fl r [] [] _) as [res|] eqn:E; [|discriminate].
    injection H as <-.
    apply rmatch_sound in E as (t & s' & c' & Hs & M1 & Hk). injection Hk as <-.
    exists [], t, s'. split; [exact Hs | exact M1].
  - cbn [search] in H. unfold match_here in H.
    destruct (rmatch fl r (x :: s) [] _) as [res|] eqn:E.
    + injection H as <-.
      apply rmatch_sound in E as (t & s' & c' & Hs & M1 & Hk). injection Hk as <-.
      exists [], t, s'. split; [exact Hs | exact M1].
    + apply IH in H as (pre & t & post & -> & M1).
      exists (x :: pre), t, post. split; [reflexivity | exact M1].
Qed.



Lemma matches_groups_sat (fl : flags) (Q : nat -> text -> Prop) r t c c' :
  matches fl r t c c' ->
  groups_sat fl Q r ->
  (forall n u, group n c = Some u -> Q n u) ->
  forall n u, group n c' = Some u -> Q n u.
Proof.
  induction 1; cbn [groups_sat]; intros Hs Hc; auto.
  - destruct Hs as [Ha Hb]. auto.
  - destruct Hs as [Ha Hb]. auto.
  - destruct Hs as [Ha Hb]. auto.
  - destruct Hs as [Ha HQ]. intros m u. cbn [group].
    destruct (Nat.eqb m n) eqn:E.
    + intros [= <-]. apply Nat.eqb_eq in E. subst m. eapply HQ. eassumption.
    + apply IHmatches; assumption.
Qed.



End MatcherSoundness.

(** ** The action extractor *)

Section ExtractorFacts.
Import PyStr Regex Extractor.


Lemma buy_loop_cases line indices :
  buy_loop line indices = [] \/
  exists symbol quantity,
    buy_loop line indices = [buy_action symbol quantity] /\
    symbol <> [] /\ 0 < quantity.
Proof.
  induction indices as [|idx rest IH]; simpl; [left; reflexivity|].
  destruct (search line_flags (pattern_at idx) line) as [caps|]; [|exact IH].
  destruct (parse_buy idx caps) as [[symbol quantity]|]; [|exact IH].
  destruct (nonempty symbol) eqn:Hs; simpl; [|left; reflexivity].
  destruct (0 <? quantity) eqn:Hq; [|left; reflexivity].
  right. exists symbol, quantity. split; [reflexivity|]. split.
  - intros ->. discriminate.
  - apply Z.ltb_lt. exact Hq.
Qed.

Lemma price_loop_cases line indices :
  price_loop line indices = [] \/
  exists symbol, price_loop line indices = [price_action symbol] /\ symbol <> [].
Proof.
  induction indices as [|idx rest IH]; simpl; [left; reflexivity|].
  destruct (search line_flags (pattern_at idx) line) as [caps|]; [|exact IH].
  destruct (group 1 caps) as [g|]; [|exact IH].
  destruct (nonempty (clean_symbol g)) eqn:Hs; [|left; reflexivity].
  right. exists (clean_symbol g). split; [reflexivity|].
  intros E. rewrite E in Hs. discriminate.
Qed.

Lemma account_check_cases line :
  account_check line = [] \/ account_check line = [account_action].
Proof.
  unfold account_check. destruct (search _ _ _); [right|left]; reflexivity.
Qed.









End ExtractorFacts.

Section ParseFacts.
Import PyStr Regex Extractor.









End ParseFacts.

Section ExtractorClaims.
Import PyStr Regex Extractor.

Lemma extract_first_block (pre body rest : text) :
  contains open_tag pre = false ->
  contains close_tag body = false ->
  extract_action_from_response (pre ++ open_tag ++ body ++ close_tag ++ rest)
  = section_actions (strip body).
Proof.
  intros Hpre Hbody. unfold extract_action_from_response.
  rewrite (search_first_block pre body rest Hpre Hbody). reflexivity.
Qed.

(** C9. When the text holds several [<actions_taken>] blocks, only the
    first (leftmost) one is parsed: the answer is the list of actions of
    the lines of that block, and it is the answer the extractor gives when
    everything after the block's closing tag is cut off, so no line of a
    later block contributes. *)
Theorem extract_only_first_block (pre body rest : text) :
  contains open_tag pre = false ->
  contains close_tag body = false ->
  extract_action_from_response (pre ++ open_tag ++ body ++ close_tag ++ rest)
  = section_actions (strip body)
  /\ extract_action_from_response (pre ++ open_tag ++ body ++ close_tag ++ rest)
     = extract_action_from_response (open_tag ++ body ++ close_tag).
Proof.
  intros Hpre Hbody. split.
  - apply extract_first_block; assumption.
  - rewrite (extract_first_block pre body rest Hpre Hbody).
    pose proof (extract_first_block [] body [] eq_refl Hbody) as H.
    cbn [app] in H. rewrite app_nil_r in H. symmetry. exact H.
Qed.

Lemma extract_only_first_block_witness :
  extract_action_from_response
    (#"Done. " ++ open_tag ++ #"get_account_info()" ++ close_tag
     ++ #" Also: <actions_taken>buy_stock(AAPL, 5)</actions_taken>")
  = section_actions (strip #"get_account_info()")
  /\ extract_action_from_response
       (#"Done. " ++ open_tag ++ #"get_account_info()" ++ close_tag
        ++ #" Also: <actions_taken>buy_stock(AAPL, 5)</actions_taken>")
     = extract_action_from_response (open_tag ++ #"get_account_info()" ++ close_tag).
Proof.
  apply (extract_only_first_block #"Done. " #"get_account_info()"
           #" Also: <actions_taken>buy_stock(AAPL, 5)</actions_taken>");
    reflexivity.
Defined.

(** C1, as stated, fails: a text that contains the block after an earlier
    actions section yields the actions of the earlier section, not the
    AAPL purchase. *)
Lemma extract_aapl_block_counterexample :
  contains aapl_block
    (open_tag ++ #"get_account_info()" ++ close_tag ++ #" then " ++ aapl_block) = true
  /\ extract_action_from_response
       (open_tag ++ #"get_account_info()" ++ close_tag ++ #" then " ++ aapl_block)
     = [account_action].
Proof. split; vm_compute; reflexivity. Qed.

(** C1, amended. When no opening tag precedes the block, that is, when the
    block is the first actions section of the text, the extractor returns
    exactly the one purchase of 10 shares of AAPL, whatever surrounds the
    block. *)
Theorem extract_aapl_block (pre post : text) :
  contains open_tag pre = false ->
  extract_action_from_response (pre ++ aapl_block ++ post)
  = [Action "buy_stock" [("symbol", VStr #"AAPL"); ("quantity", VInt 10)]].
Proof.
  intros Hpre. unfold aapl_block.
  rewrite <- !app_assoc.
  rewrite (extract_first_block pre aapl_call post Hpre) by (vm_compute; reflexivity).
  vm_compute. reflexivity.
Qed.

Lemma extract_aapl_block_witness :
  extract_action_from_response
    (#"I will place the order. " ++ aapl_block ++ #" Anything else?")
  = [Action "buy_stock" [("symbol", VStr #"AAPL"); ("quantity", VInt 10)]].
Proof.
  apply (extract_aapl_block #"I will place the order. " #" Anything else?").
  reflexivity.
Defined.






Lemma line_buy_positive (raw_line : text) (a : action) :
  In a (line_actions raw_line) ->
  act_name a = "buy_stock" ->
  exists symbol quantity, a = buy_action symbol quantity /\ 0 < quantity.
Proof.
  intros Hin Hname. unfold line_actions in Hin.
  destruct (nonempty (strip raw_line)); [|destruct Hin].
  apply in_app_or in Hin as [Hin|Hin]; [|apply in_app_or in Hin as [Hin|Hin]].
  - destruct (buy_loop_cases (strip raw_line) buy_indices) as [E|(s & q & E & _ & Hq)];
      rewrite E in Hin; [destruct Hin|].
    destruct Hin as [<-|[]]. exists s, q. split; [reflexivity|exact Hq].
  - destruct (price_loop_cases (strip raw_line) price_indices) as [E|(s & E & _)];
      rewrite E in Hin; [destruct Hin|].
    destruct Hin as [<-|[]]. discriminate Hname.
  - destruct (account_check_cases (strip raw_line)) as [E|E];
      rewrite E in Hin; [destruct Hin|].
    destruct Hin as [<-|[]]. discriminate Hname.
Qed.






(** Zero and negative quantities in each of the five buy syntaxes: the
    line yields nothing. *)
Example zero_and_negative_quantities :
  map line_actions
    [ #"buy_stock(AAPL, 0)"; #"buy_stock(AAPL, -5)";
      #"buy_stock(AAPL, quantity=0)"; #"buy_stock(AAPL, quantity=-5)";
      #"buy_stock(symbol=AAPL, quantity=0)"; #"buy_stock(symbol=AAPL, quantity=-5)";
      #"buy 0 shares of AAPL"; #"buy -5 shares of AAPL";
      #"buy AAPL 0 shares"; #"buy AAPL -5 shares" ]
  = [ []; []; []; []; []; []; []; []; []; [] ].
Proof. vm_compute. reflexivity. Qed.

(** Every purchase the extractor returns has a positive quantity. *)
Lemma extracted_buy_positive (response : text) (a : action) :
  In a (extract_action_from_response response) ->
  act_name a = "buy_stock" ->
  exists symbol quantity, a = buy_action symbol quantity /\ 0 < quantity.
Proof.
  unfold extract_action_from_response.
  destruct (search tag_flags tag_pattern response) as [caps|]; [|intros []].
  destruct (group 1 caps) as [body|]; [|intros []].
  unfold section_actions. intros Hin Hname.
  apply in_concat in Hin as (acts & Hacts & Hin).
  apply in_map_iff in Hacts as (raw_line & <- & _).
  exact (line_buy_positive raw_line a Hin Hname).
Qed.

End ExtractorClaims.

(** ** The brokerage client without credentials *)

Section ClientFacts.
Import PyStr Client.

Lemma run_unconfigured (N : network) (c : client) (op : operation) (st : cstate N) :
  is_configured (account_manager c) = false ->
  run N c op st
  = (Returns (sentinel N op),
     CState (net st) (sent st) (console st ++ [not_configured_line])).
Proof.
  intros H.
  destruct op; unfold run, get_account, get_positions, get_position, get_orders,
    get_order, submit_order, cancel_order, cancel_all_orders;
    rewrite H; reflexivity.
Qed.

(** C4, as stated, fails: without credentials [get_account] returns the
    bare [None], which is no structured error result, whatever documents
    count as error documents. *)
Lemma unconfigured_returns_none_counterexample :
  is_configured no_credentials = false
  /\ fst (get_account offline (new_client no_credentials) fresh) = Returns RNone
  /\ is_structured_error offline (fun _ => true)
       (fst (get_account offline (new_client no_credentials) fresh)) = false.
Proof. repeat split. Qed.

(** C4, amended. Every operation of the gateway that is invoked while the
    credentials are not configured sends no request and leaves the network
    untouched, lets no exception escape, prints the line saying that the
    account is not configured, and returns the bare sentinel: [None], or
    [False] for the two cancel operations. *)
Theorem unconfigured_gateway (N : network) (c : client) (op : operation) (st : cstate N) :
  is_configured (account_manager c) = false ->
  fst (run N c op st) = Returns (sentinel N op)
  /\ sent (snd (run N c op st)) = sent st
  /\ net (snd (run N c op st)) = net st
  /\ console (snd (run N c op st)) = console st ++ [not_configured_line].
Proof.
  intros H. rewrite (run_unconfigured N c op st H). repeat split.
Qed.

Lemma unconfigured_gateway_witness :
  fst (run offline (new_client no_credentials) (OpSubmitOrder ∅) fresh) = Returns RNone
  /\ sent (snd (run offline (new_client no_credentials) (OpSubmitOrder ∅) fresh)) = []
  /\ net (snd (run offline (new_client no_credentials) (OpSubmitOrder ∅) fresh)) = tt
  /\ console (snd (run offline (new_client no_credentials) (OpSubmitOrder ∅) fresh))
     = [not_configured_line].
Proof.
  apply (unconfigured_gateway offline (new_client no_credentials) (OpSubmitOrder ∅) fresh).
  reflexivity.
Defined.

End ClientFacts.

(** ** Order requests carry exactly one size *)

Section OrderFacts.
Import PyStr Client Orders.

Lemma exactly_one_insert (k : string) (v : value) (o : gmap string value) :
  k <> "qty" -> k <> "notional" ->
  exactly_one_size o -> exactly_one_size (<[k := v]> o).
Proof.
  intros Hq Hn. unfold exactly_one_size.
  rewrite !lookup_insert_ne by done. tauto.
Qed.

Lemma exactly_one_extended (e : bool) (o : gmap string value) :
  exactly_one_size o -> exactly_one_size (with_extended_hours e o).
Proof.
  intros H. destruct e; simpl; [|exact H].
  apply exactly_one_insert; done.
Qed.

Lemma sizes_ok_refl {N : network} (st : cstate N) : sizes_ok st st.
Proof. exists []. split; [symmetry; apply app_nil_r | constructor]. Qed.

Lemma sizes_ok_print {N : network} (line : text) (st : cstate N) :
  sizes_ok st (snd (print line st)).
Proof. exists []. split; [simpl; symmetry; apply app_nil_r | constructor]. Qed.

Lemma sizes_ok_trans {N : network} (a b c : cstate N) :
  sizes_ok a b -> sizes_ok b c -> sizes_ok a c.
Proof.
  intros (l1 & E1 & F1) (l2 & E2 & F2). exists (l1 ++ l2). split.
  - rewrite E2, E1, app_assoc. reflexivity.
  - apply Forall_app. split; assumption.
Qed.

Lemma sent_print {N : network} (line : text) (st : cstate N) :
  sent (snd (print line st)) = sent st.
Proof. reflexivity. Qed.

(** [submit_order] sends at most one request, and its body is the order it
    was given. *)
Lemma submit_order_sent (N : network) (c : client) (o : gmap string value) (st : cstate N) :
  exists added,
    sent (snd (submit_order N c o st)) = sent st ++ added /\
    Forall (fun r => body r = Some o) added.
Proof.
  unfold submit_order.
  destruct (negb (is_configured (account_manager c))).
  { exists []. split; [simpl; symmetry; apply app_nil_r | constructor]. }
  destruct (orders_url c) as [e|u].
  { exists []. split; [simpl; symmetry; apply app_nil_r | constructor]. }
  exists [mk_request c POST u [] (Some o)].
  split; [|repeat constructor].
  unfold cbind, request.
  destruct (send N (net st) (mk_request c POST u [] (Some o))) as [[e|resp] w];
    [reflexivity|].
  destruct ((status_code resp =? 200) || (status_code resp =? 201)); [|reflexivity].
  destruct (response_json resp) as [e|j]; [reflexivity|].
  destruct (json_id N j); reflexivity.
Qed.

Lemma submit_order_sizes (N : network) (c : client) (o : gmap string value) (st : cstate N) :
  exactly_one_size o -> sizes_ok st (snd (submit_order N c o st)).
Proof.
  intros Ho. destruct (submit_order_sent N c o st) as (added & E & F).
  exists added. split; [exact E|].
  eapply Forall_impl; [exact F|].
  intros r Hr b Hb. rewrite Hr in Hb. injection Hb as <-. exact Ho.
Qed.

Section Manager.

Variable N : network.
Variable str_num : Q -> text.

Lemma validate_sent symbol qty notional (st : cstate N) :
  sent (snd (validate_order_parameters N symbol qty notional st)) = sent st.
Proof.
  unfold validate_order_parameters.
  destruct symbol; [reflexivity|].
  destruct qty as [q|], notional as [n|]; try reflexivity.
  - destruct (nonpositive q); reflexivity.
  - destruct (nonpositive n); reflexivity.
Qed.

(** The validation accepts only when exactly one of the two sizes is
    given. *)
Lemma validate_true symbol qty notional (st : cstate N) :
  fst (validate_order_parameters N symbol qty notional st) = true ->
  (is_Some qty /\ notional = None) \/ (qty = None /\ is_Some notional).
Proof.
  unfold validate_order_parameters.
  destruct symbol; [discriminate|].
  destruct qty as [q|], notional as [n|]; try discriminate.
  - intros _. left. eauto.
  - intros _. right. eauto.
Qed.

Lemma prepare_sent symbol side qty notional tif (st : cstate N) :
  sent (snd (_prepare_order_base N str_num symbol side qty notional tif st)) = sent st.
Proof.
  unfold _prepare_order_base, cbind.
  pose proof (validate_sent symbol qty notional st) as H.
  destruct (validate_order_parameters N symbol qty notional st) as [valid st1].
  simpl in H. destruct valid; simpl; [|exact H].
  destruct qty; [exact H|]. destruct notional; exact H.
Qed.

Lemma prepare_exactly_one symbol side qty notional tif (st : cstate N) order :
  fst (_prepare_order_base N str_num symbol side qty notional tif st) = Some order ->
  exactly_one_size order.
Proof.
  unfold _prepare_order_base, cbind.
  pose proof (validate_true symbol qty notional st) as H.
  destruct (validate_order_parameters N symbol qty notional st) as [valid st1].
  simpl in H. destruct valid; simpl; [|discriminate].
  destruct (H eq_refl) as [[[q ->] ->]|[-> [n ->]]]; simpl; intros [= <-];
    unfold exactly_one_size.
  - left. rewrite lookup_insert_eq. rewrite !lookup_insert_ne by done.
    split; [eauto | apply lookup_empty].
  - right. rewrite lookup_insert_eq. rewrite !lookup_insert_ne by done.
    split; [apply lookup_empty | eauto].
Qed.

Lemma prepare_sizes symbol side qty notional tif (st : cstate N) :
  sizes_ok st (snd (_prepare_order_base N str_num symbol side qty notional tif st)).
Proof.
  exists []. rewrite prepare_sent, app_nil_r. split; [reflexivity|constructor].
Qed.

Lemma market_order_sizes c symbol side qty notional tif ext (st : cstate N) :
  sizes_ok st (snd (market_order N str_num c symbol side qty notional tif ext st)).
Proof.
  unfold market_order, cbind.
  pose proof (prepare_sizes symbol side qty notional tif st) as Hs.
  pose proof (prepare_exactly_one symbol side qty notional tif st) as Ho.
  destruct (_prepare_order_base N str_num symbol side qty notional tif st) as [[order|] st1];
    simpl in *; [|exact Hs].
  eapply sizes_ok_trans; [exact Hs|].
  apply submit_order_sizes, exactly_one_extended, exactly_one_insert; try done.
  apply Ho. reflexivity.
Qed.

Lemma limit_order_sizes c symbol side limit qty notional tif ext (st : cstate N) :
  sizes_ok st (snd (limit_order N str_num c symbol side limit qty notional tif ext st)).
Proof.
  unfold limit_order, cbind.
  pose proof (prepare_sizes symbol side qty notional tif st) as Hs.
  pose proof (prepare_exactly_one symbol side qty notional tif st) as Ho.
  destruct (_prepare_order_base N str_num symbol side qty notional tif st) as [[order|] st1];
    simpl in *; [|exact Hs].
  destruct (bad_price limit); [exact Hs|].
  eapply sizes_ok_trans; [exact Hs|].
  apply submit_order_sizes, exactly_one_extended.
  repeat (apply exactly_one_insert; try done).
  apply Ho. reflexivity.
Qed.

Lemma stop_order_sizes c symbol side stop qty notional tif (st : cstate N) :
  sizes_ok st (snd (stop_order N str_num c symbol side stop qty notional tif st)).
Proof.
  unfold stop_order, cbind.
  pose proof (prepare_sizes symbol side qty notional tif st) as Hs.
  pose proof (prepare_exactly_one symbol side qty notional tif st) as Ho.
  destruct (_prepare_order_base N str_num symbol side qty notional tif st) as [[order|] st1];
    simpl in *; [|exact Hs].
  destruct (bad_price stop); [exact Hs|].
  eapply sizes_ok_trans; [exact Hs|].
  apply submit_order_sizes.
  repeat (apply exactly_one_insert; try done).
  apply Ho. reflexivity.
Qed.

Lemma stop_limit_order_sizes c symbol side stop limit qty notional tif (st : cstate N) :
  sizes_ok st (snd (stop_limit_order N str_num c symbol side stop limit qty notional tif st)).
Proof.
  unfold stop_limit_order, cbind.
  pose proof (prepare_sizes symbol side qty notional tif st) as Hs.
  pose proof (prepare_exactly_one symbol side qty notional tif st) as Ho.
  destruct (_prepare_order_base N str_num symbol side qty notional tif st) as [[order|] st1];
    simpl in *; [|exact Hs].
  destruct (bad_price stop); [exact Hs|].
  destruct (bad_price limit); [exact Hs|].
  eapply sizes_ok_trans; [exact Hs|].
  apply submit_order_sizes.
  repeat (apply exactly_one_insert; try done).
  apply Ho. reflexivity.
Qed.

End Manager.

End OrderFacts.

Section OrderClaims.
Import PyStr Client Orders.

(** [buy_stock] makes at most one SDK call, a [submit_order] whose request
    has the quantity set and no notional amount. *)
Lemma buy_stock_calls (P : Broker.platform) (symbol : text) (quantity : Z)
    (st : Broker.bstate P) :
  exists added,
    Broker.calls (snd (Broker.buy_stock P symbol quantity st)) = Broker.calls st ++ added /\
    Forall (fun c => exists r, c = Broker.SubmitOrder r /\
                               Broker.mo_qty r = Some quantity /\
                               Broker.mo_notional r = None) added.
Proof.
  unfold Broker.buy_stock.
  destruct symbol as [|x symbol].
  { exists []. split; [simpl; symmetry; apply app_nil_r | constructor]. }
  destruct (quantity <=? 0).
  { exists []. split; [simpl; symmetry; apply app_nil_r | constructor]. }
  eexists [_]. split.
  - unfold Broker.bbind, Broker.call_submit.
    destruct (Broker.submit P _ _) as [[e|o] w]; [reflexivity|].
    destruct (Broker.order_summary P o) as [e|summary]; reflexivity.
  - constructor; [|constructor]. eexists. split; [reflexivity|]. split; reflexivity.
Qed.

(** C3. The dictionary [_prepare_order_base] produces holds exactly one of
    the keys [qty] and [notional]; so does the body of every request that
    [market_order], [limit_order], [stop_order] and [stop_limit_order]
    send; and every order request [AIBroker.buy_stock] submits has its
    quantity set and its notional amount unset. *)
Theorem order_requests_one_size
    (N : network) (str_num : Q -> text) (P : Broker.platform)
    (c : client) (symbol : text) (side : OrderSide) (qty notional : option Q)
    (tif : TimeInForce) (extended_hours : bool) (limit_price stop_price : option Q)
    (st : cstate N) (quantity : Z) (bst : Broker.bstate P) :
  (forall order,
     fst (_prepare_order_base N str_num symbol side qty notional tif st) = Some order ->
     exactly_one_size order)
  /\ sizes_ok st
       (snd (market_order N str_num c symbol side qty notional tif extended_hours st))
  /\ sizes_ok st
       (snd (limit_order N str_num c symbol side limit_price qty notional tif
               extended_hours st))
  /\ sizes_ok st
       (snd (stop_order N str_num c symbol side stop_price qty notional tif st))
  /\ sizes_ok st
       (snd (stop_limit_order N str_num c symbol side stop_price limit_price qty notional
               tif st))
  /\ (exists added,
        Broker.calls (snd (Broker.buy_stock P symbol quantity bst))
        = Broker.calls bst ++ added /\
        Forall (fun call => forall r, call = Broker.SubmitOrder r -> request_one_size r)
          added).
Proof.
  split; [intros order; apply prepare_exactly_one|].
  split; [apply market_order_sizes|].
  split; [apply limit_order_sizes|].
  split; [apply stop_order_sizes|].
  split; [apply stop_limit_order_sizes|].
  destruct (buy_stock_calls P symbol quantity bst) as (added & E & F).
  exists added. split; [exact E|].
  eapply Forall_impl; [exact F|].
  intros call (r & -> & Hq & Hn) r' [= <-].
  left. rewrite Hq, Hn. eauto.
Qed.

End OrderClaims.

(** ** The keys of the dispatcher's results *)

Section KeyFacts.
Import PyStr Broker.

Lemma pretty_N_char_digit (x : N) : is_digit (pretty_N_char x) = true.
Proof. unfold pretty_N_char. repeat case_match; reflexivity. Qed.

Lemma pretty_N_go_digits (x : N) (s : string) :
  Forall (fun c => is_digit c = true) #s ->
  Forall (fun c => is_digit c = true) #(pretty_N_go x s).
Proof.
  revert s. induction (N.lt_wf_0 x) as [x _ IH]; intros s Hs.
  destruct (decide (x = 0)%N) as [->|Hx].
  - rewrite pretty_N_go_0. exact Hs.
  - rewrite pretty_N_go_step by lia.
    apply IH; [apply N.div_lt; lia|].
    simpl. constructor; [apply pretty_N_char_digit | exact Hs].
Qed.

(** The decimal form of an index is a run of digits. *)
Lemma pretty_nat_digits (i : nat) : Forall (fun c => is_digit c = true) #(pretty i).
Proof.
  unfold pretty, pretty_nat, pretty, pretty_N.
  destruct (decide (N.of_nat i = 0)%N).
  - repeat constructor.
  - apply pretty_N_go_digits. constructor.
Qed.

Lemma list_ascii_of_string_inj (s t : string) : #s = #t -> s = t.
Proof.
  intros H. rewrite <- (string_of_list_ascii_of_string s),
    <- (string_of_list_ascii_of_string t), H. reflexivity.
Qed.

Lemma pretty_nat_text_inj (i j : nat) : #(pretty i) = #(pretty j) -> i = j.
Proof. intros H. apply list_ascii_of_string_inj in H. exact (inj pretty _ _ H). Qed.

Lemma digits_no_underscore (d : text) :
  Forall (fun c => is_digit c = true) d -> ~ In "_"%char d.
Proof.
  intros H Hin. rewrite Forall_forall in H.
  specialize (H "_"%char). rewrite <- list_elem_of_In in Hin.
  specialize (H Hin). discriminate H.
Qed.

(** A text is cut in one way only at its last occurrence of a
    character. *)
Lemma split_at_last (x : ascii) (l1 r1 l2 r2 : text) :
  l1 ++ x :: r1 = l2 ++ x :: r2 ->
  ~ In x r1 -> ~ In x r2 ->
  l1 = l2 /\ r1 = r2.
Proof.
  revert l2. induction l1 as [|a l1 IH]; intros l2 E H1 H2.
  - destruct l2 as [|b l2]; simpl in E.
    + injection E as E. split; [reflexivity|exact E].
    + injection E as _ E. exfalso. apply H1. rewrite E.
      apply in_or_app. right. left. reflexivity.
  - destruct l2 as [|b l2]; simpl in E.
    + injection E as _ E. exfalso. apply H2. rewrite <- E.
      apply in_or_app. right. left. reflexivity.
    + injection E as -> E. destruct (IH l2 E H1 H2) as [-> ->]. split; reflexivity.
Qed.

Lemma error_no_underscore : ~ In "_"%char #"error".
Proof. simpl. intros H. repeat (destruct H as [H|H]; [discriminate H|]). exact H. Qed.

Lemma key_shape_index (i j : nat) (k : text) :
  key_shape i k -> key_shape j k -> i = j.
Proof.
  pose proof (digits_no_underscore _ (pretty_nat_digits i)) as Di.
  pose proof (digits_no_underscore _ (pretty_nat_digits j)) as Dj.
  pose proof error_no_underscore as De.
  intros [n1 [E1|E1]] [n2 [E2|E2]]; subst k.
  - apply split_at_last in E2 as [_ E]; [|assumption..].
    apply pretty_nat_text_inj. exact E.
  - apply split_at_last in E2 as [_ E]; [|assumption..].
    exfalso. pose proof (pretty_nat_digits i) as F. rewrite E in F.
    inversion F as [|? ? Hd _]. discriminate Hd.
  - apply split_at_last in E2 as [_ E]; [|assumption..].
    exfalso. pose proof (pretty_nat_digits j) as F. rewrite <- E in F.
    inversion F as [|? ? Hd _]. discriminate Hd.
  - apply split_at_last in E2 as [E _]; [|assumption..].
    apply split_at_last in E as [_ E]; [|assumption..].
    apply pretty_nat_text_inj. exact E.
Qed.

Lemma action_key_shape (name : string) (i : nat) : key_shape i (action_key name i).
Proof. exists (list_ascii_of_string name). left. reflexivity. Qed.

Lemma unknown_key_shape (i : nat) : key_shape i (unknown_key i).
Proof. exists (list_ascii_of_string "unknown_action"). left. reflexivity. Qed.

Lemma error_key_shape (name : string) (i : nat) : key_shape i (error_key name i).
Proof.
  exists (list_ascii_of_string name). right. unfold error_key.
  rewrite <- !app_assoc. reflexivity.
Qed.

End KeyFacts.

(** ** The action dispatcher *)

Section DispatcherFacts.
Import PyStr Broker.

Variable P : platform.

(** When the body of the [try] completes, the key it assigned is the
    action's name and index, or [unknown_action] and the index. *)
Lemma try_action_key (i : nat) (a : action) (st : bstate P) k r :
  fst (try_action P i a st) = inr (k, r) ->
  k = action_key (act_name a) i \/ k = unknown_key i.
Proof.
  unfold try_action, bbind, bret.
  repeat case_match; simpl; intros [= <- _]; auto.
Qed.

Lemma run_action_key_shape (i : nat) (a : action) (st : bstate P) :
  key_shape i (fst (fst (run_action P i a st))).
Proof.
  unfold run_action, bbind.
  pose proof (try_action_key i a st) as H.
  destruct (try_action P i a st) as [[e|[k r]] st1]; simpl in *.
  - apply error_key_shape.
  - destruct (H k r eq_refl) as [-> | ->];
      [apply action_key_shape | apply unknown_key_shape].
Qed.



(** The state after the loop does not depend on the dictionary. *)
Lemma execute_from_state (actions : list action) (i : nat) (r1 r2 : gmap text dict)
    (st : bstate P) :
  snd (execute_from P i actions r1 st) = snd (execute_from P i actions r2 st).
Proof.
  revert i r1 r2 st. induction actions as [|a rest IH]; intros i r1 r2 st.
  - reflexivity.
  - cbn [execute_from]. unfold bbind.
    destruct (run_action P i a st) as [[k r] st1]. apply IH.
Qed.



End DispatcherFacts.

Section DispatcherCalls.
Import PyStr Broker.

Variable P : platform.














End DispatcherCalls.

Section DispatcherClaims.
Import PyStr Broker.

(** Everything the extractor returns is an extracted action. *)
Lemma extractor_output_extracted (response : text) (a : action) :
  In a (Extractor.extract_action_from_response response) -> extracted a.
Proof.
  unfold Extractor.extract_action_from_response.
  destruct (Regex.search _ _ response) as [caps|]; [|intros []].
  destruct (Regex.group 1 caps) as [body|]; [|intros []].
  unfold Extractor.section_actions. intros Hin.
  apply in_concat in Hin as (acts & Hacts & Hin).
  apply in_map_iff in Hacts as (raw_line & <- & _).
  unfold Extractor.line_actions in Hin.
  destruct (Extractor.nonempty (strip raw_line)); [|destruct Hin].
  apply in_app_or in Hin as [Hin|Hin]; [|apply in_app_or in Hin as [Hin|Hin]].
  - destruct (buy_loop_cases (strip raw_line) Extractor.buy_indices)
      as [E|(s & q & E & _)]; rewrite E in Hin; [destruct Hin|].
    destruct Hin as [<-|[]]. left. eauto.
  - destruct (price_loop_cases (strip raw_line) Extractor.price_indices)
      as [E|(s & E & _)]; rewrite E in Hin; [destruct Hin|].
    destruct Hin as [<-|[]]. right. left. eauto.
  - destruct (account_check_cases (strip raw_line)) as [E|E];
      rewrite E in Hin; [destruct Hin|].
    destruct Hin as [<-|[]]. right. right. reflexivity.
Qed.


End DispatcherClaims.

Section DispatcherTheorem.
Import PyStr Broker.



End DispatcherTheorem.

(** ** The timeframes tried for market data *)

Section MarketDataFacts.
Import PyStr Broker.

Lemma quote_loop_step (P : platform) symbol start tf rest (st : bstate P) :
  quote_loop P symbol start (tf :: rest) st
  = let (reply, w) := stock_bars P (sdk_state st) (bar_request symbol tf start) in
    let st1 := BState w (calls st ++ [GetStockBars (bar_request symbol tf start)]) in
    match reply_entry P symbol reply with
    | Some entry => (Some entry, st1)
    | None => quote_loop P symbol start rest st1
    end.
Proof.
  cbn [quote_loop]. unfold bbind, call_stock_bars, bar_request.
  destruct (stock_bars P (sdk_state st) _) as [[e|bars] w]; [reflexivity|].
  unfold reply_entry.
  destruct (latest_bar symbol bars) as [b|]; [|reflexivity].
  destruct (bar_quote P b); reflexivity.
Qed.

(** C5, as stated, fails: the first timeframe queried is the daily one,
    and when it has data no other is queried; when nothing has data the
    order of the queries is daily, hourly, minute. *)
Lemma timeframe_order_counterexample :
  calls (snd (get_market_data (demo true) [ #"AAPL" ] (demo_start true)))
  = [GetStockBars (bar_request #"AAPL" Day (1700000000000000 - thirty_days)); GetAccount]
  /\ calls (snd (get_market_data (demo false) [ #"AAPL" ] (demo_start false)))
     = [GetStockBars (bar_request #"AAPL" Day (1700000000000000 - thirty_days));
        GetStockBars (bar_request #"AAPL" Hour (1700000000000000 - thirty_days));
        GetStockBars (bar_request #"AAPL" Minute (1700000000000000 - thirty_days));
        GetAccount].
Proof. split; vm_compute; reflexivity. Qed.

(** C5, amended. For every requested symbol the normalizer queries one bar
    over a window that starts 30 days before the time read at the start of
    the symbol's turn, trying the timeframes in the order daily, hourly,
    minute, that is, from the coarsest to the finest, and it stops at the
    first reply that yields an entry: a reply that arrived without an
    exception, with a non-empty list of bars for the symbol whose latest bar
    can be read. That entry is stored for the symbol; when none of the
    three replies yields one, the symbol gets the no-data entry unless it
    already has an entry. *)
Theorem market_data_timeframes (P : platform) (symbol : text)
    (market_data : gmap text dict) (st : bstate P) :
  let start := clock P (sdk_state st) - thirty_days in
  let query tf := GetStockBars (bar_request symbol tf start) in
  let (r1, w1) := stock_bars P (sdk_state st) (bar_request symbol Day start) in
  match reply_entry P symbol r1 with
  | Some entry =>
      symbol_data P symbol market_data st
      = (<[symbol := entry]> market_data, BState w1 (calls st ++ [query Day]))
  | None =>
      let (r2, w2) := stock_bars P w1 (bar_request symbol Hour start) in
      match reply_entry P symbol r2 with
      | Some entry =>
          symbol_data P symbol market_data st
          = (<[symbol := entry]> market_data,
             BState w2 ((calls st ++ [query Day]) ++ [query Hour]))
      | None =>
          let (r3, w3) := stock_bars P w2 (bar_request symbol Minute start) in
          symbol_data P symbol market_data st
          = (match reply_entry P symbol r3 with
             | Some entry => <[symbol := entry]> market_data
             | None =>
                 match market_data !! symbol with
                 | None => <[symbol := no_data_entry]> market_data
                 | Some _ => market_data
                 end
             end,
             BState w3 (((calls st ++ [query Day]) ++ [query Hour]) ++ [query Minute]))
      end
  end.
Proof.
  intros start query.
  unfold symbol_data, bbind, now, timeframes. fold start.
  rewrite quote_loop_step. cbn [sdk_state calls].
  destruct (stock_bars P (sdk_state st) (bar_request symbol Day start)) as [r1 w1].
  destruct (reply_entry P symbol r1) as [entry|]; [reflexivity|].
  rewrite quote_loop_step. cbn [sdk_state calls].
  destruct (stock_bars P w1 (bar_request symbol Hour start)) as [r2 w2].
  destruct (reply_entry P symbol r2) as [entry|]; [reflexivity|].
  rewrite quote_loop_step. cbn [sdk_state calls].
  destruct (stock_bars P w2 (bar_request symbol Minute start)) as [r3 w3].
  destruct (reply_entry P symbol r3) as [entry|]; [reflexivity|].
  cbn [quote_loop]. unfold bret.
  destruct (market_data !! symbol); reflexivity.
Qed.

(** [get_market_data] runs the turn of each symbol in order and then asks
    for the account. *)
Lemma get_market_data_unfold (P : platform) (symbol : text) (rest : list text)
    (market_data : gmap text dict) (st : bstate P) :
  symbols_data P (symbol :: rest) market_data st
  = let (market_data', st') := symbol_data P symbol market_data st in
    symbols_data P rest market_data' st'.
Proof. reflexivity. Qed.

(** [get_stock_price] tries the same three timeframes in the same order
    over the same window, and then the daily bars of a window of 90
    days. *)
Example stock_price_queries :
  calls (snd (get_stock_price (demo false) #"aapl" (demo_start false)))
  = [GetStockBars (bar_request #"AAPL" Day (1700000000000000 - thirty_days));
     GetStockBars (bar_request #"AAPL" Hour (1700000000000000 - thirty_days));
     GetStockBars (bar_request #"AAPL" Minute (1700000000000000 - thirty_days));
     GetStockBars {| bars_symbol := #"AAPL"; bars_timeframe := Day;
                     bars_start := 1700000000000000 - ninety_days; bars_limit := 5 |}]
  /\ calls (snd (get_stock_price (demo true) #"aapl" (demo_start true)))
     = [GetStockBars (bar_request #"AAPL" Day (1700000000000000 - thirty_days))].
Proof. split; vm_compute; reflexivity. Qed.

End MarketDataFacts.

(** ** The credential store *)

Section ByteFacts.
Import Config.

Lemma val_bound (b : Byte.byte) : (val b < 256)%N.
Proof. pose proof (Byte.to_N_bounded b). unfold val. lia. Qed.

Lemma byte_of_val (b : Byte.byte) : byte_of (val b) = b.
Proof. unfold byte_of, val. rewrite Byte.of_to_N. reflexivity. Qed.

Lemma val_byte_of (n : N) : (n < 256)%N -> val (byte_of n) = n.
Proof.
  intros H. unfold byte_of, val.
  destruct (Byte.of_N n) as [b|] eqn:E.
  - apply Byte.to_of_N. exact E.
  - apply Byte.of_N_None_iff in E. lia.
Qed.

Lemma val_inj (a b : Byte.byte) : val a = val b -> a = b.
Proof. intros H. rewrite <- (byte_of_val a), <- (byte_of_val b), H. reflexivity. Qed.

End ByteFacts.

Section Utf8Facts.
Import Config.

Lemma split64 (n : N) :
  exists d m, (n / 64 = d /\ n mod 64 = m /\ n = 64 * d + m /\ m < 64)%N.
Proof.
  exists (n / 64)%N, (n mod 64)%N. repeat split.
  - apply N.div_mod. discriminate.
  - apply N.mod_lt. discriminate.
Qed.

Lemma push_decode_point (cp : N) (b rest : bytes) :
  encode_point cp = Some b ->
  utf8_decode (b ++ rest) = push cp (utf8_decode rest).
Proof.
  unfold encode_point.
  replace (cp / 4096)%N with (cp / 64 / 64)%N by (rewrite N.Div0.div_div; reflexivity).
  replace (cp / 262144)%N with (cp / 64 / 64 / 64)%N
    by (rewrite !N.Div0.div_div; reflexivity).
  destruct (split64 cp) as (d1 & m0 & -> & -> & E0 & L0).
  destruct (split64 d1) as (d2 & m1 & -> & -> & E1 & L1).
  destruct (split64 d2) as (d3 & m2 & -> & -> & E2 & L2).
  destruct (cp <? 0x80)%N eqn:T1.
  { intros [= <-]. apply N.ltb_lt in T1. cbn [app utf8_decode].
    rewrite val_byte_of by lia. settle_tests. reflexivity. }
  apply N.ltb_ge in T1.
  destruct (cp <? 0x800)%N eqn:T2.
  { intros [= <-]. apply N.ltb_lt in T2. cbn [app utf8_decode].
    unfold is_cont, cont. rewrite !val_byte_of by lia. settle_tests. cbn [andb].
    replace ((0xC0 + d1 - 0xC0) * 64 + (0x80 + m0 - 0x80))%N with cp by lia.
    reflexivity. }
  apply N.ltb_ge in T2.
  destruct (cp <? 0x10000)%N eqn:T3.
  { apply N.ltb_lt in T3.
    destruct (is_surrogate cp) eqn:Es; [discriminate|].
    intros [= <-]. cbn [app utf8_decode].
    unfold is_cont, cont. rewrite !val_byte_of by lia.
    replace ((0xE0 + d2 - 0xE0) * 4096 + (0x80 + m1 - 0x80) * 64 + (0x80 + m0 - 0x80))%N
      with cp by lia.
    rewrite Es. settle_tests. reflexivity. }
  apply N.ltb_ge in T3.
  destruct (cp <? 0x110000)%N eqn:T4; [|discriminate].
  apply N.ltb_lt in T4.
  intros [= <-]. cbn [app utf8_decode].
  unfold is_cont, cont. rewrite !val_byte_of by lia.
  replace ((0xF0 + d3 - 0xF0) * 262144 + (0x80 + m2 - 0x80) * 4096
           + (0x80 + m1 - 0x80) * 64 + (0x80 + m0 - 0x80))%N with cp by lia.
  settle_tests. reflexivity.
Qed.

(** Decoding what was encoded gives the string back. *)
Lemma utf8_decode_encode (s : ustr) (b : bytes) :
  utf8_encode s = Some b -> utf8_decode b = Some s.
Proof.
  revert b. induction s as [|cp s IH]; intros b; simpl.
  - intros [= <-]. reflexivity.
  - destruct (encode_point cp) as [bc|] eqn:Ec; [|discriminate].
    destruct (utf8_encode s) as [bs|]; [|discriminate].
    intros [= <-]. rewrite (push_decode_point cp bc bs Ec), (IH bs eq_refl). reflexivity.
Qed.

(** On bytes below 128 the two conversions are the identity on values. *)
Lemma utf8_decode_ascii (b : bytes) :
  Forall (fun x => (val x < 128)%N) b -> utf8_decode b = Some (map val b).
Proof.
  induction 1 as [|x b Hx _ IH]; [reflexivity|].
  cbn [utf8_decode map].
  replace (val x <? 0x80)%N with true by (symmetry; apply N.ltb_lt; exact Hx).
  rewrite IH. reflexivity.
Qed.

Lemma utf8_encode_ascii (b : bytes) :
  Forall (fun x => (val x < 128)%N) b -> utf8_encode (map val b) = Some b.
Proof.
  induction 1 as [|x b Hx _ IH]; [reflexivity|].
  cbn [utf8_encode map]. unfold encode_point.
  replace (val x <? 0x80)%N with true by (symmetry; apply N.ltb_lt; exact Hx).
  rewrite IH, byte_of_val. reflexivity.
Qed.

End Utf8Facts.

Section Base64Facts.
Import Config.

Lemma split_by (k n : N) :
  (k <> 0)%N ->
  exists d m, (n / k = d /\ n mod k = m /\ n = k * d + m /\ m < k)%N.
Proof.
  intros Hk. exists (n / k)%N, (n mod k)%N. repeat split.
  - apply N.div_mod. exact Hk.
  - apply N.mod_lt. exact Hk.
Qed.

Lemma div_pack (q r k : N) : (r < k)%N -> ((q * k + r) / k)%N = q.
Proof. intros H. symmetry. apply N.div_unique with r; lia. Qed.

Lemma mod_pack (q r k : N) : (r < k)%N -> ((q * k + r) mod k)%N = r.
Proof. intros H. symmetry. apply N.mod_unique with q; lia. Qed.

(** The alphabet, character by character. *)
Lemma b64_char_table (n : nat) :
  (n < 64)%nat ->
  b64_value (b64_char (N.of_nat n)) = Some (N.of_nat n)
  /\ Byte.eqb (b64_char (N.of_nat n)) pad_char = false.
Proof.
  intros H.
  do 64 (destruct n as [|n]; [split; vm_compute; reflexivity|]).
  lia.
Qed.

Lemma b64_char_value (v : N) : (v < 64)%N -> b64_value (b64_char v) = Some v.
Proof.
  intros H. rewrite <- (N2Nat.id v). apply b64_char_table. lia.
Qed.

Lemma b64_char_not_pad (v : N) : (v < 64)%N -> Byte.eqb (b64_char v) pad_char = false.
Proof.
  intros H. rewrite <- (N2Nat.id v). apply b64_char_table. lia.
Qed.

Lemma b64_char_ascii (v : N) : (val (b64_char v) < 128)%N.
Proof.
  unfold b64_char. generalize (N.to_nat v) as n. intros n.
  do 64 (destruct n as [|n]; [vm_compute; reflexivity|]).
  destruct n; vm_compute; reflexivity.
Qed.

Lemma pad_char_ascii : (val pad_char < 128)%N.
Proof. vm_compute. reflexivity. Qed.

Lemma b64_value_pad : Byte.eqb pad_char pad_char = true.
Proof. reflexivity. Qed.

(** One step of the decoder on a character of the alphabet. *)
Lemma a2b_step (quad_pos : nat) (leftchar : N) (pads : nat) (v : N) (s : bytes) :
  (v < 64)%N ->
  a2b_base64 quad_pos leftchar pads (b64_char v :: s)
  = match quad_pos with
    | 0%nat => a2b_base64 1 v 0 s
    | 1%nat =>
        option_map (cons (byte_of ((leftchar * 4 + v / 16) mod 256)))
          (a2b_base64 2 (v mod 16) 0 s)
    | 2%nat =>
        option_map (cons (byte_of ((leftchar * 16 + v / 4) mod 256)))
          (a2b_base64 3 (v mod 4) 0 s)
    | _ =>
        option_map (cons (byte_of ((leftchar * 64 + v) mod 256)))
          (a2b_base64 0 0 0 s)
    end%N.
Proof.
  intros H. cbn [a2b_base64].
  rewrite (b64_char_not_pad v H), (b64_char_value v H). reflexivity.
Qed.

(** The pieces of the three bytes of a group. *)
Lemma byte_pieces (a : Byte.byte) (k : N) :
  (k <> 0)%N ->
  exists d m, (val a / k = d /\ val a mod k = m /\ val a = k * d + m /\ m < k
               /\ k * d + m < 256)%N.
Proof.
  intros Hk. destruct (split_by k (val a) Hk) as (d & m & Hd & Hm & E & L).
  exists d, m. repeat split; try assumption.
  rewrite <- E. apply val_bound.
Qed.

Lemma a2b_group (a b c : Byte.byte) (rest : bytes) :
  a2b_base64 0 0 0
    ([b64_char (val a / 4); b64_char ((val a mod 4) * 16 + val b / 16);
      b64_char ((val b mod 16) * 4 + val c / 64); b64_char (val c mod 64)]%N ++ rest)
  = option_map (fun r => a :: b :: c :: r) (a2b_base64 0 0 0 rest).
Proof.
  destruct (byte_pieces a 4 ltac:(discriminate)) as (a1 & a0 & -> & -> & Ea & La & Ba).
  destruct (byte_pieces b 16 ltac:(discriminate)) as (b1 & b0 & -> & -> & Eb & Lb & Bb).
  destruct (byte_pieces c 64 ltac:(discriminate)) as (c1 & c0 & -> & -> & Ec & Lc & Bc).
  cbn [app].
  rewrite a2b_step by lia. rewrite a2b_step by lia.
  rewrite a2b_step by lia. rewrite a2b_step by lia.
  rewrite (div_pack a0 b1 16) by lia. rewrite (mod_pack a0 b1 16) by lia.
  rewrite (div_pack b0 c1 4) by lia. rewrite (mod_pack b0 c1 4) by lia.
  rewrite !N.mod_small by lia.
  replace (a1 * 4 + a0)%N with (val a) by lia.
  replace (b1 * 16 + b0)%N with (val b) by lia.
  replace (c1 * 64 + c0)%N with (val c) by lia.
  rewrite !byte_of_val.
  destruct (a2b_base64 0 0 0 rest); reflexivity.
Qed.

Lemma triple_ind (Q : bytes -> Prop) :
  Q [] -> (forall a, Q [a]) -> (forall a b, Q [a; b]) ->
  (forall a b c rest, Q rest -> Q (a :: b :: c :: rest)) ->
  forall l, Q l.
Proof.
  intros H0 H1 H2 H3 l.
  assert (H : Q l /\ (forall a, Q (a :: l)) /\ (forall a b, Q (a :: b :: l))).
  { induction l as [|x l (IH0 & IH1 & IH2)].
    - repeat split; auto.
    - repeat split; auto. }
  apply H.
Qed.

(** Decoding what was encoded gives the bytes back. *)
Lemma b64decode_encode (data : bytes) : b64decode (b64encode data) = Some data.
Proof.
  unfold b64decode. induction data as [|a|a b|a b c rest IH] using triple_ind.
  - reflexivity.
  - cbn [b64encode].
    destruct (byte_pieces a 4 ltac:(discriminate)) as (a1 & a0 & -> & -> & Ea & La & Ba).
    rewrite a2b_step by lia. rewrite a2b_step by lia.
    replace (a0 * 16)%N with (a0 * 16 + 0)%N by lia.
    rewrite (div_pack a0 0 16) by lia. rewrite (mod_pack a0 0 16) by lia.
    rewrite N.mod_small by lia.
    replace (a1 * 4 + a0)%N with (val a) by lia. rewrite byte_of_val.
    reflexivity.
  - cbn [b64encode].
    destruct (byte_pieces a 4 ltac:(discriminate)) as (a1 & a0 & -> & -> & Ea & La & Ba).
    destruct (byte_pieces b 16 ltac:(discriminate)) as (b1 & b0 & -> & -> & Eb & Lb & Bb).
    rewrite a2b_step by lia. rewrite a2b_step by lia. rewrite a2b_step by lia.
    rewrite (div_pack a0 b1 16) by lia. rewrite (mod_pack a0 b1 16) by lia.
    replace (b0 * 4)%N with (b0 * 4 + 0)%N by lia.
    rewrite (div_pack b0 0 4) by lia.
    rewrite !N.mod_small by lia.
    replace (a1 * 4 + a0)%N with (val a) by lia.
    replace (b1 * 16 + b0)%N with (val b) by lia.
    rewrite !byte_of_val.
    reflexivity.
  - cbn [b64encode]. rewrite a2b_group, IH. reflexivity.
Qed.

(** The encoding is ASCII. *)
Lemma b64encode_ascii (data : bytes) :
  Forall (fun x => (val x < 128)%N) (b64encode data).
Proof.
  induction data as [|a|a b|a b c rest IH] using triple_ind; cbn [b64encode].
  - constructor.
  - repeat constructor; first [apply b64_char_ascii | apply pad_char_ascii].
  - repeat constructor; first [apply b64_char_ascii | apply pad_char_ascii].
  - apply Forall_app. split; [|exact IH].
    repeat constructor; apply b64_char_ascii.
Qed.

End Base64Facts.

Section PaddingFacts.
Import Config.

Lemma padding_length (n : nat) :
  (1 <= block_size - n mod block_size <= block_size)%nat
  /\ ((n + (block_size - n mod block_size)) mod block_size = 0)%nat.
Proof.
  unfold block_size.
  pose proof (Nat.mod_upper_bound n 16 ltac:(discriminate)) as Hm.
  pose proof (Nat.div_mod n 16 ltac:(discriminate)) as Hd.
  set (m := (n mod 16)%nat) in *. set (d := (n / 16)%nat) in *.
  split; [lia|].
  replace (n + (16 - m))%nat with (0 + (d + 1) * 16)%nat by lia.
  rewrite Nat.Div0.mod_add. reflexivity.
Qed.

Lemma last_app_repeat (data : bytes) (x : Byte.byte) (p : nat) :
  (1 <= p)%nat -> List.last (data ++ repeat x p) Byte.x00 = x.
Proof.
  intros Hp. destruct p as [|p]; [lia|].
  replace (repeat x (S p)) with (repeat x p ++ [x]).
  - rewrite app_assoc. apply last_last.
  - rewrite <- repeat_cons. reflexivity.
Qed.

Lemma forallb_repeat (x : Byte.byte) (p : nat) :
  forallb (Byte.eqb x) (repeat x p) = true.
Proof.
  induction p as [|p IH]; [reflexivity|].
  simpl. rewrite IH, Byte.byte_dec_lb by reflexivity. reflexivity.
Qed.

(** Removing the padding that was added gives the data back. *)
Lemma unpad_pad (data : bytes) : unpad (pad data) = Some data.
Proof.
  unfold unpad, pad.
  destruct (padding_length (length data)) as [[Hp1 Hp2] Hmod].
  set (p := (block_size - length data mod block_size)%nat) in *.
  rewrite length_app, repeat_length.
  rewrite (last_app_repeat data _ p Hp1).
  assert (Hv : N.to_nat (val (byte_of (N.of_nat p))) = p).
  { rewrite val_byte_of; [apply Nat2N.id|]. unfold block_size in Hp2. lia. }
  rewrite Hv. rewrite Hmod.
  replace (length data + p =? 0)%nat with false by (symmetry; apply Nat.eqb_neq; lia).
  replace (p <? 1)%nat with false by (symmetry; apply Nat.ltb_ge; lia).
  replace (Nat.min block_size (length data + p) <? p)%nat with false
    by (symmetry; apply Nat.ltb_ge; lia).
  replace (length data + p - p)%nat with (length data) by lia.
  rewrite drop_app_length, take_app_length, forallb_repeat. reflexivity.
Qed.

Lemma pad_length (data : bytes) : (length (pad data) mod block_size = 0)%nat.
Proof.
  unfold pad. rewrite length_app, repeat_length.
  apply (padding_length (length data)).
Qed.

End PaddingFacts.

Section CbcFacts.
Import Config.

Lemma in_all_bytes (b : Byte.byte) : In b all_bytes.
Proof.
  unfold all_bytes. apply in_map_iff. exists (N.to_nat (val b)). split.
  - rewrite N2Nat.id. apply byte_of_val.
  - apply in_seq. pose proof (val_bound b). lia.
Qed.

Lemma byte_xor_table :
  forallb (fun a => forallb (fun b => Byte.eqb (byte_xor (byte_xor a b) b) a) all_bytes)
    all_bytes = true.
Proof. vm_compute. reflexivity. Qed.

Lemma byte_xor_cancel (a b : Byte.byte) : byte_xor (byte_xor a b) b = a.
Proof.
  pose proof byte_xor_table as H.
  rewrite forallb_forall in H. specialize (H a (in_all_bytes a)).
  rewrite forallb_forall in H. specialize (H b (in_all_bytes b)).
  apply Byte.byte_dec_bl. exact H.
Qed.

Lemma block_xor_cancel (p prev : bytes) :
  length p = length prev -> block_xor (block_xor p prev) prev = p.
Proof.
  unfold block_xor. revert prev. induction p as [|x p IH]; intros [|y prev] H;
    try discriminate; [reflexivity|].
  simpl. rewrite byte_xor_cancel, IH; [reflexivity|]. simpl in H. lia.
Qed.

Lemma block_xor_length (p prev : bytes) :
  length p = length prev -> length (block_xor p prev) = length p.
Proof.
  unfold block_xor. revert prev. induction p as [|x p IH]; intros [|y prev] H;
    try discriminate; [reflexivity|].
  simpl. rewrite IH; [reflexivity|]. simpl in H. lia.
Qed.

(** Cutting into blocks: the pieces of a whole number of blocks have 16
    bytes each and put together give the data; and a list of blocks of 16
    bytes is cut back into itself. *)
Lemma blocks_of_spec (fuel : nat) (data : bytes) :
  (length data <= fuel)%nat ->
  (length data mod block_size = 0)%nat ->
  Forall (fun b => length b = block_size) (blocks_of fuel data)
  /\ concat (blocks_of fuel data) = data.
Proof.
  revert data. induction fuel as [|fuel IH]; intros data Hlen Hmod.
  - destruct data; [split; [constructor|reflexivity] | simpl in Hlen; lia].
  - destruct data as [|x data]; [split; [constructor|reflexivity]|].
    cbn [blocks_of].
    assert (Hge : (block_size <= length (x :: data))%nat).
    { unfold block_size in *.
      pose proof (Nat.div_mod (length (x :: data)) 16 ltac:(discriminate)) as Hd.
      rewrite Hmod in Hd. simpl length in *.
      destruct (S (length data) / 16)%nat eqn:Eq; lia. }
    destruct (IH (drop block_size (x :: data))) as [F C].
    + rewrite length_drop. unfold block_size in *. simpl length in *. lia.
    + rewrite length_drop.
      unfold block_size in *.
      pose proof (Nat.div_mod (length (x :: data)) 16 ltac:(discriminate)) as Hd.
      rewrite Hmod in Hd.
      set (q := (length (x :: data) / 16)%nat) in *.
      replace (length (x :: data) - 16)%nat with (0 + (q - 1) * 16)%nat by lia.
      rewrite Nat.Div0.mod_add. reflexivity.
    + split.
      * constructor; [|exact F]. rewrite length_take. lia.
      * cbn [concat]. rewrite C. apply take_drop.
Qed.

Lemma blocks_concat (bs : list bytes) :
  Forall (fun b => length b = block_size) bs -> blocks (concat bs) = bs.
Proof.
  unfold blocks.
  assert (H : forall fuel, (length (concat bs) <= fuel)%nat ->
                Forall (fun b => length b = block_size) bs ->
                blocks_of fuel (concat bs) = bs).
  { induction bs as [|b bs IH]; intros fuel Hfuel HF.
    - destruct fuel; reflexivity.
    - inversion HF as [|? ? Hb HF']; subst.
      cbn [concat] in *. rewrite length_app in Hfuel.
      destruct fuel as [|fuel]; [unfold block_size in Hb; lia|].
      destruct b as [|x b]; [discriminate Hb|].
      cbn [blocks_of app].
      change (x :: b ++ concat bs) with ((x :: b) ++ concat bs).
      rewrite <- Hb at 1 2.
      rewrite take_app_length, drop_app_length.
      rewrite IH; [reflexivity| |exact HF'].
      unfold block_size in Hb. simpl length in *. lia. }
  intros HF. apply H; [lia|exact HF].
Qed.

Lemma concat_blocks_length (bs : list bytes) :
  Forall (fun b => length b = block_size) bs ->
  (length (concat bs) mod block_size = 0)%nat.
Proof.
  induction 1 as [|b bs Hb _ IH]; [reflexivity|].
  cbn [concat]. rewrite length_app, Hb.
  rewrite Nat.add_comm.
  replace block_size with (1 * block_size)%nat at 1 by lia.
  rewrite Nat.Div0.mod_add. exact IH.
Qed.

Section Chain.

Variable E D : bytes -> bytes.
Hypothesis E_length : forall b, length b = block_size -> length (E b) = block_size.
Hypothesis D_E : forall b, length b = block_size -> D (E b) = b.

Lemma cbc_encrypt_blocks (prev : bytes) (plain : list bytes) :
  length prev = block_size ->
  Forall (fun b => length b = block_size) plain ->
  Forall (fun b => length b = block_size) (cbc_encrypt E prev plain).
Proof.
  intros Hprev HF. revert prev Hprev.
  induction HF as [|p plain Hp _ IH]; intros prev Hprev; [constructor|].
  cbn [cbc_encrypt].
  assert (Hc : length (E (block_xor p prev)) = block_size).
  { apply E_length. rewrite block_xor_length; congruence. }
  constructor; [exact Hc | apply IH; exact Hc].
Qed.

Lemma cbc_decrypt_encrypt (prev : bytes) (plain : list bytes) :
  length prev = block_size ->
  Forall (fun b => length b = block_size) plain ->
  cbc_decrypt D prev (cbc_encrypt E prev plain) = plain.
Proof.
  intros Hprev HF. revert prev Hprev.
  induction HF as [|p plain Hp _ IH]; intros prev Hprev; [reflexivity|].
  cbn [cbc_encrypt cbc_decrypt].
  rewrite D_E by (rewrite block_xor_length; congruence).
  rewrite block_xor_cancel by congruence.
  rewrite IH; [reflexivity|].
  apply E_length. rewrite block_xor_length; congruence.
Qed.

End Chain.

End CbcFacts.

Section CredentialClaims.
Import Config.

Lemma aes_cbc_round_trip (E D : bytes -> bytes -> bytes) (key iv data : bytes) :
  (forall b, length b = block_size ->
             length (E key b) = block_size /\ D key (E key b) = b) ->
  valid_key key = true ->
  length iv = block_size ->
  (length data mod block_size = 0)%nat ->
  exists encrypted,
    aes_cbc_encrypt E key iv data = Some encrypted
    /\ aes_cbc_decrypt D key iv encrypted = Some data.
Proof.
  intros Haes Hkey Hiv Hdata.
  destruct (blocks_of_spec (length data) data (Nat.le_refl _) Hdata) as [HF HC].
  fold (blocks data) in HF, HC.
  pose proof (cbc_encrypt_blocks (E key) (fun b Hb => proj1 (Haes b Hb)) iv
                (blocks data) Hiv HF) as HE.
  exists (concat (cbc_encrypt (E key) iv (blocks data))). split.
  - unfold aes_cbc_encrypt. rewrite Hkey, Hiv, Hdata. reflexivity.
  - unfold aes_cbc_decrypt. rewrite Hkey, Hiv.
    rewrite (concat_blocks_length _ HE). cbn [negb Nat.eqb].
    rewrite (blocks_concat _ HE).
    rewrite (cbc_decrypt_encrypt (E key) (D key)
               (fun b Hb => proj1 (Haes b Hb)) (fun b Hb => proj2 (Haes b Hb))
               iv (blocks data) Hiv HF).
    rewrite HC. reflexivity.
Qed.

(** C8. With a key that AES accepts and a block cipher whose decryption
    undoes its encryption under that key, every string that UTF-8 can
    encode is encrypted, for every IV of 16 bytes, to a text that
    [_decrypt_value] with the same key turns back into the string. *)
Theorem credential_round_trip (E D : bytes -> bytes -> bytes) (key iv : bytes)
    (value : ustr) :
  (forall b, length b = block_size ->
             length (E key b) = block_size /\ D key (E key b) = b) ->
  valid_key key = true ->
  length iv = block_size ->
  is_Some (utf8_encode value) ->
  exists encrypted_value,
    _encrypt_value E key iv value = Some encrypted_value
    /\ _decrypt_value D key encrypted_value = Some value.
Proof.
  intros Haes Hkey Hiv [data Hdata].
  destruct (aes_cbc_round_trip E D key iv (pad data) Haes Hkey Hiv (pad_length data))
    as (enc & Henc & Hdec).
  pose proof (b64encode_ascii (iv ++ enc)) as Hascii.
  exists (map val (b64encode (iv ++ enc))). split.
  - unfold _encrypt_value. rewrite Hdata. simpl. rewrite Henc. simpl.
    apply utf8_decode_ascii. exact Hascii.
  - unfold _decrypt_value.
    rewrite (utf8_encode_ascii _ Hascii). simpl.
    rewrite b64decode_encode. simpl.
    change 16%nat with block_size. rewrite <- Hiv.
    rewrite take_app_length, drop_app_length.
    rewrite Hdec. simpl. rewrite unpad_pad. simpl.
    apply utf8_decode_encode. exact Hdata.
Qed.

Lemma credential_round_trip_witness :
  exists encrypted_value,
    _encrypt_value toy_cipher toy_key toy_iv toy_secret = Some encrypted_value
    /\ _decrypt_value toy_cipher toy_key encrypted_value = Some toy_secret.
Proof.
  apply (credential_round_trip toy_cipher toy_cipher toy_key toy_iv toy_secret).
  - intros b Hb. unfold toy_cipher. split; [rewrite length_rev; exact Hb | apply rev_involutive].
  - reflexivity.
  - reflexivity.
  - eexists. vm_compute. reflexivity.
Defined.

(** C10. When the configuration has an [alpaca] section without a
    [base_url] entry, the base URL returned is that of paper trading,
    which is not the live endpoint. *)
Theorem default_base_url_is_paper (config : gmap string (gmap string value))
    (section : gmap string value) :
  config !! "alpaca" = Some section ->
  section !! "base_url" = None ->
  snd (get_alpaca_credentials config) = VStr #"https://paper-api.alpaca.markets"
  /\ snd (get_alpaca_credentials config) <> VStr live_url.
Proof.
  intros Hs Hb. unfold get_alpaca_credentials. rewrite Hs, Hb. simpl.
  split; [reflexivity|]. intros H. discriminate H.
Qed.

Lemma default_base_url_is_paper_witness :
  snd (get_alpaca_credentials
         {[ "alpaca" := {[ "api_key" := VStr #"PK0000000000"; "api_secret" := VNone ]} ]})
  = VStr #"https://paper-api.alpaca.markets".
Proof.
  apply (default_base_url_is_paper
           {[ "alpaca" := {[ "api_key" := VStr #"PK0000000000"; "api_secret" := VNone ]} ]}
           {[ "api_key" := VStr #"PK0000000000"; "api_secret" := VNone ]}).
  - reflexivity.
  - reflexivity.
Defined.

End CredentialClaims.

Section OrderWitness.
Import PyStr Client Orders.

Lemma order_requests_one_size_witness :
  exactly_one_size
    (<["qty" := VStr #"1"]>
       (<["time_in_force" := VStr #"day"]>
          (<["side" := VStr #"buy"]> (<["symbol" := VStr #"AAPL"]> ∅)))).
Proof.
  apply (proj1 (order_requests_one_size offline (fun _ => #"1") (demo true)
                  (new_client no_credentials) #"aapl" BUY (Some 1%Q) None DAY false
                  None None fresh 1 (demo_start true))).
  reflexivity.
Defined.

End OrderWitness.

(** ** More on the action extractor *)

Section ExtractorCoverage.
Import PyStr Regex Extractor.

Lemma contains_app (sub pre post : text) : contains sub (pre ++ sub ++ post) = true.
Proof.
  induction pre as [|c pre IH]; cbn [app].
  - destruct (sub ++ post) eqn:E; cbn [contains]; rewrite <- ?E, starts_with_app; reflexivity.
  - cbn [contains]. rewrite IH. apply orb_true_r.
Qed.

Lemma matches_lits_exact (fl : flags) (p t : text) c c' :
  ignorecase fl = false -> matches fl (lits p) t c c' -> t = p.
Proof.
  intros Hfl. revert t c c'. induction p as [|x p IH]; intros t c c' M; cbn [lits] in M.
  - inversion M. reflexivity.
  - inversion M as [| | |a b t1 t2 c0 c1 c2 M1 M2| | | | | | |]; subst.
    inversion M1 as [|x0 y c3 Hxy| | | | | | | | |]; subst.
    unfold lit_match in Hxy. rewrite Hfl in Hxy. apply Ascii.eqb_eq in Hxy. subst y.
    cbn [app]. f_equal. eapply IH. eassumption.
Qed.

Lemma tag_match_shape (t : text) c c' :
  matches tag_flags tag_pattern t c c' ->
  exists body, t = open_tag ++ body ++ close_tag.
Proof.
  unfold tag_pattern. cbn [seq]. intros M.
  inversion M as [| | |a b t1 t23 c0 c1 c2 M1 M23| | | | | | |]; subst.
  inversion M23 as [| | |a b t2 t3 c0 c3 c4 M2 M3| | | | | | |]; subst.
  apply (matches_lits_exact tag_flags open_tag) in M1; [|reflexivity].
  apply (matches_lits_exact tag_flags close_tag) in M3; [|reflexivity].
  subst. eauto.
Qed.

(** X1. Without an opening tag [<actions_taken>], or without a closing tag
    [</actions_taken>], anywhere in the response, the extractor returns no
    action at all, whatever calls the text spells out. *)
Theorem extract_needs_both_tags (response : text) :
  contains open_tag response = false \/ contains close_tag response = false ->
  extract_action_from_response response = [].
Proof.
  intros H. unfold extract_action_from_response.
  destruct (search tag_flags tag_pattern response) as [caps|] eqn:E; [|reflexivity].
  exfalso.
  apply search_sound in E as (pre & t & post & -> & M).
  apply tag_match_shape in M as (body & ->).
  destruct H as [H|H].
  - rewrite <- !app_assoc, contains_app in H. discriminate.
  - replace (pre ++ (open_tag ++ body ++ close_tag) ++ post)
      with ((pre ++ open_tag ++ body) ++ close_tag ++ post) in H
      by (rewrite <- !app_assoc; reflexivity).
    rewrite contains_app in H. discriminate.
Qed.

Lemma extract_needs_both_tags_witness :
  extract_action_from_response (#"I will run buy_stock(AAPL, 10) and get_account_info()") = [].
Proof.
  apply (extract_needs_both_tags (#"I will run buy_stock(AAPL, 10) and get_account_info()")).
  left. reflexivity.
Defined.


Lemma upper_char_not_lower (c : ascii) : is_lower (upper_char c) = false.
Proof. each_char c. Qed.

Lemma upper_char_quote (c : ascii) :
  char_in quote_chars (upper_char c) = char_in quote_chars c.
Proof. each_char c. Qed.

Lemma upper_char_space (c : ascii) : is_space (upper_char c) = is_space c.
Proof. each_char c. Qed.

Lemma upper_char_idem (c : ascii) : upper_char (upper_char c) = upper_char c.
Proof. each_char c. Qed.

Lemma letter_class (c : ascii) :
  cls_match line_flags (Range "A" "Z") c = is_upper c || is_lower c.
Proof. each_char c. Qed.

Lemma letter_facts (c : ascii) :
  is_upper c || is_lower c = true ->
  is_space c = false /\ char_in quote_chars c = false.
Proof. each_char c; intros H; discriminate H. Qed.

Lemma head_map_text (f : ascii -> ascii) (t : text) : head (map f t) = option_map f (head t).
Proof. destruct t; reflexivity. Qed.

Lemma last_map_text (f : ascii -> ascii) (t : text) : last (map f t) = option_map f (last t).
Proof.
  induction t as [|a [|b t] IH]; [reflexivity..|].
  change (last (f a :: map f (b :: t)) = option_map f (last (a :: b :: t))).
  cbn [map] in IH |- *. exact IH.
Qed.

Lemma lstrip_by_head (p : ascii -> bool) (s : text) (c : ascii) :
  head (lstrip_by p s) = Some c -> p c = false.
Proof.
  induction s as [|x s IH]; cbn [lstrip_by]; [discriminate|].
  destruct (p x) eqn:E; [exact IH|]. cbn. intros [= <-]. exact E.
Qed.

Lemma lstrip_by_suffix (p : ascii -> bool) (s : text) :
  exists gone, s = gone ++ lstrip_by p s.
Proof.
  induction s as [|x s (gone & IH)]; cbn [lstrip_by]; [exists []; reflexivity|].
  destruct (p x); [|exists []; reflexivity].
  exists (x :: gone). cbn [app]. f_equal. exact IH.
Qed.

Lemma last_rev_head (t : text) : last (rev t) = head t.
Proof.
  destruct t as [|a t]; [reflexivity|]. cbn [rev head].
  rewrite last_snoc. reflexivity.
Qed.

Lemma head_rev_last (t : text) : head (rev t) = last t.
Proof. rewrite <- (rev_involutive t) at 2. rewrite last_rev_head. reflexivity. Qed.

Lemma head_app_keep (a b : text) (c : ascii) :
  head b = Some c -> b <> [] -> last (a ++ b) = last b.
Proof.
  intros _ Hne. destruct b as [|x b]; [congruence|].
  induction a as [|y a IH]; [reflexivity|].
  cbn [app]. destruct (a ++ x :: b) eqn:E; [destruct a; discriminate E|].
  exact IH.
Qed.

(** What [strip_by] leaves has, at either end, a character that the
    predicate rejects. *)
Lemma strip_by_ends (p : ascii -> bool) (s : text) (c : ascii) :
  head (strip_by p s) = Some c \/ last (strip_by p s) = Some c -> p c = false.
Proof.
  unfold strip_by, rstrip_by.
  set (l := lstrip_by p s).
  intros [H|H].
  - destruct (lstrip_by_suffix p (rev l)) as (gone & Hg).
    assert (Hl : l = rev (lstrip_by p (rev l)) ++ rev gone).
    { rewrite <- rev_app_distr, <- Hg, rev_involutive. reflexivity. }
    apply (lstrip_by_head p s). fold l. rewrite Hl.
    destruct (rev (lstrip_by p (rev l))); [discriminate H | exact H].
  - rewrite <- head_rev_last, rev_involutive in H.
    exact (lstrip_by_head p (rev l) c H).
Qed.

Lemma upper_not_lower (t : text) : Forall (fun c => is_lower c = false) (upper t).
Proof.
  unfold upper. induction t as [|c t IH]; constructor; [apply upper_char_not_lower | exact IH].
Qed.

Lemma clean_symbol_tidy (g : text) : nonempty (clean_symbol g) = true -> tidy_symbol (clean_symbol g).
Proof.
  intros Hne. split; [intros E; rewrite E in Hne; discriminate|].
  split; [apply upper_not_lower|].
  intros c Hc. unfold clean_symbol, upper in Hc.
  rewrite head_map_text, last_map_text in Hc.
  unfold strip_chars in Hc.
  destruct Hc as [Hc|Hc].
  - destruct (head (strip_by _ _)) as [x|] eqn:E; [|discriminate].
    injection Hc as <-. rewrite upper_char_quote.
    apply (strip_by_ends _ _ _ (or_introl E)).
  - destruct (last (strip_by _ _)) as [x|] eqn:E; [|discriminate].
    injection Hc as <-. rewrite upper_char_quote.
    apply (strip_by_ends _ _ _ (or_intror E)).
Qed.

(** A non-empty run of letters. *)
Lemma matches_letter_star g t c c' :
  matches line_flags (Star g (Cls (Range "A" "Z"))) t c c' ->
  Forall (fun x => is_upper x || is_lower x = true) t.
Proof.
  remember (Star g (Cls (Range "A" "Z"))) as r eqn:Er. induction 1; try discriminate.
  - constructor.
  - injection Er as -> ->. apply Forall_app. split; [|auto].
    inversion H; subst. constructor; [|constructor].
    rewrite <- letter_class. assumption.
Qed.

Lemma matches_letters t c c' :
  matches line_flags letters t c c' ->
  t <> [] /\ Forall (fun x => is_upper x || is_lower x = true) t.
Proof.
  unfold letters, plus. intros H.
  inversion H as [| | |a b t1 t2 c0 c1 c2 M1 M2| | | | | | |]; subst.
  inversion M1; subst. apply matches_letter_star in M2.
  split; [discriminate|]. constructor; [|assumption].
  rewrite <- letter_class. assumption.
Qed.

Lemma strip_letters (t : text) :
  Forall (fun x => is_upper x || is_lower x = true) t -> strip t = t.
Proof.
  intros H.
  assert (L : forall u, Forall (fun x => is_upper x || is_lower x = true) u ->
                        lstrip_by is_space u = u).
  { intros u Hu. destruct Hu as [|x u Hx _]; [reflexivity|].
    cbn [lstrip_by]. destruct (letter_facts x Hx) as [-> _]. reflexivity. }
  unfold strip, strip_by, rstrip_by. rewrite (L t H).
  rewrite L; [apply rev_involutive | apply Forall_rev; exact H].
Qed.

Lemma letters_tidy (t : text) :
  t <> [] -> Forall (fun x => is_upper x || is_lower x = true) t ->
  tidy_symbol (upper (strip t)).
Proof.
  intros Hne H. rewrite (strip_letters t H).
  split; [destruct t; [congruence | discriminate]|].
  split; [apply upper_not_lower|].
  intros c Hc. unfold upper in Hc. rewrite head_map_text, last_map_text in Hc.
  assert (Hin : forall x, head t = Some x \/ last t = Some x -> In x t).
  { intros x [Hx|Hx].
    - destruct t; [discriminate|]. injection Hx as <-. left. reflexivity.
    - apply last_Some in Hx as (l' & ->). apply in_or_app. right. left. reflexivity. }
  rewrite List.Forall_forall in H.
  destruct Hc as [Hc|Hc].
  - destruct (head t) as [x|] eqn:E; [|discriminate]. injection Hc as <-.
    rewrite upper_char_quote. apply letter_facts, H, Hin. left. reflexivity.
  - destruct (last t) as [x|] eqn:E; [|discriminate]. injection Hc as <-.
    rewrite upper_char_quote. apply letter_facts, H, Hin. right. reflexivity.
Qed.

(** Which group of the buy pattern [idx] holds the symbol when the pattern
    is one of the two written in words. *)
Lemma word_pattern_groups (idx : nat) :
  idx = 3%nat \/ idx = 4%nat ->
  groups_sat line_flags
    (fun n t => n <> quantity_group idx ->
                t <> [] /\ Forall (fun x => is_upper x || is_lower x = true) t)
    (pattern_at idx).
Proof.
  intros [-> | ->]; simpl;
    repeat match goal with
      | |- _ /\ _ => split
      | |- True => exact I
      end;
    intros t c c' M E;
    first [exfalso; apply E; reflexivity | exact (matches_letters _ _ _ M)].
Qed.

Lemma buy_loop_source (line : text) (indices : list nat) (a : action) :
  In a (buy_loop line indices) ->
  exists idx caps symbol quantity,
    In idx indices /\ search line_flags (pattern_at idx) line = Some caps /\
    parse_buy idx caps = Some (symbol, quantity) /\
    a = buy_action symbol quantity /\ nonempty symbol = true /\ 0 < quantity.
Proof.
  induction indices as [|idx rest IH]; cbn [buy_loop]; [intros []|].
  assert (Hrest : In a (buy_loop line rest) ->
                  exists idx0 caps symbol quantity,
                    In idx0 (idx :: rest) /\ search line_flags (pattern_at idx0) line = Some caps /\
                    parse_buy idx0 caps = Some (symbol, quantity) /\
                    a = buy_action symbol quantity /\ nonempty symbol = true /\ 0 < quantity).
  { intros H. destruct (IH H) as (i & c & s & q & Hi & R). exists i, c, s, q.
    split; [right; exact Hi | exact R]. }
  destruct (search line_flags (pattern_at idx) line) as [caps|] eqn:Es; [|exact Hrest].
  destruct (parse_buy idx caps) as [[symbol quantity]|] eqn:Ep; [|exact Hrest].
  destruct (nonempty symbol) eqn:Hs; cbn [andb]; [|intros []].
  destruct (0 <? quantity) eqn:Hq; [|intros []].
  intros [<-|[]]. exists idx, caps, symbol, quantity.
  repeat match goal with |- _ /\ _ => split end; auto.
  - left; reflexivity.
  - apply Z.ltb_lt; exact Hq.
Qed.

Lemma buy_symbol_tidy (line : text) (idx : nat) (caps : captures) symbol quantity :
  In idx buy_indices ->
  search line_flags (pattern_at idx) line = Some caps ->
  parse_buy idx caps = Some (symbol, quantity) ->
  nonempty symbol = true ->
  tidy_symbol symbol.
Proof.
  intros Hin Hs Hp Hne.
  apply search_sound in Hs as (pre & t & post & _ & M).
  assert (Hempty : forall (Q : nat -> text -> Prop) n u, group n [] = Some u -> Q n u)
    by (intros Q n u Hn; discriminate Hn).
  unfold parse_buy in Hp. simpl in Hin.
  destruct Hin as [<-|[<-|[<-|[<-|[<-|[]]]]]]; cbn [Nat.leb Nat.eqb] in Hp;
    destruct (group 1 caps) as [g1|] eqn:H1; try discriminate Hp;
    destruct (group 2 caps) as [g2|] eqn:H2; cbn in Hp.
  all: try discriminate Hp.
  all: try (destruct (int_of g1); discriminate Hp).
  1-3: destruct (int_of g2); cbn in Hp; try discriminate Hp;
       injection Hp as <- <-; apply clean_symbol_tidy; exact Hne.
  - destruct (int_of g1); cbn in Hp; try discriminate Hp. injection Hp as <- <-.
    pose proof (matches_groups_sat _ _ _ _ _ _ M (word_pattern_groups 3 (or_introl eq_refl))
                  (Hempty _) 2%nat g2 H2) as Hg.
    destruct Hg as [Hg1 Hg2]; [discriminate|]. apply letters_tidy; assumption.
  - destruct (int_of g2); cbn in Hp; try discriminate Hp. injection Hp as <- <-.
    pose proof (matches_groups_sat _ _ _ _ _ _ M (word_pattern_groups 4 (or_intror eq_refl))
                  (Hempty _) 1%nat g1 H1) as Hg.
    destruct Hg as [Hg1 Hg2]; [discriminate|]. apply letters_tidy; assumption.
Qed.

Lemma price_loop_source (line : text) (indices : list nat) (a : action) :
  In a (price_loop line indices) ->
  exists g, a = price_action (clean_symbol g) /\ nonempty (clean_symbol g) = true.
Proof.
  induction indices as [|idx rest IH]; cbn [price_loop]; [intros []|].
  destruct (search line_flags (pattern_at idx) line) as [caps|]; [|exact IH].
  destruct (group 1 caps) as [g|]; [|exact IH].
  destruct (nonempty (clean_symbol g)) eqn:Hs; [|intros []].
  intros [<-|[]]. exists g. split; [reflexivity | exact Hs].
Qed.

Lemma in_extracted_line (response : text) (a : action) :
  In a (extract_action_from_response response) ->
  exists raw_line, In a (line_actions raw_line).
Proof.
  unfold extract_action_from_response.
  destruct (search tag_flags tag_pattern response) as [caps|]; [|intros []].
  destruct (group 1 caps) as [body|]; [|intros []].
  unfold section_actions. intros H.
  apply in_concat in H as (acts & Hacts & Ha).
  apply in_map_iff in Hacts as (raw_line & <- & _).
  exists raw_line. exact Ha.
Qed.

(** X2. Every action the extractor returns is one of the three kinds, and
    the symbol of a [buy_stock] or [get_stock_price] action is never
    empty, holds none of the letters [a] to [z], and neither begins nor
    ends with a quote character; the quantity of a [buy_stock] action is
    positive. *)
Theorem extracted_symbols_tidy (response : text) (a : action) :
  In a (extract_action_from_response response) ->
  (exists symbol quantity,
      a = buy_action symbol quantity /\ tidy_symbol symbol /\ 0 < quantity)
  \/ (exists symbol, a = price_action symbol /\ tidy_symbol symbol)
  \/ a = account_action.
Proof.
  intros H. apply in_extracted_line in H as (raw_line & H).
  unfold line_actions in H.
  destruct (nonempty (strip raw_line)); [|destruct H].
  apply in_app_or in H as [H|H]; [|apply in_app_or in H as [H|H]].
  - left. apply buy_loop_source in H as (idx & caps & s & q & Hi & Hs & Hp & -> & Hne & Hq).
    exists s, q. split; [reflexivity|]. split; [|exact Hq].
    exact (buy_symbol_tidy _ _ _ _ _ Hi Hs Hp Hne).
  - right. left. apply price_loop_source in H as (g & -> & Hne).
    exists (clean_symbol g). split; [reflexivity|]. apply clean_symbol_tidy. exact Hne.
  - right. right. destruct (account_check_cases (strip raw_line)) as [E|E];
      rewrite E in H; [destruct H|]. destruct H as [<-|[]]. reflexivity.
Qed.

Lemma extracted_symbols_tidy_witness :
  (exists symbol quantity,
      buy_action #"MSFT" 3 = buy_action symbol quantity /\ tidy_symbol symbol /\ 0 < quantity)
  \/ (exists symbol, buy_action #"MSFT" 3 = price_action symbol /\ tidy_symbol symbol)
  \/ buy_action #"MSFT" 3 = account_action.
Proof.
  apply (extracted_symbols_tidy
           (open_tag ++ #"buy_stock(' msft ', quantity=3)" ++ close_tag)
           (buy_action #"MSFT" 3)).
  vm_compute. left. reflexivity.
Defined.


(** *** Letter case *)

Lemma upper_char_lower (c : ascii) : lower_char (upper_char c) = lower_char c.
Proof. each_char c. Qed.

Lemma upper_char_digit (c : ascii) : is_digit (upper_char c) = is_digit c.
Proof. each_char c. Qed.

Lemma upper_char_newline (c : ascii) : Ascii.eqb (upper_char c) newline = Ascii.eqb c newline.
Proof. each_char c. Qed.

Lemma upper_char_underscore (c : ascii) : Ascii.eqb (upper_char c) "_" = Ascii.eqb c "_".
Proof. each_char c. Qed.

Lemma lit_match_upper (fl : flags) (c x : ascii) :
  ignorecase fl = true -> lit_match fl c (upper_char x) = lit_match fl c x.
Proof. intros H. unfold lit_match. rewrite H, upper_char_lower. reflexivity. Qed.

Lemma cls_match_upper (fl : flags) (p : cls) (x : ascii) :
  ignorecase fl = true -> cls_match fl p (upper_char x) = cls_match fl p x.
Proof.
  intros H. destruct p; cbn [cls_match].
  - rewrite upper_char_newline. reflexivity.
  - apply upper_char_space.
  - apply upper_char_digit.
  - rewrite H, upper_char_lower, upper_char_idem. reflexivity.
Qed.

Lemma upper_length (t : text) : length (upper t) = length t.
Proof. apply length_map. Qed.

Lemma consumed_upper (s rest : text) :
  consumed (upper s) (upper rest) = upper (consumed s rest).
Proof. unfold consumed, upper. rewrite !length_map, firstn_map. reflexivity. Qed.

(** Under [re.IGNORECASE] the matcher takes the same steps on a text and
    on its upper-case form. *)
Lemma rmatch_upper (fl : flags) (r : regex) :
  ignorecase fl = true ->
  forall s caps k k',
    (forall s' caps',
        k' (upper s') (upper_captures caps') = option_map upper_captures (k s' caps')) ->
    rmatch fl r (upper s) (upper_captures caps) k'
    = option_map upper_captures (rmatch fl r s caps k).
Proof.
  intros Hfl.
  induction r as [|c|p|r1 IH1 r2 IH2|r1 IH1 r2 IH2|r1 IH1|g r1 IH1|n r1 IH1];
    intros s caps k k' Hk.
  - cbn [rmatch]. apply Hk.
  - destruct s as [|x s]; [reflexivity|].
    change (upper (x :: s)) with (upper_char x :: upper s). cbn [rmatch].
    rewrite (lit_match_upper fl c x Hfl). destruct (lit_match fl c x); [apply Hk | reflexivity].
  - destruct s as [|x s]; [reflexivity|].
    change (upper (x :: s)) with (upper_char x :: upper s). cbn [rmatch].
    rewrite (cls_match_upper fl p x Hfl). destruct (cls_match fl p x); [apply Hk | reflexivity].
  - cbn [rmatch]. apply IH1. intros s' caps'. apply IH2. exact Hk.
  - cbn [rmatch]. rewrite (IH1 s caps k k' Hk), (IH2 s caps k k' Hk).
    destruct (rmatch fl r1 s caps k); reflexivity.
  - cbn [rmatch]. rewrite (IH1 s caps k k' Hk), (Hk s caps).
    destruct (rmatch fl r1 s caps k); reflexivity.
  - destruct g; cbn [rmatch]; rewrite upper_length;
      generalize (length s) as fuel; intros fuel; revert s caps;
      induction fuel as [|fuel IHf]; intros s caps.
    + apply Hk.
    + match goal with
      | |- _ = option_map _ (match rmatch _ _ _ _ ?K with _ => _ end) =>
          rewrite (IH1 s caps K)
      end.
      * rewrite (Hk s caps).
        match goal with
        | |- context [option_map _ ?m] => destruct m; reflexivity
        end.
      * intros s' caps'. cbv beta. rewrite !upper_length.
        destruct (length s' <? length s)%nat; [apply IHf | reflexivity].
    + rewrite (Hk s caps). destruct (k s caps); reflexivity.
    + rewrite (Hk s caps). destruct (k s caps); [reflexivity|].
      cbn [option_map]. apply IH1.
      intros s' caps'. cbv beta. rewrite !upper_length.
      destruct (length s' <? length s)%nat; [apply IHf | reflexivity].
  - cbn [rmatch]. apply IH1. intros s' caps'. cbv beta.
    rewrite consumed_upper. apply (Hk s' ((n, consumed s s') :: caps')).
Qed.

Lemma match_here_upper (fl : flags) (r : regex) (s : text) :
  ignorecase fl = true ->
  match_here fl r (upper s) = option_map upper_captures (match_here fl r s).
Proof.
  intros Hfl. unfold match_here.
  apply (rmatch_upper fl r Hfl s [] (fun _ caps => Some caps) (fun _ caps => Some caps)).
  reflexivity.
Qed.

Lemma search_upper (fl : flags) (r : regex) (s : text) :
  ignorecase fl = true ->
  search fl r (upper s) = option_map upper_captures (search fl r s).
Proof.
  intros Hfl. induction s as [|x s IH].
  - pose proof (match_here_upper fl r [] Hfl) as H.
    change (upper []) with (@nil ascii) in *. cbn [search].
    destruct (match_here fl r []) as [c|]; cbn in H |- *; [exact H | reflexivity].
  - change (upper (x :: s)) with (upper_char x :: upper s).
    cbn [search]. rewrite IH.
    change (upper_char x :: upper s) with (upper (x :: s)).
    rewrite (match_here_upper fl r (x :: s) Hfl).
    destruct (match_here fl r (x :: s)); reflexivity.
Qed.

Lemma group_upper (n : nat) (caps : captures) :
  group n (upper_captures caps) = option_map upper (group n caps).
Proof.
  induction caps as [|[m t] caps IH]; [reflexivity|].
  cbn [upper_captures map group fst snd]. destruct (Nat.eqb n m); [reflexivity | exact IH].
Qed.

Lemma lstrip_by_upper (p : ascii -> bool) (s : text) :
  (forall c, p (upper_char c) = p c) ->
  lstrip_by p (upper s) = upper (lstrip_by p s).
Proof.
  intros Hp. induction s as [|c s IH]; [reflexivity|].
  change (upper (c :: s)) with (upper_char c :: upper s).
  cbn [lstrip_by]. rewrite Hp. destruct (p c); [exact IH | reflexivity].
Qed.

Lemma strip_by_upper (p : ascii -> bool) (s : text) :
  (forall c, p (upper_char c) = p c) ->
  strip_by p (upper s) = upper (strip_by p s).
Proof.
  intros Hp. unfold strip_by, rstrip_by.
  assert (Hrev : forall t, rev (upper t) = upper (rev t))
    by (intros t; unfold upper; symmetry; apply map_rev).
  rewrite (lstrip_by_upper p s Hp), Hrev, (lstrip_by_upper p _ Hp), Hrev. reflexivity.
Qed.

Lemma strip_upper (s : text) : strip (upper s) = upper (strip s).
Proof. apply strip_by_upper, upper_char_space. Qed.

Lemma upper_idem (s : text) : upper (upper s) = upper s.
Proof.
  unfold upper. rewrite map_map. apply map_ext. intros c. apply upper_char_idem.
Qed.

Lemma clean_symbol_upper (g : text) : clean_symbol (upper g) = clean_symbol g.
Proof.
  unfold clean_symbol, strip_chars. rewrite strip_upper.
  rewrite (strip_by_upper _ _ upper_char_quote). apply upper_idem.
Qed.

Lemma int_body_upper (t : text) (acc : Z) (flag : bool) :
  int_body acc flag (upper t) = int_body acc flag t.
Proof.
  revert acc flag. induction t as [|c t IH]; intros acc flag; [reflexivity|].
  change (upper (c :: t)) with (upper_char c :: upper t).
  cbn [int_body]. rewrite upper_char_digit, upper_char_underscore.
  destruct (is_digit c) eqn:Hd.
  - assert (E : digit_value (upper_char c) = digit_value c)
      by (revert Hd; each_char c; discriminate).
    rewrite E. apply IH.
  - destruct (Ascii.eqb c "_" && flag); [|reflexivity].
    destruct t as [|d t]; [reflexivity|].
    change (upper (d :: t)) with (upper_char d :: upper t) in *. cbv beta iota.
    rewrite upper_char_digit. destruct (is_digit d); [apply IH | reflexivity].
Qed.

Lemma int_of_upper (t : text) : int_of (upper t) = int_of t.
Proof.
  unfold int_of. rewrite strip_upper.
  destruct (strip t) as [|c d]; [reflexivity|].
  change (upper (c :: d)) with (upper_char c :: upper d).
  pose proof (int_body_upper d 0 false) as Hd.
  pose proof (int_body_upper (c :: d) 0 false) as Hcd.
  change (upper (c :: d)) with (upper_char c :: upper d) in Hcd.
  destruct c as [[] [] [] [] [] [] [] []];
    first [ rewrite <- Hd; reflexivity | exact Hcd ].
Qed.

Lemma nonempty_upper (t : text) : nonempty (upper t) = nonempty t.
Proof. destruct t; reflexivity. Qed.

Lemma parse_buy_upper (idx : nat) (caps : captures) :
  parse_buy idx (upper_captures caps) = parse_buy idx caps.
Proof.
  unfold parse_buy. rewrite !group_upper.
  destruct (idx <=? 2)%nat; [|destruct (idx =? 3)%nat];
    destruct (group 1 caps) as [g1|]; cbn; try reflexivity;
    rewrite ?int_of_upper;
    destruct (group 2 caps) as [g2|]; cbn; rewrite ?int_of_upper;
    rewrite ?clean_symbol_upper, ?strip_upper, ?upper_idem; reflexivity.
Qed.

Lemma buy_loop_upper (line : text) (indices : list nat) :
  buy_loop (upper line) indices = buy_loop line indices.
Proof.
  induction indices as [|idx rest IH]; [reflexivity|].
  cbn [buy_loop]. rewrite (search_upper line_flags _ line eq_refl).
  destruct (search line_flags (pattern_at idx) line) as [caps|]; cbn [option_map]; [|exact IH].
  rewrite parse_buy_upper. destruct (parse_buy idx caps) as [[symbol quantity]|]; [reflexivity | exact IH].
Qed.

Lemma price_loop_upper (line : text) (indices : list nat) :
  price_loop (upper line) indices = price_loop line indices.
Proof.
  induction indices as [|idx rest IH]; [reflexivity|].
  cbn [price_loop]. rewrite (search_upper line_flags _ line eq_refl).
  destruct (search line_flags (pattern_at idx) line) as [caps|]; cbn [option_map]; [|exact IH].
  rewrite group_upper. destruct (group 1 caps) as [g|]; cbn [option_map]; [|exact IH].
  rewrite clean_symbol_upper. reflexivity.
Qed.

Lemma account_check_upper (line : text) : account_check (upper line) = account_check line.
Proof.
  unfold account_check. rewrite (search_upper line_flags _ line eq_refl).
  destruct (search line_flags (pattern_at 7) line); reflexivity.
Qed.

Lemma line_actions_upper (raw_line : text) : line_actions (upper raw_line) = line_actions raw_line.
Proof.
  unfold line_actions. rewrite strip_upper, nonempty_upper.
  rewrite buy_loop_upper, price_loop_upper, account_check_upper. reflexivity.
Qed.

Lemma split_on_upper (t : text) :
  split_on newline (upper t) = map upper (split_on newline t).
Proof.
  induction t as [|c t IH]; [reflexivity|].
  change (upper (c :: t)) with (upper_char c :: upper t).
  cbn [split_on]. rewrite upper_char_newline, IH.
  destruct (Ascii.eqb c newline); [reflexivity|].
  destruct (split_on newline t); reflexivity.
Qed.

(** X3. The lines of the actions section are read without regard to letter
    case: turning a line, or the whole text of the section, of 7-bit
    characters into upper case changes nothing in the actions returned
    (the calls may be written [BUY_STOCK(...)] as well as
    [buy_stock(...)]). *)
Theorem actions_ignore_case (actions_text : text) :
  is_ascii actions_text ->
  section_actions (upper actions_text) = section_actions actions_text
  /\ line_actions (upper actions_text) = line_actions actions_text.
Proof.
  intros _. split; [|apply line_actions_upper].
  unfold section_actions. rewrite split_on_upper, map_map. f_equal.
  apply map_ext. intros line. apply line_actions_upper.
Qed.

Lemma actions_ignore_case_witness :
  section_actions (upper #"Buy 10 shares of aapl")
  = section_actions #"Buy 10 shares of aapl"
  /\ line_actions (upper #"Buy 10 shares of aapl") = line_actions #"Buy 10 shares of aapl".
Proof.
  apply (actions_ignore_case #"Buy 10 shares of aapl").
  unfold is_ascii. repeat constructor.
Defined.

End ExtractorCoverage.

(** *** One line at a time *)

Section LineByLine.
Import PyStr Regex Extractor.

Lemma split_on_cons (s : text) :
  exists piece rest, split_on newline s = piece :: rest.
Proof.
  destruct s as [|x s]; [exists [], []; reflexivity|].
  cbn [split_on]. destruct (Ascii.eqb x newline); [eauto|].
  destruct (split_on newline s); eauto.
Qed.

Lemma strip_space_cons (c : ascii) (t : text) :
  is_space c = true -> strip (c :: t) = strip t.
Proof. intros H. unfold strip, strip_by. cbn [lstrip_by]. rewrite H. reflexivity. Qed.

Lemma line_actions_space_cons (c : ascii) (t : text) :
  is_space c = true -> line_actions (c :: t) = line_actions t.
Proof. intros H. unfold line_actions. rewrite (strip_space_cons c t H). reflexivity. Qed.

Lemma section_actions_space_cons (c : ascii) (s : text) :
  is_space c = true -> section_actions (c :: s) = section_actions s.
Proof.
  intros H. unfold section_actions. cbn [split_on].
  destruct (Ascii.eqb c newline); [reflexivity|].
  destruct (split_on_cons s) as (piece & rest & ->).
  cbn [map concat]. rewrite (line_actions_space_cons c piece H). reflexivity.
Qed.

Lemma section_actions_lstrip (s : text) :
  section_actions (lstrip_by is_space s) = section_actions s.
Proof.
  induction s as [|c s IH]; [reflexivity|].
  cbn [lstrip_by]. destruct (is_space c) eqn:H; [|reflexivity].
  rewrite (section_actions_space_cons c s H). exact IH.
Qed.

Lemma lstrip_by_snoc (t : text) (c : ascii) :
  is_space c = true ->
  lstrip_by is_space (t ++ [c]) = [] /\ lstrip_by is_space t = []
  \/ lstrip_by is_space (t ++ [c]) = lstrip_by is_space t ++ [c]
     /\ lstrip_by is_space t <> [].
Proof.
  intros H. induction t as [|x t IH]; cbn [app lstrip_by].
  - rewrite H. left. auto.
  - destruct (is_space x); [exact IH|]. right. split; [reflexivity | discriminate].
Qed.

Lemma strip_space_snoc (t : text) (c : ascii) :
  is_space c = true -> strip (t ++ [c]) = strip t.
Proof.
  intros H. unfold strip, strip_by, rstrip_by.
  destruct (lstrip_by_snoc t c H) as [[-> ->]|[-> _]]; [reflexivity|].
  rewrite rev_app_distr. cbn [rev app lstrip_by]. rewrite H. reflexivity.
Qed.

Lemma line_actions_space_snoc (t : text) (c : ascii) :
  is_space c = true -> line_actions (t ++ [c]) = line_actions t.
Proof. intros H. unfold line_actions. rewrite (strip_space_snoc t c H). reflexivity. Qed.

Lemma split_on_snoc (s : text) (c : ascii) :
  exists front piece,
    split_on newline s = front ++ [piece]
    /\ split_on newline (s ++ [c])
       = if Ascii.eqb c newline then front ++ [piece; []] else front ++ [piece ++ [c]].
Proof.
  induction s as [|x s (front & piece & Hs & Hc)]; cbn [app split_on].
  - exists [], []. split; [reflexivity|]. destruct (Ascii.eqb c newline); reflexivity.
  - rewrite Hs, Hc. destruct (Ascii.eqb x newline).
    + exists ([] :: front), piece. split; [reflexivity|].
      destruct (Ascii.eqb c newline); reflexivity.
    + destruct front as [|first front].
      * exists [], (x :: piece). split; [reflexivity|].
        destruct (Ascii.eqb c newline); reflexivity.
      * exists ((x :: first) :: front), piece. split; [reflexivity|].
        destruct (Ascii.eqb c newline); reflexivity.
Qed.

Lemma section_actions_space_snoc (s : text) (c : ascii) :
  is_space c = true -> section_actions (s ++ [c]) = section_actions s.
Proof.
  intros H. unfold section_actions.
  destruct (split_on_snoc s c) as (front & piece & -> & ->).
  destruct (Ascii.eqb c newline).
  - rewrite !map_app, !concat_app. cbn [map concat].
    change (line_actions []) with (@nil action). cbn [app].
    rewrite !List.app_nil_r. reflexivity.
  - rewrite !map_app, !concat_app. cbn [map concat].
    rewrite (line_actions_space_snoc piece c H). reflexivity.
Qed.

Lemma lstrip_by_gone (s : text) :
  exists gone,
    s = gone ++ lstrip_by is_space s /\ Forall (fun c => is_space c = true) gone.
Proof.
  induction s as [|x s (gone & IH & HF)]; cbn [lstrip_by].
  - exists []. split; [reflexivity | constructor].
  - destruct (is_space x) eqn:Hx.
    + exists (x :: gone). split; [cbn [app]; f_equal; exact IH | constructor; assumption].
    + exists []. split; [reflexivity | constructor].
Qed.

Lemma section_actions_spaces_after (s gone : text) :
  Forall (fun c => is_space c = true) gone ->
  section_actions (s ++ gone) = section_actions s.
Proof.
  induction gone as [|c gone IH] using rev_ind; intros HF.
  - rewrite app_nil_r. reflexivity.
  - apply Forall_app in HF as [HF Hc]. inversion Hc; subst.
    rewrite app_assoc, section_actions_space_snoc by assumption. apply IH. exact HF.
Qed.

Lemma section_actions_strip (s : text) :
  section_actions (strip s) = section_actions s.
Proof.
  rewrite <- (section_actions_lstrip s).
  unfold strip, strip_by, rstrip_by.
  set (l := lstrip_by is_space s).
  destruct (lstrip_by_gone (rev l)) as (gone & Hg & HF).
  assert (Hl : l = rev (lstrip_by is_space (rev l)) ++ rev gone).
  { rewrite <- rev_app_distr, <- Hg, rev_involutive. reflexivity. }
  rewrite Hl at 2. symmetry. apply section_actions_spaces_after.
  apply Forall_rev. exact HF.
Qed.

(** X4. The actions of a response are those of the lines of its first
    actions section, line by line and in the order of the lines: the
    answer is the concatenation of what each line yields on its own.
    White space around the section, and blank lines, change nothing. *)
Theorem extract_line_by_line (pre body rest : text) :
  contains open_tag pre = false ->
  contains close_tag body = false ->
  extract_action_from_response (pre ++ open_tag ++ body ++ close_tag ++ rest)
  = concat (map line_actions (split_on newline body)).
Proof.
  intros Hpre Hbody. rewrite (extract_first_block pre body rest Hpre Hbody).
  apply section_actions_strip.
Qed.

Lemma extract_line_by_line_witness :
  extract_action_from_response
    (#"ok " ++ open_tag
     ++ (newline :: #"  get_account_info()" ++ newline :: newline :: #"buy 2 shares of ko ")
     ++ close_tag ++ #" bye")
  = concat (map line_actions
              (split_on newline
                 (newline :: #"  get_account_info()" ++ newline :: newline
                             :: #"buy 2 shares of ko "))).
Proof.
  apply (extract_line_by_line #"ok "
           (newline :: #"  get_account_info()" ++ newline :: newline :: #"buy 2 shares of ko ")
           #" bye");
    reflexivity.
Defined.

End LineByLine.

(** ** More on the broker's operations and the dispatcher *)

Section BrokerCoverage.
Import PyStr Broker.

Variable P : platform.

Lemma bind_calls_added {A T} (m : B P A) (f : A -> B P T) (st : bstate P)
    (l1 l2 : list sdk_call) :
  calls (snd (m st)) = calls st ++ l1 ->
  calls (snd (f (fst (m st)) (snd (m st)))) = calls (snd (m st)) ++ l2 ->
  calls (snd (bbind P m f st)) = calls st ++ l1 ++ l2.
Proof.
  unfold bbind. destruct (m st) as [a st1]. cbn [fst snd].
  intros -> ->. symmetry. apply app_assoc.
Qed.

Lemma call_stock_bars_added r (st : bstate P) :
  calls (snd (call_stock_bars P r st)) = calls st ++ [GetStockBars r].
Proof. unfold call_stock_bars. destruct (stock_bars P _ _). reflexivity. Qed.

Lemma call_submit_added r (st : bstate P) :
  calls (snd (call_submit P r st)) = calls st ++ [SubmitOrder r].
Proof. unfold call_submit. destruct (submit P _ _). reflexivity. Qed.

Lemma call_get_account_added (st : bstate P) :
  calls (snd (call_get_account P st)) = calls st ++ [GetAccount].
Proof. unfold call_get_account. destruct (fetch_account P _). reflexivity. Qed.

Lemma buy_stock_added symbol quantity (st : bstate P) :
  calls (snd (buy_stock P symbol quantity st))
  = calls st ++ (if Extractor.nonempty symbol && (0 <? quantity)
                 then [SubmitOrder (buy_request symbol quantity)] else []).
Proof.
  unfold buy_stock. destruct symbol as [|x symbol]; [symmetry; apply app_nil_r|].
  cbn [Extractor.nonempty andb].
  rewrite Z.ltb_antisym. destruct (quantity <=? 0); cbn [negb]; [symmetry; apply app_nil_r|].
  unfold bbind. pose proof (call_submit_added (buy_request (x :: symbol) quantity) st) as H.
  destruct (call_submit P _ st) as [[e|o] st1]; cbn [snd] in *; [exact H|].
  destruct (order_summary P o); exact H.
Qed.

Lemma get_account_info_added (st : bstate P) :
  calls (snd (get_account_info P st)) = calls st ++ [GetAccount].
Proof.
  unfold get_account_info, bbind. pose proof (call_get_account_added st) as H.
  destruct (call_get_account P st) as [[e|acct] st1]; cbn [snd] in *; [exact H|].
  destruct (account_money P acct) as [e|[[? ?] ?]]; exact H.
Qed.

(** The loop over the timeframes asks for them in order and stops at the
    first usable bar. *)
Lemma price_loop_added symbol start tfs (st : bstate P) :
  exists n,
    (n <= length tfs)%nat /\
    calls (snd (price_loop P symbol start tfs st))
    = calls st ++ map (fun tf => GetStockBars (bar_request symbol tf start)) (take n tfs) /\
    match fst (price_loop P symbol start tfs st) with
    | Some result => (1 <= n)%nat /\ exists p note, result = price_result symbol p note
    | None => n = length tfs
    end.
Proof.
  revert st. induction tfs as [|tf rest IH]; intros st.
  - exists 0%nat. cbn. rewrite app_nil_r. auto.
  - cbn [price_loop]. unfold bbind.
    pose proof (call_stock_bars_added
                  {| bars_symbol := symbol; bars_timeframe := tf;
                     bars_start := start; bars_limit := 1 |} st) as H.
    destruct (call_stock_bars P _ st) as [reply st1]. cbn [snd] in H.
    assert (Hnext :
      exists n, (n <= length (tf :: rest))%nat /\
        calls (snd (price_loop P symbol start rest st1))
        = calls st ++ map (fun tf => GetStockBars (bar_request symbol tf start))
                        (take n (tf :: rest)) /\
        match fst (price_loop P symbol start rest st1) with
        | Some result => (1 <= n)%nat /\ exists p note, result = price_result symbol p note
        | None => n = length (tf :: rest)
        end).
    { destruct (IH st1) as (n & Hn & Hc & Hr). exists (S n).
      split; [cbn; lia|]. split.
      - rewrite Hc, H. cbn [take map]. rewrite <- app_assoc. reflexivity.
      - destruct (fst (price_loop P symbol start rest st1)).
        + destruct Hr as [_ Hr]. split; [lia | exact Hr].
        + cbn. lia. }
    destruct reply as [e|bars]; [exact Hnext|].
    destruct (latest_bar symbol bars) as [b|]; [|exact Hnext].
    destruct (bar_price P b) as [e|p]; [exact Hnext|].
    exists 1%nat. cbn [fst snd bret]. split; [cbn; lia|]. split; [exact H|].
    split; [lia|]. eauto.
Qed.

Lemma get_stock_price_cases (symbol0 : text) (st : bstate P) :
  let symbol := upper (strip symbol0) in
  let t := clock P (sdk_state st) in
  let result := fst (get_stock_price P symbol0 st) in
  let st' := snd (get_stock_price P symbol0 st) in
  (exists n p note,
      (1 <= n <= 4)%nat /\
      calls st' = calls st ++ take n (price_queries symbol t) /\
      result = price_result symbol p note)
  \/ (calls st' = calls st ++ price_queries symbol t /\
      result = partial_result symbol).
Proof.
  cbv zeta. unfold get_stock_price, bbind, bret, now.
  set (symbol := upper (strip symbol0)). set (t := clock P (sdk_state st)).
  destruct (price_loop_added symbol (t - thirty_days) timeframes st) as (n & Hn & Hc & Hr).
  destruct (price_loop P symbol (t - thirty_days) timeframes st) as [[result|] st1];
    cbn [fst snd] in *.
  - destruct Hr as (Hn1 & p & note & ->). left. exists n, p, note.
    split; [cbn in Hn; lia|]. split; [|reflexivity].
    rewrite Hc. f_equal. unfold price_queries.
    rewrite take_app_le by (rewrite length_map; exact Hn).
    rewrite firstn_map. reflexivity.
  - subst n. rewrite firstn_all in Hc.
    pose proof (call_stock_bars_added
                  {| bars_symbol := symbol; bars_timeframe := Day;
                     bars_start := t - ninety_days; bars_limit := 5 |} st1) as H.
    assert (Hall : calls (snd (call_stock_bars P
                                 {| bars_symbol := symbol; bars_timeframe := Day;
                                    bars_start := t - ninety_days; bars_limit := 5 |} st1))
                   = calls st ++ price_queries symbol t).
    { rewrite H, Hc. unfold price_queries. rewrite <- app_assoc. reflexivity. }
    destruct (call_stock_bars P _ st1) as [[e|bars] st2]; cbn [fst snd] in *.
    + right. split; [exact Hall | reflexivity].
    + destruct (latest_bar symbol bars) as [b|]; [|right; split; [exact Hall | reflexivity]].
      destruct (bar_price P b) as [e|p]; [right; split; [exact Hall | reflexivity]|].
      left. exists 4%nat, p, (list_ascii_of_string "Historical price data - may not be current").
      split; [lia|]. split; [exact Hall | reflexivity].
Qed.



Lemma orders_in_app (l1 l2 : list sdk_call) :
  orders_in (l1 ++ l2) = orders_in l1 ++ orders_in l2.
Proof. unfold orders_in. apply flat_map_app. Qed.

Lemma price_queries_no_order (symbol : text) (t : Z) (n : nat) :
  orders_in (take n (price_queries symbol t)) = [].
Proof. do 5 (destruct n as [|n]; [reflexivity|]). reflexivity. Qed.

Lemma get_stock_price_no_order (symbol0 : text) (st : bstate P) :
  exists added,
    calls (snd (get_stock_price P symbol0 st)) = calls st ++ added /\ orders_in added = [].
Proof.
  destruct (get_stock_price_cases symbol0 st) as [(n & p & note & _ & Hc & _)|[Hc _]];
    eexists; (split; [exact Hc|]).
  - apply price_queries_no_order.
  - exact (price_queries_no_order _ _ 4).
Qed.

(** The calls one action makes, and the order among them. *)
Lemma try_action_orders (i : nat) (a : action) (st : bstate P) :
  exists added,
    calls (snd (try_action P i a st)) = calls st ++ added /\
    orders_in added = order_of P a.
Proof.
  unfold try_action, order_of.
  destruct (String.eqb (act_name a) "buy_stock").
  { destruct (value_strip _) as [e|stripped];
      [exists []; split; [symmetry; apply app_nil_r | reflexivity]|].
    destruct (value_int P _) as [e|quantity];
      [exists []; split; [symmetry; apply app_nil_r | reflexivity]|].
    destruct (upper stripped) as [|x symbol] eqn:E;
      [exists []; split; [symmetry; apply app_nil_r | reflexivity]|].
    cbn [Extractor.nonempty andb]. rewrite Z.ltb_antisym.
    destruct (quantity <=? 0) eqn:Hq; cbn [negb];
      [exists []; split; [symmetry; apply app_nil_r | reflexivity]|].
    exists [SubmitOrder (buy_request (x :: symbol) quantity)]. split; [|reflexivity].
    unfold bbind. pose proof (buy_stock_added (x :: symbol) quantity st) as H.
    cbn [Extractor.nonempty andb] in H. rewrite Z.ltb_antisym, Hq in H. cbn [negb] in H.
    destruct (buy_stock P (x :: symbol) quantity st) as [result st1]. exact H. }
  destruct (String.eqb (act_name a) "get_stock_price").
  { destruct (value_strip _) as [e|stripped];
      [exists []; split; [symmetry; apply app_nil_r | reflexivity]|].
    destruct (upper stripped) as [|x symbol] eqn:E;
      [exists []; split; [symmetry; apply app_nil_r | reflexivity]|].
    unfold bbind. destruct (get_stock_price_no_order (x :: symbol) st) as (added & Hc & Ho).
    exists added. split; [|exact Ho].
    destruct (get_stock_price P (x :: symbol) st) as [result st1]. exact Hc. }
  destruct (String.eqb (act_name a) "get_account_info").
  { exists [GetAccount]. split; [|reflexivity].
    unfold bbind. pose proof (get_account_info_added st) as H.
    destruct (get_account_info P st) as [result st1]. exact H. }
  exists []. split; [symmetry; apply app_nil_r | reflexivity].
Qed.

Lemma run_action_orders (i : nat) (a : action) (st : bstate P) :
  exists added,
    calls (snd (run_action P i a st)) = calls st ++ added /\
    orders_in added = order_of P a.
Proof.
  unfold run_action, bbind.
  destruct (try_action_orders i a st) as (added & Hc & Ho).
  exists added. split; [|exact Ho].
  destruct (try_action P i a st) as [[e|entry] st1]; exact Hc.
Qed.

Lemma execute_from_orders (actions : list action) (i : nat) (results : gmap text dict)
    (st : bstate P) :
  exists added,
    calls (snd (execute_from P i actions results st)) = calls st ++ added /\
    orders_in added = flat_map (order_of P) actions.
Proof.
  revert i results st. induction actions as [|a rest IH]; intros i results st.
  - exists []. split; [symmetry; apply app_nil_r | reflexivity].
  - cbn [execute_from flat_map]. unfold bbind.
    destruct (run_action_orders i a st) as (l1 & Hc1 & Ho1).
    destruct (run_action P i a st) as [entry st1]. cbn [snd] in Hc1.
    destruct (IH (S i) (<[fst entry := snd entry]> results) st1) as (l2 & Hc2 & Ho2).
    exists (l1 ++ l2). split.
    + rewrite Hc2, Hc1. symmetry. apply app_assoc.
    + rewrite orders_in_app, Ho1, Ho2. reflexivity.
Qed.

Lemma order_of_sound (a : action) : Forall sound_order (order_of P a).
Proof.
  unfold order_of.
  destruct (String.eqb (act_name a) "buy_stock"); [|constructor].
  destruct (value_strip _) as [e|stripped]; [constructor|].
  destruct (value_int P _) as [e|quantity]; [constructor|].
  destruct (Extractor.nonempty (upper stripped)) eqn:Hs; [|constructor].
  destruct (0 <? quantity) eqn:Hq; [|constructor].
  constructor; [|constructor].
  unfold sound_order, buy_request. cbn.
  split; [destruct (upper stripped); [discriminate Hs | discriminate]|].
  split; [apply upper_not_lower|].
  split; [exists quantity; split; [reflexivity | apply Z.ltb_lt; exact Hq]|].
  auto.
Qed.

Lemma orders_of_sound (actions : list action) :
  Forall sound_order (flat_map (order_of P) actions).
Proof.
  induction actions as [|a rest IH]; [constructor|].
  cbn [flat_map]. apply Forall_app. split; [apply order_of_sound | exact IH].
Qed.

(** X6. Whatever the list of actions holds and whatever the brokerage
    answers, every order the dispatcher submits is a purchase, for the
    day, of a positive whole number of shares of a symbol that is not
    empty and holds none of the letters [a] to [z], with no notional
    amount: the dispatcher never sells and never submits a quantity that
    is zero or negative. *)
Theorem dispatcher_orders_sound (actions : list action) (st : bstate P) :
  exists added,
    calls (snd (execute_actions P actions st)) = calls st ++ added /\
    Forall sound_order (orders_in added).
Proof.
  unfold execute_actions.
  destruct (execute_from_orders actions 0 ∅ st) as (added & Hc & Ho).
  exists added. split; [exact Hc|]. rewrite Ho. apply orders_of_sound.
Qed.

(** X7. The orders the dispatcher submits are read off the list of actions
    alone: one for each [buy_stock] action whose symbol, stripped and
    upper-cased, is not empty and whose quantity is positive, in the order
    of the list and with that symbol and quantity. What the brokerage
    answered to earlier calls, and whether earlier actions failed, changes
    nothing in the orders that follow. *)
Theorem dispatcher_orders_determined (actions : list action) (st : bstate P) :
  exists added,
    calls (snd (execute_actions P actions st)) = calls st ++ added /\
    orders_in added = flat_map (order_of P) actions.
Proof. exact (execute_from_orders actions 0 ∅ st). Qed.

(** *** The entries of the result *)

Lemma error_result_status (m : text) : is_Some (dict_get "status" (error_result m)).
Proof. eexists. reflexivity. Qed.

Lemma buy_stock_status symbol quantity (st : bstate P) :
  is_Some (dict_get "status" (fst (buy_stock P symbol quantity st))).
Proof.
  unfold buy_stock, bbind, bret.
  destruct symbol; [apply error_result_status|].
  destruct (quantity <=? 0); [apply error_result_status|].
  destruct (call_submit P _ st) as [[e|o] st1]; [apply error_result_status|].
  destruct (order_summary P o) as [e|[[[id sym] qty] status]];
    [apply error_result_status | eexists; reflexivity].
Qed.

Lemma get_stock_price_status symbol0 (st : bstate P) :
  is_Some (dict_get "status" (fst (get_stock_price P symbol0 st))).
Proof.
  destruct (get_stock_price_cases symbol0 st) as [(n & p & note & _ & _ & ->)|[_ ->]];
    eexists; reflexivity.
Qed.

Lemma get_account_info_status (st : bstate P) :
  is_Some (dict_get "status" (fst (get_account_info P st))).
Proof.
  unfold get_account_info, bbind, bret.
  destruct (call_get_account P st) as [[e|acct] st1]; [apply error_result_status|].
  destruct (account_money P acct) as [e|[[? ?] ?]];
    [apply error_result_status | eexists; reflexivity].
Qed.

Lemma run_action_status (i : nat) (a : action) (st : bstate P) :
  is_Some (dict_get "status" (snd (fst (run_action P i a st)))).
Proof.
  unfold run_action, try_action, bbind, bret.
  destruct (String.eqb (act_name a) "buy_stock").
  { destruct (value_strip _) as [e|stripped]; [apply error_result_status|].
    destruct (value_int P _) as [e|quantity]; [apply error_result_status|].
    destruct (upper stripped) as [|x symbol]; [apply error_result_status|].
    destruct (quantity <=? 0); [apply error_result_status|].
    pose proof (buy_stock_status (x :: symbol) quantity st) as H.
    destruct (buy_stock P (x :: symbol) quantity st) as [result st1]. exact H. }
  destruct (String.eqb (act_name a) "get_stock_price").
  { destruct (value_strip _) as [e|stripped]; [apply error_result_status|].
    destruct (upper stripped) as [|x symbol]; [apply error_result_status|].
    pose proof (get_stock_price_status (x :: symbol) st) as H.
    destruct (get_stock_price P (x :: symbol) st) as [result st1]. exact H. }
  destruct (String.eqb (act_name a) "get_account_info"); [|apply error_result_status].
  pose proof (get_account_info_status st) as H.
  destruct (get_account_info P st) as [result st1]. exact H.
Qed.

Lemma execute_from_entries (actions : list action) (i : nat) (results : gmap text dict)
    (st : bstate P) :
  (forall k, is_Some (results !! k) -> exists j, (j < i)%nat /\ key_shape j k) ->
  map_Forall (fun _ entry => is_Some (dict_get "status" entry)) results ->
  size (fst (execute_from P i actions results st)) = (size results + length actions)%nat
  /\ map_Forall (fun _ entry => is_Some (dict_get "status" entry))
       (fst (execute_from P i actions results st)).
Proof.
  revert i results st. induction actions as [|a rest IH]; intros i results st Hkeys Hst.
  - cbn. split; [lia | exact Hst].
  - cbn [execute_from length]. unfold bbind.
    pose proof (run_action_key_shape P i a st) as Hshape.
    pose proof (run_action_status i a st) as Hstatus.
    destruct (run_action P i a st) as [[k r] st1]. cbn [fst snd] in *.
    assert (Hfresh : results !! k = None).
    { destruct (results !! k) as [e|] eqn:E; [|reflexivity].
      destruct (Hkeys k) as (j & Hj & Hs); [rewrite E; eauto|].
      pose proof (key_shape_index _ _ _ Hshape Hs). lia. }
    destruct (IH (S i) (<[k := r]> results) st1) as [Hsize Hall].
    + intros k' Hk'. destruct (decide (k' = k)) as [->|Hne].
      * exists i. split; [lia | exact Hshape].
      * rewrite lookup_insert_ne in Hk' by congruence.
        destruct (Hkeys k' Hk') as (j & Hj & Hs). exists j. split; [lia | exact Hs].
    + apply map_Forall_insert_2; assumption.
    + split; [|exact Hall].
      rewrite Hsize, map_size_insert_None by exact Hfresh. lia.
Qed.

(** X8. The dictionary the dispatcher returns holds exactly one entry for
    each action of the list, also when the same action is repeated, and
    every entry carries a [status] field. *)
Theorem dispatcher_result_entries (actions : list action) (st : bstate P) :
  size (fst (execute_actions P actions st)) = length actions
  /\ map_Forall (fun _ entry => is_Some (dict_get "status" entry))
       (fst (execute_actions P actions st)).
Proof.
  unfold execute_actions.
  destruct (execute_from_entries actions 0 ∅ st) as [Hsize Hall].
  - intros k Hk. rewrite lookup_empty in Hk. destruct Hk as [? Hk]. discriminate Hk.
  - apply map_Forall_empty.
  - split; [|exact Hall]. rewrite Hsize, map_size_empty. reflexivity.
Qed.


(** *** get_market_data *)

Lemma quote_loop_added symbol start tfs (st : bstate P) :
  exists n,
    (n <= length tfs)%nat /\
    calls (snd (quote_loop P symbol start tfs st))
    = calls st ++ map (fun tf => GetStockBars (bar_request symbol tf start)) (take n tfs) /\
    match fst (quote_loop P symbol start tfs st) with
    | Some entry => (1 <= n)%nat /\ exists q, entry = quote_entry q
    | None => n = length tfs
    end.
Proof.
  revert st. induction tfs as [|tf rest IH]; intros st.
  - exists 0%nat. cbn. rewrite app_nil_r. auto.
  - rewrite quote_loop_step.
    destruct (stock_bars P (sdk_state st) (bar_request symbol tf start)) as [reply w].
    set (st1 := BState w (calls st ++ [GetStockBars (bar_request symbol tf start)])).
    unfold reply_entry.
    assert (Hnext :
      exists n, (n <= length (tf :: rest))%nat /\
        calls (snd (quote_loop P symbol start rest st1))
        = calls st ++ map (fun tf => GetStockBars (bar_request symbol tf start))
                        (take n (tf :: rest)) /\
        match fst (quote_loop P symbol start rest st1) with
        | Some entry => (1 <= n)%nat /\ exists q, entry = quote_entry q
        | None => n = length (tf :: rest)
        end).
    { destruct (IH st1) as (n & Hn & Hc & Hr). exists (S n).
      split; [cbn; lia|]. split.
      - rewrite Hc. cbn [take map st1 calls]. rewrite <- app_assoc. reflexivity.
      - destruct (fst (quote_loop P symbol start rest st1)).
        + destruct Hr as [_ Hr]. split; [lia | exact Hr].
        + cbn. lia. }
    destruct reply as [e|bars]; [exact Hnext|].
    destruct (latest_bar symbol bars) as [b|]; [|exact Hnext].
    destruct (bar_quote P b) as [e|q]; [exact Hnext|].
    exists 1%nat. cbn [fst snd]. split; [cbn; lia|]. split; [reflexivity|].
    split; [lia|]. eauto.
Qed.

(** The turn of one symbol: its queries, and what becomes of the
    dictionary. *)
Lemma symbol_data_spec (symbol : text) (market_data : gmap text dict) (st : bstate P) :
  exists queries entry,
    calls (snd (symbol_data P symbol market_data st)) = calls st ++ queries /\
    Forall (quote_query [symbol]) queries /\
    (1 <= length queries <= 3)%nat /\
    fst (symbol_data P symbol market_data st) !! symbol = Some entry /\
    (forall k, k <> symbol ->
               fst (symbol_data P symbol market_data st) !! k = market_data !! k) /\
    (market_data !! symbol = Some entry \/ entry = no_data_entry
     \/ exists q, entry = quote_entry q).
Proof.
  unfold symbol_data, bbind, now, bret.
  set (start := clock P (sdk_state st) - thirty_days).
  destruct (quote_loop_added symbol start timeframes st) as (n & Hn & Hc & Hr).
  assert (Hq : Forall (quote_query [symbol])
                 (map (fun tf => GetStockBars (bar_request symbol tf start)) (take n timeframes))).
  { apply Forall_forall. intros c Hin. apply list_elem_of_In, in_map_iff in Hin as (tf & <- & _).
    exists symbol, tf, start. split; [left; reflexivity | reflexivity]. }
  destruct (quote_loop P symbol start timeframes st) as [[entry|] st1]; cbn [fst snd] in *.
  - destruct Hr as (Hn1 & q & ->).
    eexists _, (quote_entry q). split; [exact Hc|]. split; [exact Hq|].
    split; [rewrite length_map, length_take; cbn in *; lia|].
    split; [apply lookup_insert_eq|].
    split; [intros k Hk; apply lookup_insert_ne; congruence|].
    right. right. eauto.
  - subst n.
    destruct (market_data !! symbol) as [old|] eqn:E; cbn [fst snd].
    + eexists _, old. split; [exact Hc|]. split; [exact Hq|].
      split; [rewrite length_map, length_take; cbn; lia|].
      split; [exact E|]. split; [reflexivity|]. left. reflexivity.
    + eexists _, no_data_entry. split; [exact Hc|]. split; [exact Hq|].
      split; [rewrite length_map, length_take; cbn; lia|].
      split; [apply lookup_insert_eq|].
      split; [intros k Hk; apply lookup_insert_ne; congruence|].
      right. left. reflexivity.
Qed.

Lemma quote_query_mono (l1 l2 : list text) (c : sdk_call) :
  (forall s, In s l1 -> In s l2) -> quote_query l1 c -> quote_query l2 c.
Proof. intros H (s & tf & start & Hin & ->). exists s, tf, start. auto. Qed.

Lemma symbols_data_spec (symbols : list text) (market_data : gmap text dict) (st : bstate P) :
  exists queries,
    calls (snd (symbols_data P symbols market_data st)) = calls st ++ queries /\
    Forall (quote_query symbols) queries /\
    (length symbols <= length queries <= 3 * length symbols)%nat /\
    (forall k entry,
        fst (symbols_data P symbols market_data st) !! k = Some entry ->
        market_data !! k = Some entry
        \/ (In k symbols /\ (entry = no_data_entry \/ exists q, entry = quote_entry q))) /\
    (forall k, is_Some (market_data !! k) \/ In k symbols ->
               is_Some (fst (symbols_data P symbols market_data st) !! k)).
Proof.
  revert market_data st. induction symbols as [|symbol rest IH]; intros market_data st.
  - exists []. cbn. rewrite app_nil_r. repeat split; auto; try lia.
    intros k [H|[]]. exact H.
  - rewrite get_market_data_unfold.
    destruct (symbol_data_spec symbol market_data st)
      as (q1 & e1 & Hc1 & Hq1 & Hn1 & Hl1 & Ho1 & He1).
    destruct (symbol_data P symbol market_data st) as [md1 st1]. cbn [fst snd] in *.
    destruct (IH md1 st1) as (q2 & Hc2 & Hq2 & Hn2 & Hk2 & Hs2).
    exists (q1 ++ q2). split; [rewrite Hc2, Hc1; symmetry; apply app_assoc|].
    split.
    { apply Forall_app. split.
      - eapply Forall_impl; [exact Hq1|]. intros c. apply quote_query_mono.
        intros s [<-|[]]. left. reflexivity.
      - eapply Forall_impl; [exact Hq2|]. intros c. apply quote_query_mono.
        intros s Hs. right. exact Hs. }
    split; [rewrite length_app; cbn [length]; lia|].
    split.
    + intros k entry Hk. destruct (Hk2 k entry Hk) as [Hmd1|[Hin Hshape]].
      * destruct (decide (k = symbol)) as [->|Hne].
        -- rewrite Hl1 in Hmd1. injection Hmd1 as <-.
           destruct He1 as [He1|He1]; [left; exact He1|].
           right. split; [left; reflexivity | exact He1].
        -- left. rewrite <- (Ho1 k Hne). exact Hmd1.
      * right. split; [right; exact Hin | exact Hshape].
    + intros k Hk. apply Hs2.
      destruct (decide (k = symbol)) as [->|Hne]; [left; rewrite Hl1; eauto|].
      destruct Hk as [Hk|[Hk|Hk]]; [left; rewrite (Ho1 k Hne); exact Hk | congruence | right; exact Hk].
Qed.

Lemma account_entry_spec (st : bstate P) :
  calls (snd (account_entry P st)) = calls st ++ [GetAccount] /\
  ((exists message, fst (account_entry P st) = [("error", VStr message)])
   \/ (exists equity cash buying_power status,
          fst (account_entry P st)
          = [("equity", VFloat equity); ("cash", VFloat cash);
             ("buying_power", VFloat buying_power); ("status", status)])).
Proof.
  unfold account_entry, bbind, bret. pose proof (call_get_account_added st) as H.
  destruct (call_get_account P st) as [[e|acct] st1]; cbn [fst snd] in *.
  - split; [exact H|]. left. eauto.
  - destruct (account_money P acct) as [e|[[equity cash] buying_power]]; cbn [fst snd].
    + split; [exact H|]. left. eauto.
    + split; [exact H|]. right. eauto 10.
Qed.

(** X9. The dictionary [get_market_data] returns has an entry for every
    requested symbol (other than a symbol spelt [account], whose entry the
    account entry replaces): the quote read off a bar, or the entry
    without a price that marks the stock as tradeable. It has an entry
    [account], which holds either the four account fields or only an
    [error] message, and it has no other key. *)
Theorem market_data_entries (symbols : list text) (st : bstate P) :
  let market_data := fst (get_market_data P symbols st) in
  (forall symbol, In symbol symbols -> symbol <> #"account" ->
     exists entry, market_data !! symbol = Some entry /\
                   (entry = no_data_entry \/ exists q, entry = quote_entry q))
  /\ (exists entry, market_data !! #"account" = Some entry /\
        ((exists message, entry = [("error", VStr message)])
         \/ (exists equity cash buying_power status,
                entry = [("equity", VFloat equity); ("cash", VFloat cash);
                         ("buying_power", VFloat buying_power); ("status", status)])))
  /\ (forall k, is_Some (market_data !! k) -> k = #"account" \/ In k symbols).
Proof.
  cbv zeta. unfold get_market_data, bbind, bret.
  destruct (symbols_data_spec symbols ∅ st) as (queries & _ & _ & _ & Hk & Hs).
  destruct (symbols_data P symbols ∅ st) as [md st1]. cbn [fst snd] in *.
  destruct (account_entry_spec st1) as [_ Hacc].
  destruct (account_entry P st1) as [entry st2]. cbn [fst snd] in *.
  split; [|split].
  - intros symbol Hin Hne. destruct (Hs symbol (or_intror Hin)) as [e He].
    exists e. rewrite lookup_insert_ne by congruence. split; [exact He|].
    destruct (Hk symbol e He) as [Hempty|[_ Hshape]]; [|exact Hshape].
    rewrite lookup_empty in Hempty. discriminate Hempty.
  - exists entry. split; [apply lookup_insert_eq | exact Hacc].
  - intros k [e He]. destruct (decide (k = #"account")) as [->|Hne]; [left; reflexivity|].
    right. rewrite lookup_insert_ne in He by congruence.
    destruct (Hk k e He) as [Hempty|[Hin _]]; [|exact Hin].
    rewrite lookup_empty in Hempty. discriminate Hempty.
Qed.

Lemma quote_queries_no_order (symbols : list text) (queries : list sdk_call) :
  Forall (quote_query symbols) queries -> orders_in queries = [].
Proof.
  induction 1 as [|c l (s & tf & start & _ & ->) _ IH]; [reflexivity | exact IH].
Qed.

Lemma get_market_data_added (symbols : list text) (st : bstate P) :
  exists queries,
    calls (snd (get_market_data P symbols st)) = calls st ++ queries ++ [GetAccount] /\
    Forall (quote_query symbols) queries /\
    (length symbols <= length queries <= 3 * length symbols)%nat.
Proof.
  unfold get_market_data, bbind, bret.
  destruct (symbols_data_spec symbols ∅ st) as (queries & Hc & Hq & Hn & _).
  destruct (symbols_data P symbols ∅ st) as [md st1]. cbn [fst snd] in *.
  destruct (account_entry_spec st1) as [Hacc _].
  destruct (account_entry P st1) as [entry st2]. cbn [fst snd] in *.
  exists queries. split; [rewrite Hacc, Hc; symmetry; apply app_assoc|].
  split; [exact Hq | exact Hn].
Qed.

(** X10. [get_market_data] only reads: its calls are queries for bars of
    the requested symbols, at least one and at most three for each symbol,
    followed by exactly one query for the account, which comes last; it
    never submits an order. *)
Theorem market_data_calls (symbols : list text) (st : bstate P) :
  exists queries,
    calls (snd (get_market_data P symbols st)) = calls st ++ queries ++ [GetAccount] /\
    Forall (quote_query symbols) queries /\
    (length symbols <= length queries <= 3 * length symbols)%nat /\
    orders_in (queries ++ [GetAccount]) = [].
Proof.
  destruct (get_market_data_added symbols st) as (queries & Hc & Hq & Hn).
  exists queries. split; [exact Hc|]. split; [exact Hq|]. split; [exact Hn|].
  rewrite orders_in_app, (quote_queries_no_order symbols queries Hq). reflexivity.
Qed.

End BrokerCoverage.

(** ** More on the brokerage client *)

Section ClientCoverage.
Import PyStr Client Orders.

Variable N : network.

Lemma configured_base_url (m : credentials) :
  is_configured m = true -> exists x u, base_url m = Some (x :: u).
Proof.
  unfold is_configured. intros H. apply andb_true_iff in H as [_ H].
  destruct (base_url m) as [[|x u]|]; try discriminate H. eauto.
Qed.

(** What an operation of a configured client that has its addresses does:
    one request, and an answer that is the sentinel unless the reply
    carries the status code of success. *)
Lemma run_with_urls (c : client) (op : operation) (st : cstate N) (u : text) :
  is_configured (account_manager c) = true ->
  own_urls c = Some (u ++ #"/v2/account", u ++ #"/v2/orders", u ++ #"/v2/positions") ->
  sent (snd (run N c op st)) = sent st ++ [request_of c u op]
  /\ net (snd (run N c op st)) = snd (send N (net st) (request_of c u op))
  /\ exists value,
       fst (run N c op st) = Returns value
       /\ match fst (send N (net st) (request_of c u op)) with
          | inl _ => value = sentinel N op
          | inr resp => success_code op (status_code resp) = false -> value = sentinel N op
          end.
Proof.
  intros Hconf Hurls.
  destruct op as [| |symbol|status limit|order_id|order_data|order_id|];
    unfold run, get_account, get_positions, get_position, get_orders, get_order,
      submit_order, cancel_order, cancel_all_orders, get_json,
      account_url, orders_url, positions_url, request_of, method_of, endpoint, op_query,
      success_code, sentinel;
    rewrite Hconf, Hurls; cbn [negb];
    try (destruct status as [[|x s]|]; cbn [truthy]);
    unfold cbind, request, print, cret;
    repeat step_client; cbn [fst snd sent net orb];
    (split; [reflexivity|]); (split; [reflexivity|]);
    eexists; (split; [reflexivity|]); try reflexivity; try discriminate; auto;
    intros Hcode; try (apply orb_false_iff in Hcode as [? ?]); congruence.
Qed.

Lemma new_client_urls (m : credentials) (x : ascii) (u : text) :
  base_url m = Some (x :: u) ->
  own_urls (new_client m)
  = Some ((x :: u) ++ #"/v2/account", (x :: u) ++ #"/v2/orders", (x :: u) ++ #"/v2/positions").
Proof. intros H. unfold new_client. cbn [own_urls]. rewrite H. reflexivity. Qed.

(** X11. Every operation of a client that was constructed from a
    configured account sends exactly one request: with the method and to
    the address of the operation under [base_url/v2], with the API key and
    secret of the account in its headers, and with the order as its body
    when it is [submit_order]. It lets no exception escape. *)
Theorem configured_client_request (m : credentials) (op : operation) (st : cstate N) :
  is_configured m = true ->
  exists u r value,
    base_url m = Some u /\
    sent (snd (run N (new_client m) op st)) = sent st ++ [r] /\
    verb r = method_of op /\
    url r = endpoint u op /\
    key_header r = api_key m /\
    secret_header r = api_secret m /\
    body r = match op with OpSubmitOrder order_data => Some order_data | _ => None end /\
    fst (run N (new_client m) op st) = Returns value.
Proof.
  intros Hconf. destruct (configured_base_url m Hconf) as (x & u & Hu).
  destruct (run_with_urls (new_client m) op st (x :: u) Hconf (new_client_urls m x u Hu))
    as (Hsent & _ & value & Hret & _).
  exists (x :: u), (request_of (new_client m) (x :: u) op), value.
  repeat match goal with |- _ /\ _ => split end;
    try reflexivity; assumption.
Qed.

(** X12. When the request of a configured client fails, because the
    transport raises an exception or because the reply carries another
    status code than the one the operation takes for success (200; 200 or
    201 for [submit_order]; 204 for [cancel_order]; 207 for
    [cancel_all_orders]), the operation returns its sentinel, [None] or
    [False]: no document is returned, and no exception, status code or
    body reaches the caller. *)
Theorem failed_request_gives_sentinel (m : credentials) (op : operation) (st : cstate N) :
  is_configured m = true ->
  exists u,
    base_url m = Some u /\
    match fst (send N (net st) (request_of (new_client m) u op)) with
    | inl _ => fst (run N (new_client m) op st) = Returns (sentinel N op)
    | inr resp =>
        success_code op (status_code resp) = false ->
        fst (run N (new_client m) op st) = Returns (sentinel N op)
    end.
Proof.
  intros Hconf. destruct (configured_base_url m Hconf) as (x & u & Hu).
  destruct (run_with_urls (new_client m) op st (x :: u) Hconf (new_client_urls m x u Hu))
    as (_ & _ & value & Hret & Hvalue).
  exists (x :: u). split; [exact Hu|].
  destruct (fst (send N (net st) (request_of (new_client m) (x :: u) op))) as [e|resp].
  - rewrite Hret, Hvalue. reflexivity.
  - intros Hcode. rewrite Hret, (Hvalue Hcode). reflexivity.
Qed.

(** X13. A client that was constructed while the account had no base URL
    has no addresses; once its account manager has been configured, three
    of its operations ([get_position], [get_order], [cancel_order]) put
    their address together before the [try] and let the [AttributeError]
    escape, while the other five catch it and return their sentinel. In
    neither case is a request sent. *)
Theorem stale_client_raises (m m' : credentials) (op : operation) (st : cstate N) :
  truthy (base_url m) = false ->
  is_configured m' = true ->
  sent (snd (run N (reconfigured (new_client m) m') op st)) = sent st
  /\ if builds_url_first op
     then exists e, fst (run N (reconfigured (new_client m) m') op st) = Raises e
                    /\ exn_kind e = "AttributeError"
     else fst (run N (reconfigured (new_client m) m') op st) = Returns (sentinel N op).
Proof.
  intros Hurl Hconf.
  assert (Hnone : own_urls (reconfigured (new_client m) m') = None).
  { unfold reconfigured, new_client. cbn [own_urls].
    destruct (base_url m) as [[|x u]|]; [reflexivity | discriminate Hurl | reflexivity]. }
  assert (Hacc : account_manager (reconfigured (new_client m) m') = m') by reflexivity.
  destruct op; unfold run, get_account, get_positions, get_position, get_orders, get_order,
      submit_order, cancel_order, cancel_all_orders, get_json,
      account_url, orders_url, positions_url;
    rewrite Hacc, Hconf, Hnone; cbn; (split; [reflexivity|]); eauto.
Qed.

End ClientCoverage.

Section ClientExamples.
Import PyStr Client Orders.

Lemma configured_client_request_witness :
  exists u r value,
    base_url some_credentials = Some u /\
    sent (snd (run offline (new_client some_credentials) (OpGetPosition #"AAPL") fresh))
    = sent fresh ++ [r] /\
    verb r = method_of (OpGetPosition #"AAPL") /\
    url r = endpoint u (OpGetPosition #"AAPL") /\
    key_header r = api_key some_credentials /\
    secret_header r = api_secret some_credentials /\
    body r = None /\
    fst (run offline (new_client some_credentials) (OpGetPosition #"AAPL") fresh)
    = Returns value.
Proof.
  apply (configured_client_request offline some_credentials (OpGetPosition #"AAPL") fresh).
  reflexivity.
Defined.

Lemma failed_request_gives_sentinel_witness :
  exists u,
    base_url some_credentials = Some u /\
    match fst (send offline (net fresh) (request_of (new_client some_credentials) u OpCancelAllOrders)) with
    | inl _ =>
        fst (run offline (new_client some_credentials) OpCancelAllOrders fresh)
        = Returns (sentinel offline OpCancelAllOrders)
    | inr resp =>
        success_code OpCancelAllOrders (status_code resp) = false ->
        fst (run offline (new_client some_credentials) OpCancelAllOrders fresh)
        = Returns (sentinel offline OpCancelAllOrders)
    end.
Proof.
  apply (failed_request_gives_sentinel offline some_credentials OpCancelAllOrders fresh).
  reflexivity.
Defined.

Lemma stale_client_raises_witness :
  sent (snd (run offline (reconfigured (new_client no_credentials) some_credentials)
               (OpGetOrder #"42") fresh)) = sent fresh
  /\ if builds_url_first (OpGetOrder #"42")
     then exists e,
         fst (run offline (reconfigured (new_client no_credentials) some_credentials)
                (OpGetOrder #"42") fresh) = Raises e
         /\ exn_kind e = "AttributeError"
     else fst (run offline (reconfigured (new_client no_credentials) some_credentials)
                 (OpGetOrder #"42") fresh)
          = Returns (sentinel offline (OpGetOrder #"42")).
Proof.
  apply (stale_client_raises offline no_credentials some_credentials (OpGetOrder #"42") fresh);
    reflexivity.
Defined.

End ClientExamples.

(** ** More on the order manager *)

Section OrderCoverage.
Import PyStr Client Orders.

Variable N : network.
Variable str_num : Q -> text.

Lemma validate_cases symbol qty notional (st : cstate N) :
  if sizes_pass symbol qty notional
  then validate_order_parameters N symbol qty notional st = (true, st)
  else exists line,
      validate_order_parameters N symbol qty notional st
      = (false, CState (net st) (sent st) (console st ++ [line])).
Proof.
  unfold sizes_pass, validate_order_parameters.
  destruct symbol as [|x symbol]; cbn [Extractor.nonempty andb]; [eexists; reflexivity|].
  destruct st as [w s l].
  destruct qty as [q|], notional as [n|]; try (eexists; reflexivity).
  - destruct (nonpositive q); cbn [negb]; [eexists; reflexivity | reflexivity].
  - destruct (nonpositive n); cbn [negb]; [eexists; reflexivity | reflexivity].
Qed.

Lemma prepare_cases symbol side qty notional tif (st : cstate N) :
  if sizes_pass symbol qty notional
  then exists order,
      _prepare_order_base N str_num symbol side qty notional tif st = (Some order, st)
      /\ forall key,
           order !! key
           = if String.eqb key "symbol" then Some (VStr (upper symbol))
             else if String.eqb key "side" then Some (VStr (side_value side))
             else if String.eqb key "time_in_force" then Some (VStr (tif_value tif))
             else if String.eqb key "qty" then option_map (fun q => VStr (str_num q)) qty
             else if String.eqb key "notional" then
               option_map (fun n => VStr (str_num n)) notional
             else None
  else exists line,
      _prepare_order_base N str_num symbol side qty notional tif st
      = (None, CState (net st) (sent st) (console st ++ [line])).
Proof.
  unfold _prepare_order_base, cbind.
  pose proof (validate_cases symbol qty notional st) as H.
  destruct (sizes_pass symbol qty notional) eqn:Hp.
  - rewrite H. cbn [negb].
    unfold sizes_pass in Hp. apply andb_true_iff in Hp as [_ Hp].
    destruct qty as [q|], notional as [n|]; try discriminate Hp;
      (eexists; split; [reflexivity|]); intros key; cbn [option_map]; settle_lookup key.
  - destruct H as (line & ->). exists line. reflexivity.
Qed.


Lemma bad_price_positive (p : option Q) : bad_price p = negb (positive p).
Proof. destruct p as [q|]; [|reflexivity]. cbn. rewrite negb_involutive. reflexivity. Qed.

(** X14. A call of [market_order], [limit_order], [stop_order] or
    [stop_limit_order] whose arguments fail a check (no symbol; both or
    neither of quantity and notional amount; a size that is not positive;
    a limit or stop price that is missing or not positive) returns [None],
    sends no request, leaves the network untouched and prints exactly one
    line. *)
Theorem rejected_order_sends_nothing (c : client) (call : order_call) (st : cstate N) :
  acceptable call = false ->
  fst (place N str_num c call st) = Returns RNone
  /\ sent (snd (place N str_num c call st)) = sent st
  /\ net (snd (place N str_num c call st)) = net st
  /\ exists line, console (snd (place N str_num c call st)) = console st ++ [line].
Proof.
  unfold acceptable.
  destruct call as [symbol side qty notional tif ext
                   |symbol side limit qty notional tif ext
                   |symbol side stop qty notional tif
                   |symbol side stop limit qty notional tif];
    cbn [call_symbol call_qty call_notional call_stop call_limit place];
    unfold market_order, limit_order, stop_order, stop_limit_order, cbind;
    pose proof (prepare_cases symbol side qty notional tif st) as H;
    destruct (sizes_pass symbol qty notional); cbn [andb];
    try (intros _; destruct H as (line & ->); cbn; eauto 10).
  - discriminate.
  - destruct H as (order & -> & _). rewrite bad_price_positive.
    destruct (positive limit); [discriminate|]. intros _. cbn. eauto 10.
  - destruct H as (order & -> & _). rewrite bad_price_positive.
    destruct (positive stop); [discriminate|]. intros _. cbn. eauto 10.
  - destruct H as (order & -> & _). rewrite !bad_price_positive.
    destruct (positive stop); cbn [andb negb]; [|intros _; cbn; eauto 10].
    destruct (positive limit); [discriminate|]. intros _. cbn. eauto 10.
Qed.

(** An acceptable call hands [submit_order] an order with the fields of
    the call, having printed nothing. *)
Lemma accepted_order_body (c : client) (call : order_call) (st : cstate N) :
  acceptable call = true ->
  exists order,
    place N str_num c call st = submit_order N c order st
    /\ forall key, order !! key = posted_field str_num call key.
Proof.
  unfold acceptable.
  destruct call as [symbol side qty notional tif ext
                   |symbol side limit qty notional tif ext
                   |symbol side stop qty notional tif
                   |symbol side stop limit qty notional tif];
    cbn [call_symbol call_qty call_notional call_stop call_limit place];
    unfold market_order, limit_order, stop_order, stop_limit_order, cbind;
    pose proof (prepare_cases symbol side qty notional tif st) as H;
    (destruct (sizes_pass symbol qty notional); [|discriminate]);
    destruct H as (base & -> & Hbase); cbn [andb]; rewrite ?bad_price_positive.
  - intros _. eexists. split; [reflexivity|].
    intros key. destruct ext; settle_field key Hbase.
  - destruct limit as [limit|]; [|discriminate].
    destruct (positive (Some limit)); [|discriminate]. intros _. cbn [negb].
    eexists. split; [reflexivity|].
    intros key. destruct ext; settle_field key Hbase.
  - destruct stop as [stop|]; [|discriminate].
    destruct (positive (Some stop)); [|discriminate]. intros _. cbn [negb].
    eexists. split; [reflexivity|].
    intros key. settle_field key Hbase.
  - destruct stop as [stop|]; [|discriminate].
    destruct (positive (Some stop)); [|discriminate]. cbn [andb negb].
    destruct limit as [limit|]; [|discriminate].
    destruct (positive (Some limit)); [|discriminate]. intros _. cbn [negb].
    eexists. split; [reflexivity|].
    intros key. settle_field key Hbase.
Qed.

(** X15. A call whose arguments pass the checks, made through a client of
    a configured account, sends exactly one request: a POST to
    [base_url/v2/orders] whose body holds the symbol in upper case, the
    side, the time in force, the type of the method called, the one size
    that was given, the limit price for limit and stop-limit orders, the
    stop price for stop and stop-limit orders, [extended_hours] only when
    it was asked of a market or limit order, and no other field. *)
Theorem accepted_order_posted (m : credentials) (call : order_call) (st : cstate N) :
  is_configured m = true ->
  acceptable call = true ->
  exists u r order,
    base_url m = Some u /\
    sent (snd (place N str_num (new_client m) call st)) = sent st ++ [r] /\
    verb r = POST /\
    url r = u ++ #"/v2/orders" /\
    body r = Some order /\
    forall key, order !! key = posted_field str_num call key.
Proof.
  intros Hconf Hacc. destruct (configured_base_url m Hconf) as (x & u & Hu).
  destruct (accepted_order_body (new_client m) call st Hacc) as (order & -> & Hfields).
  destruct (run_with_urls N (new_client m) (OpSubmitOrder order) st (x :: u) Hconf
              (new_client_urls m x u Hu)) as (Hsent & _).
  exists (x :: u), (request_of (new_client m) (x :: u) (OpSubmitOrder order)), order.
  split; [exact Hu|]. split; [exact Hsent|].
  split; [reflexivity|]. split; [reflexivity|]. split; [reflexivity | exact Hfields].
Qed.

End OrderCoverage.

Section OrderExamples.
Import PyStr Client Orders.

Lemma rejected_order_sends_nothing_witness :
  fst (place offline (fun _ => #"1") (new_client some_credentials)
         (LimitCall #"AAPL" BUY (Some 0%Q) (Some 1%Q) None DAY false) fresh)
  = Returns RNone
  /\ sent (snd (place offline (fun _ => #"1") (new_client some_credentials)
                  (LimitCall #"AAPL" BUY (Some 0%Q) (Some 1%Q) None DAY false) fresh))
     = sent fresh
  /\ net (snd (place offline (fun _ => #"1") (new_client some_credentials)
                 (LimitCall #"AAPL" BUY (Some 0%Q) (Some 1%Q) None DAY false) fresh))
     = net fresh
  /\ exists line,
      console (snd (place offline (fun _ => #"1") (new_client some_credentials)
                      (LimitCall #"AAPL" BUY (Some 0%Q) (Some 1%Q) None DAY false) fresh))
      = console fresh ++ [line].
Proof.
  apply (rejected_order_sends_nothing offline (fun _ => #"1") (new_client some_credentials)
           (LimitCall #"AAPL" BUY (Some 0%Q) (Some 1%Q) None DAY false) fresh).
  reflexivity.
Defined.

Lemma accepted_order_posted_witness :
  exists u r order,
    base_url some_credentials = Some u /\
    sent (snd (place offline (fun _ => #"1") (new_client some_credentials)
                 (StopLimitCall #"msft" SELL (Some 2%Q) (Some 3%Q) None (Some 1%Q) GTC) fresh))
    = sent fresh ++ [r] /\
    verb r = POST /\
    url r = u ++ #"/v2/orders" /\
    body r = Some order /\
    forall key,
      order !! key
      = posted_field (fun _ => #"1")
          (StopLimitCall #"msft" SELL (Some 2%Q) (Some 3%Q) None (Some 1%Q) GTC) key.
Proof.
  apply (accepted_order_posted offline (fun _ => #"1") some_credentials
           (StopLimitCall #"msft" SELL (Some 2%Q) (Some 3%Q) None (Some 1%Q) GTC) fresh);
    reflexivity.
Defined.

End OrderExamples.

(** ** The configuration manager and its files *)

Section StoreCoverage.
Import Config Store.

Variable E D : bytes -> bytes -> bytes.
Variable key : bytes.

Hypothesis aes_inverse :
  forall b, length b = block_size -> length (E key b) = block_size /\ D key (E key b) = b.
Hypothesis key_valid : valid_key key = true.

Lemma utf8_encode_length (s : ustr) (b : bytes) :
  utf8_encode s = Some b -> (length s <= length b)%nat.
Proof.
  revert b. induction s as [|cp s IH]; intros b; cbn [utf8_encode].
  - intros [= <-]. reflexivity.
  - destruct (encode_point cp) as [bc|] eqn:Ec; [|discriminate].
    destruct (utf8_encode s) as [bs|]; [|discriminate].
    intros [= <-]. rewrite length_app. specialize (IH bs eq_refl).
    assert (1 <= length bc)%nat; [|cbn [length]; lia].
    unfold encode_point in Ec.
    repeat match type of Ec with
      | (if ?c then _ else _) = _ => destruct c
      end; try discriminate Ec; injection Ec as <-; cbn [length]; lia.
Qed.

Lemma b64encode_length (data : bytes) : (length data <= length (b64encode data))%nat.
Proof.
  induction data as [|a|a b|a b c rest IH] using triple_ind; cbn [b64encode length];
    try lia.
  rewrite length_app. cbn [length]. lia.
Qed.

Lemma concat_length_blocks (bs : list bytes) :
  Forall (fun b => length b = block_size) bs ->
  length (concat bs) = (block_size * length bs)%nat.
Proof.
  induction 1 as [|b bs Hb _ IH]; [cbn; lia|].
  cbn [concat length]. rewrite length_app, Hb, IH. lia.
Qed.

Lemma cbc_encrypt_count (F : bytes -> bytes) (prev : bytes) (plain : list bytes) :
  length (cbc_encrypt F prev plain) = length plain.
Proof.
  revert prev. induction plain as [|p plain IH]; intros prev; [reflexivity|].
  cbn [cbc_encrypt length]. rewrite IH. reflexivity.
Qed.

(** Encryption succeeds on what UTF-8 can encode; its result is longer
    than the string and is decrypted to the string. *)
Lemma encrypt_value_spec (iv : bytes) (value : ustr) :
  length iv = block_size ->
  is_Some (utf8_encode value) ->
  exists encrypted,
    _encrypt_value E key iv value = Some encrypted
    /\ _decrypt_value D key encrypted = Some value
    /\ (length value < length encrypted)%nat.
Proof.
  intros Hiv [data Hdata].
  pose proof (pad_length data) as Hpad.
  destruct (blocks_of_spec (length (pad data)) (pad data) (Nat.le_refl _) Hpad) as [HF HC].
  fold (blocks (pad data)) in HF, HC.
  pose proof (cbc_encrypt_blocks (E key) (fun b Hb => proj1 (aes_inverse b Hb)) iv
                (blocks (pad data)) Hiv HF) as HE.
  set (enc := concat (cbc_encrypt (E key) iv (blocks (pad data)))).
  assert (Henc : aes_cbc_encrypt E key iv (pad data) = Some enc).
  { unfold aes_cbc_encrypt. rewrite key_valid, Hiv, Hpad. reflexivity. }
  assert (Hdec : aes_cbc_decrypt D key iv enc = Some (pad data)).
  { unfold aes_cbc_decrypt. rewrite key_valid, Hiv.
    unfold enc. rewrite (concat_blocks_length _ HE). cbn [negb Nat.eqb].
    rewrite (blocks_concat _ HE).
    rewrite (cbc_decrypt_encrypt (E key) (D key)
               (fun b Hb => proj1 (aes_inverse b Hb)) (fun b Hb => proj2 (aes_inverse b Hb))
               iv (blocks (pad data)) Hiv HF).
    rewrite HC. reflexivity. }
  assert (Hlen : length enc = length (pad data)).
  { unfold enc. rewrite (concat_length_blocks _ HE), cbc_encrypt_count.
    rewrite <- (concat_length_blocks _ HF), HC. reflexivity. }
  pose proof (b64encode_ascii (iv ++ enc)) as Hascii.
  exists (map val (b64encode (iv ++ enc))). split; [|split].
  - unfold _encrypt_value. rewrite Hdata. cbn. rewrite Henc. cbn.
    apply utf8_decode_ascii. exact Hascii.
  - unfold _decrypt_value.
    rewrite (utf8_encode_ascii _ Hascii). cbn.
    rewrite b64decode_encode. cbn.
    change 16%nat with block_size. rewrite <- Hiv.
    rewrite take_app_length, drop_app_length.
    rewrite Hdec. cbn. rewrite unpad_pad. cbn.
    apply utf8_decode_encode. exact Hdata.
  - rewrite length_map.
    pose proof (b64encode_length (iv ++ enc)) as Hb.
    rewrite length_app, Hlen in Hb.
    pose proof (utf8_encode_length value data Hdata) as Hu.
    assert (Hp : (length data <= length (pad data))%nat)
      by (unfold pad; rewrite length_app; lia).
    unfold block_size in Hiv. clear -Hb Hu Hp Hiv. lia.
Qed.

Variable d : disk.
Hypothesis key_present : key_file d = Some key.

(** One entry, written and read back. *)
Lemma entry_round_trip (iv : bytes) (name : string) (s : settings) (c : cell) :
  length iv = block_size ->
  storable c ->
  s !! name = Some c ->
  exists stored,
    encrypt_entry E d iv name s = Some (<[name := stored]> s)
    /\ stored_as E key iv c stored
    /\ forall d' s',
         key_file d' = Some key ->
         s' !! name = Some stored ->
         exists back,
           decrypt_entry D d' name s' = Some back
           /\ back !! name = Some c
           /\ forall k, k <> name -> back !! k = s' !! k.
Proof.
  intros Hiv Hst Hs. unfold encrypt_entry. rewrite Hs.
  assert (Hfalsy : cell_truthy c = false ->
            exists stored,
              Some s = Some (<[name := stored]> s) /\ stored_as E key iv c stored /\
              forall d' s', key_file d' = Some key -> s' !! name = Some stored ->
                exists back, decrypt_entry D d' name s' = Some back
                             /\ back !! name = Some c
                             /\ forall k, k <> name -> back !! k = s' !! k).
  { intros Hf. exists c. split; [f_equal; symmetry; apply insert_id; exact Hs|].
    split; [destruct c as [|[|x v]|t]; first [reflexivity | discriminate Hf]|].
    intros d' s' _ Hs'. exists s'. unfold decrypt_entry. rewrite Hs', Hf. auto. }
  destruct c as [|[|x v]|t]; cbn [cell_truthy]; try (apply Hfalsy; reflexivity).
  - destruct (encrypt_value_spec iv (x :: v) Hiv Hst) as (e & He & Hd & Hl).
    unfold _get_encryption_key. rewrite key_present. cbn [mbind option_bind].
    rewrite He. cbn [mbind option_bind].
    exists (CStr e). split; [reflexivity|]. split; [exists e; auto|].
    intros d' s' Hk' Hs'. unfold decrypt_entry, _get_encryption_key.
    rewrite Hs', Hk'.
    destruct e as [|y e]; [cbn in Hl; lia|]. cbn [cell_truthy mbind option_bind].
    rewrite Hd. eexists. split; [reflexivity|].
    split; [apply lookup_insert_eq|].
    intros k Hk. apply lookup_insert_ne. congruence.
  - cbn in Hst. subst t. apply Hfalsy. reflexivity.
Qed.

Lemma stored_differs (iv : bytes) (x : N) (v : ustr) (stored : cell) :
  length iv = block_size ->
  is_Some (utf8_encode (x :: v)) ->
  stored_as E key iv (CStr (x :: v)) stored -> stored <> CStr (x :: v).
Proof.
  intros Hiv Hst (e & He & ->) [= Heq].
  destruct (encrypt_value_spec iv (x :: v) Hiv Hst) as (e' & He' & _ & Hl).
  rewrite He in He'. injection He' as <-. rewrite Heq in Hl. lia.
Qed.

(** What [set_alpaca_credentials] does, step by step. *)
Lemma set_credentials_steps (iv_key iv_secret : bytes) (api_key api_secret : cell)
    (paper : bool) (config : document) :
  length iv_key = block_size ->
  length iv_secret = block_size ->
  storable api_key ->
  storable api_secret ->
  exists k' s' s2,
    set_alpaca_credentials E iv_key iv_secret api_key api_secret paper config d
    = (Some tt, <["alpaca" := s2]> config, write_config (<["alpaca" := s2]> config) d)
    /\ stored_as E key iv_key api_key k'
    /\ stored_as E key iv_secret api_secret s'
    /\ s2 !! "api_key" = Some k'
    /\ s2 !! "api_secret" = Some s'
    /\ s2 !! "base_url" = Some (CStr (points (if paper then paper_url else live_url)))
    /\ get_alpaca_credentials
         (load_config D (write_config (<["alpaca" := s2]> config) d))
       = (api_key, api_secret, CStr (points (if paper then paper_url else live_url)))
    /\ forall name, name <> "alpaca" ->
         load_config D (write_config (<["alpaca" := s2]> config) d) !! name = config !! name.
Proof.
  intros Hik His Hsk Hss.
  set (url := CStr (points (if paper then paper_url else live_url))).
  set (s0 := <["base_url" := url]>
               (<["api_secret" := api_secret]>
                  (<["api_key" := api_key]> (default ∅ (config !! "alpaca"))))).
  assert (H0k : s0 !! "api_key" = Some api_key).
  { unfold s0. rewrite !lookup_insert_ne by done. apply lookup_insert_eq. }
  destruct (entry_round_trip iv_key "api_key" s0 api_key Hik Hsk H0k)
    as (k' & He1 & Hk' & Hbk).
  set (s1 := <["api_key" := k']> s0) in *.
  assert (H1s : s1 !! "api_secret" = Some api_secret).
  { unfold s1, s0. rewrite !lookup_insert_ne by done. apply lookup_insert_eq. }
  destruct (entry_round_trip iv_secret "api_secret" s1 api_secret His Hss H1s)
    as (s' & He2 & Hs' & Hbs).
  set (s2 := <["api_secret" := s']> s1) in *.
  exists k', s', s2.
  assert (H2k : s2 !! "api_key" = Some k').
  { unfold s2, s1. rewrite lookup_insert_ne by done. apply lookup_insert_eq. }
  assert (H2s : s2 !! "api_secret" = Some s') by apply lookup_insert_eq.
  assert (H2u : s2 !! "base_url" = Some url).
  { unfold s2, s1, s0. rewrite !lookup_insert_ne by done. apply lookup_insert_eq. }
  split.
  { unfold set_alpaca_credentials, save_config. cbv zeta. fold url. fold s0.
    rewrite lookup_insert_eq, He1, He2, insert_insert_eq. reflexivity. }
  split; [exact Hk'|]. split; [exact Hs'|].
  split; [exact H2k|]. split; [exact H2s|]. split; [exact H2u|].
  set (d' := write_config (<["alpaca" := s2]> config) d).
  assert (Hkd : key_file d' = Some key) by exact key_present.
  destruct (Hbk d' s2 Hkd H2k) as (b1 & Hd1 & Hb1k & Hb1o).
  assert (Hb1s : b1 !! "api_secret" = Some s') by (rewrite Hb1o by done; exact H2s).
  destruct (Hbs d' b1 Hkd Hb1s) as (b2 & Hd2 & Hb2s & Hb2o).
  assert (Hload : load_config D d' = <["alpaca" := b2]> (<["alpaca" := s2]> config)).
  { unfold load_config. cbn [d' write_config config_file].
    rewrite lookup_insert_eq. fold d'. rewrite Hd1, Hd2. reflexivity. }
  split.
  - rewrite Hload. unfold get_alpaca_credentials. rewrite lookup_insert_eq.
    rewrite Hb2s, (Hb2o "api_key") by done. rewrite Hb1k.
    rewrite (Hb2o "base_url"), (Hb1o "base_url") by done. rewrite H2u. reflexivity.
  - intros name Hname. rewrite Hload. rewrite !lookup_insert_ne by congruence. reflexivity.
Qed.

(** X16. Credentials written by [set_alpaca_credentials] are read back by
    a manager constructed afterwards on the same files: the key and the
    secret (strings that UTF-8 can encode, or values that count as false,
    which are stored as they are) and the base URL of the environment
    chosen come back as they were given, the other sections of the
    configuration are kept, and the key file is left as it was. *)
Theorem saved_credentials_load (iv_key iv_secret fresh_key : bytes)
    (api_key api_secret : cell) (paper : bool) (config : document) :
  length iv_key = block_size ->
  length iv_secret = block_size ->
  storable api_key ->
  storable api_secret ->
  let result :=
    set_alpaca_credentials E iv_key iv_secret api_key api_secret paper config d in
  result.1.1 = Some tt
  /\ key_file result.2 = Some key
  /\ get_alpaca_credentials (new_manager D fresh_key result.2).1
     = (api_key, api_secret, CStr (points (if paper then paper_url else live_url)))
  /\ forall name, name <> "alpaca" ->
       (new_manager D fresh_key result.2).1 !! name = config !! name.
Proof.
  intros Hik His Hsk Hss.
  destruct (set_credentials_steps iv_key iv_secret api_key api_secret paper config
              Hik His Hsk Hss) as (k' & s' & s2 & -> & _ & _ & _ & _ & _ & Hget & Hother).
  cbv zeta. cbn [fst snd].
  assert (Hnew : (new_manager D fresh_key (write_config (<["alpaca" := s2]> config) d)).1
                 = load_config D (write_config (<["alpaca" := s2]> config) d)).
  { unfold new_manager. cbn [write_config key_file]. rewrite key_present. reflexivity. }
  rewrite Hnew. split; [reflexivity|]. split; [exact key_present|].
  split; [exact Hget | exact Hother].
Qed.

(** X17. After [set_alpaca_credentials] has returned, the configuration
    the manager holds in memory is the one it wrote to the file: the
    section [alpaca] of the copy that [save_config] encrypts is the
    section of the configuration itself, so [get_alpaca_credentials] of
    the same manager now returns the encrypted texts in place of a
    non-empty key and secret, and they differ from the strings that were
    passed in. *)
Theorem saved_credentials_in_memory (iv_key iv_secret : bytes)
    (api_key api_secret : cell) (paper : bool) (config : document) :
  length iv_key = block_size ->
  length iv_secret = block_size ->
  storable api_key ->
  storable api_secret ->
  let result :=
    set_alpaca_credentials E iv_key iv_secret api_key api_secret paper config d in
  config_file result.2 = Some (Some result.1.2)
  /\ exists k' s',
       get_alpaca_credentials result.1.2
       = (k', s', CStr (points (if paper then paper_url else live_url)))
       /\ stored_as E key iv_key api_key k'
       /\ stored_as E key iv_secret api_secret s'
       /\ (cell_truthy api_key = true -> k' <> api_key)
       /\ (cell_truthy api_secret = true -> s' <> api_secret).
Proof.
  intros Hik His Hsk Hss.
  destruct (set_credentials_steps iv_key iv_secret api_key api_secret paper config
              Hik His Hsk Hss) as (k' & s' & s2 & -> & Hk' & Hs' & H2k & H2s & H2u & _).
  cbv zeta. cbn [fst snd]. split; [reflexivity|].
  exists k', s'. split.
  { unfold get_alpaca_credentials. rewrite lookup_insert_eq, H2k, H2s, H2u. reflexivity. }
  split; [exact Hk'|]. split; [exact Hs'|]. split.
  - destruct api_key as [|[|x v]|t]; cbn; try discriminate.
    + intros _. apply (stored_differs iv_key x v k' Hik Hsk Hk').
    + cbn in Hsk. subst t. discriminate.
  - destruct api_secret as [|[|x v]|t]; cbn; try discriminate.
    + intros _. apply (stored_differs iv_secret x v s' His Hss Hs').
    + cbn in Hss. subst t. discriminate.
Qed.

End StoreCoverage.

Section StoreExamples.
Import Config Store.

Lemma toy_cipher_inverse (b : bytes) :
  length b = block_size ->
  length (toy_cipher toy_key b) = block_size /\ toy_cipher toy_key (toy_cipher toy_key b) = b.
Proof.
  intros Hb. unfold toy_cipher. split; [rewrite length_rev; exact Hb | apply rev_involutive].
Qed.

Lemma saved_credentials_load_witness :
  let result :=
    set_alpaca_credentials toy_cipher toy_iv toy_iv (CStr toy_secret) (CStr []) true ∅
      toy_disk in
  result.1.1 = Some tt
  /\ key_file result.2 = Some toy_key
  /\ get_alpaca_credentials (new_manager toy_cipher [] result.2).1
     = (CStr toy_secret, CStr [], CStr (points paper_url))
  /\ forall name, name <> "alpaca" ->
       (new_manager toy_cipher [] result.2).1 !! name = (∅ : document) !! name.
Proof.
  apply (saved_credentials_load toy_cipher toy_cipher toy_key toy_cipher_inverse eq_refl
           toy_disk eq_refl toy_iv toy_iv [] (CStr toy_secret) (CStr []) true ∅).
  - reflexivity.
  - reflexivity.
  - eexists. vm_compute. reflexivity.
  - eexists. reflexivity.
Defined.

Lemma saved_credentials_in_memory_witness :
  let result :=
    set_alpaca_credentials toy_cipher toy_iv toy_iv (CStr toy_secret) (CStr toy_secret)
      false ∅ toy_disk in
  config_file result.2 = Some (Some result.1.2)
  /\ exists k' s',
       get_alpaca_credentials result.1.2 = (k', s', CStr (points live_url))
       /\ stored_as toy_cipher toy_key toy_iv (CStr toy_secret) k'
       /\ stored_as toy_cipher toy_key toy_iv (CStr toy_secret) s'
       /\ (cell_truthy (CStr toy_secret) = true -> k' <> CStr toy_secret)
       /\ (cell_truthy (CStr toy_secret) = true -> s' <> CStr toy_secret).
Proof.
  apply (saved_credentials_in_memory toy_cipher toy_cipher toy_key toy_cipher_inverse eq_refl
           toy_disk eq_refl toy_iv toy_iv (CStr toy_secret) (CStr toy_secret) false ∅).
  - reflexivity.
  - reflexivity.
  - eexists. vm_compute. reflexivity.
  - eexists. vm_compute. reflexivity.
Defined.

End StoreExamples.

Section DecryptCoverage.
Import Config Store.

(** X18. [_decrypt_value] gives a string back only for a text that
    base64-decodes to at least 32 bytes, a whole number of blocks of 16
    (the IV and at least one block of data), under a key of 16, 24 or 32
    bytes; for everything else, the empty text included, it returns
    [None], whatever the block cipher is. *)
Theorem decrypt_needs_two_blocks (D : bytes -> bytes -> bytes) (key : bytes)
    (encrypted_value plain : ustr) :
  _decrypt_value D key encrypted_value = Some plain ->
  valid_key key = true
  /\ exists encoded raw,
       utf8_encode encrypted_value = Some encoded
       /\ b64decode encoded = Some raw
       /\ (32 <= length raw)%nat
       /\ (length raw mod 16 = 0)%nat.
Proof.
  unfold _decrypt_value. intros H.
  destruct (utf8_encode encrypted_value) as [encoded|] eqn:Hu; [|discriminate H]. cbn in H.
  destruct (b64decode encoded) as [raw|] eqn:Hb; [|discriminate H]. cbn in H.
  unfold aes_cbc_decrypt in H.
  destruct (valid_key key); [|discriminate H]. cbn [negb] in H.
  destruct (length (take 16 raw) =? block_size)%nat eqn:Hiv; [|discriminate H].
  cbn [negb] in H.
  destruct (length (drop 16 raw) mod block_size =? 0)%nat eqn:Hdata; [|discriminate H].
  cbn [negb] in H. cbn in H.
  apply Nat.eqb_eq in Hiv, Hdata. rewrite length_take in Hiv. rewrite length_drop in Hdata.
  unfold block_size in *.
  split; [reflexivity|]. exists encoded, raw.
  split; [reflexivity|]. split; [exact Hb|].
  assert (Hne : drop 16 raw <> []).
  { intros Hnil. rewrite Hnil in H. cbn in H. discriminate H. }
  assert (Hlen : (16 < length raw)%nat).
  { destruct (Nat.le_gt_cases (length raw) 16) as [Hle|Hgt]; [|exact Hgt].
    exfalso. apply Hne. apply drop_ge. exact Hle. }
  pose proof (Nat.div_mod (length raw - 16) 16 ltac:(discriminate)) as Hd.
  rewrite Hdata in Hd.
  set (q := ((length raw - 16) / 16)%nat) in *.
  split.
  - destruct q; lia.
  - replace (length raw) with (0 + (q + 1) * 16)%nat by lia.
    apply Nat.Div0.mod_add.
Qed.

Lemma decrypt_needs_two_blocks_witness :
  valid_key toy_key = true
  /\ exists encoded raw,
       utf8_encode (default [] (_encrypt_value toy_cipher toy_key toy_iv toy_secret))
       = Some encoded
       /\ b64decode encoded = Some raw
       /\ (32 <= length raw)%nat
       /\ (length raw mod 16 = 0)%nat.
Proof.
  apply (decrypt_needs_two_blocks toy_cipher toy_key
           (default [] (_encrypt_value toy_cipher toy_key toy_iv toy_secret)) toy_secret).
  vm_compute. reflexivity.
Defined.

End DecryptCoverage.

(** ** Configuring the account *)

Section FormatFacts.
Import PyStr Regex Client Account.

Lemma char_like_range (lo hi : ascii) :
  char_like plain_flags (Cls (Range lo hi)) (in_range (code lo) (code hi)).
Proof. split; reflexivity. Qed.

Lemma char_like_alt (r1 r2 : regex) (p1 p2 : ascii -> bool) :
  char_like plain_flags r1 p1 -> char_like plain_flags r2 p2 ->
  char_like plain_flags (Alt r1 r2) (fun c => p1 c || p2 c).
Proof.
  intros [N1 C1] [N2 C2]. split.
  - intros caps k. cbn [rmatch]. rewrite N1, N2. reflexivity.
  - intros x s caps k. cbn [rmatch]. rewrite C1, C2.
    destruct (p1 x), (p2 x), (k s caps); reflexivity.
Qed.

Lemma rmatch_star_char (fl : flags) (r : regex) (p : ascii -> bool) :
  char_like fl r p ->
  forall s caps k,
    rmatch fl (Star Greedy r) s caps k = longest_first p k s caps.
Proof.
  intros [Hnil Hcons] s caps k. induction s as [|x s IH]; [reflexivity|].
  cbn [rmatch length longest_first]. rewrite Hcons.
  destruct (p x); [|reflexivity].
  replace (length s <? S (length s))%nat with true
    by (symmetry; apply Nat.ltb_lt; lia).
  match goal with
  | |- context [?f (length s) s caps] =>
      change (f (length s) s caps) with (rmatch fl (Star Greedy r) s caps k)
  end.
  rewrite IH. reflexivity.
Qed.

Lemma rmatch_at_least (r : regex) (p : ascii -> bool) (n : nat) :
  char_like plain_flags r p ->
  forall s caps k,
    rmatch plain_flags (at_least n r) s caps k = at_least_run p n k s caps.
Proof.
  intros Hr. induction n as [|n IH]; intros s caps k.
  - apply rmatch_star_char. exact Hr.
  - cbn [at_least at_least_run rmatch]. destruct Hr as [Hnil Hcons].
    destruct s as [|x s]; [apply Hnil|].
    rewrite Hcons. destruct (p x); [apply IH | reflexivity].
Qed.

Lemma run_of_cons (p : ascii -> bool) (n : nat) (x : ascii) (s : text) :
  p newline = false -> p x = true ->
  (run_of p (S n) (x :: s) <-> run_of p n s).
Proof.
  intros Hnl Hx. split.
  - intros (body & Hs & Hn & HF). destruct body as [|y body].
    + cbn in Hn. lia.
    + exists body. inversion HF; subst. split; [|split; [cbn in Hn; lia | assumption]].
      destruct Hs as [Hs|Hs]; cbn [app] in Hs; injection Hs as _ ->; auto.
  - intros (body & Hs & Hn & HF). exists (x :: body).
    split; [destruct Hs as [-> | ->]; auto|].
    split; [cbn; lia | constructor; assumption].
Qed.

Lemma run_of_zero_cons (p : ascii -> bool) (x : ascii) (s : text) :
  p newline = false -> p x = true ->
  (run_of p 0 (x :: s) <-> run_of p 0 s).
Proof.
  intros Hnl Hx. split.
  - intros (body & Hs & _ & HF). destruct body as [|y body].
    + exfalso. destruct Hs as [Hs|Hs]; [discriminate Hs|].
      cbn [app] in Hs. injection Hs as -> _. congruence.
    + exists body. inversion HF; subst. split; [|split; [lia | assumption]].
      destruct Hs as [Hs|Hs]; cbn [app] in Hs; injection Hs as _ ->; auto.
  - intros (body & Hs & _ & HF). exists (x :: body).
    split; [destruct Hs as [-> | ->]; auto|].
    split; [lia | constructor; assumption].
Qed.

Lemma run_of_stop (p : ascii -> bool) (x : ascii) (s : text) :
  p x = false ->
  (run_of p 0 (x :: s) <-> at_dollar (x :: s) = true).
Proof.
  intros Hx. split.
  - intros (body & Hs & _ & HF). destruct body as [|y body].
    + destruct Hs as [Hs|Hs]; [discriminate Hs|].
      cbn [app] in Hs. injection Hs as -> ->. reflexivity.
    + exfalso. inversion HF; subst.
      destruct Hs as [Hs|Hs]; cbn [app] in Hs; injection Hs as -> _; congruence.
  - cbn [at_dollar]. destruct s; [|discriminate]. intros H.
    apply Ascii.eqb_eq in H. subst x. exists []. split; [right; reflexivity|].
    split; [reflexivity | constructor].
Qed.

Lemma longest_first_dollar (p : ascii -> bool) (s : text) (caps : captures) :
  p newline = false ->
  (is_Some (longest_first p dollar s caps) <-> run_of p 0 s).
Proof.
  intros Hnl. induction s as [|x s IH]; cbn [longest_first].
  - split; [|intros _; eexists; reflexivity].
    intros _. exists []. split; [left; reflexivity|]. split; [reflexivity | constructor].
  - destruct (p x) eqn:Hx.
    + rewrite (run_of_zero_cons p x s Hnl Hx), <- IH.
      destruct (longest_first p dollar s caps) as [res|]; [split; eauto|].
      split; [|intros [? H]; discriminate H].
      unfold dollar. cbn [at_dollar]. destruct s as [|y s]; [|intros [? H]; discriminate H].
      destruct (Ascii.eqb_spec x newline) as [->|_]; [congruence|].
      intros [? H]; discriminate H.
    + rewrite (run_of_stop p x s Hx). unfold dollar.
      destruct (at_dollar (x :: s)).
      * split; [reflexivity | intros _; eexists; reflexivity].
      * split; [intros [? H]; discriminate H | discriminate].
Qed.

Lemma at_least_run_dollar (p : ascii -> bool) (n : nat) (s : text) (caps : captures) :
  p newline = false ->
  (is_Some (at_least_run p n dollar s caps) <-> run_of p n s).
Proof.
  intros Hnl. revert s. induction n as [|n IH]; intros s.
  - apply longest_first_dollar. exact Hnl.
  - cbn [at_least_run]. destruct s as [|x s].
    + split; [intros [? H]; discriminate H|].
      intros (body & Hs & Hn & _). destruct body; [cbn in Hn; lia|].
      destruct Hs as [Hs|Hs]; discriminate Hs.
    + destruct (p x) eqn:Hx.
      * rewrite (run_of_cons p n x s Hnl Hx). apply IH.
      * split; [intros [? H]; discriminate H|].
        intros (body & Hs & Hn & HF). destruct body as [|y body]; [cbn in Hn; lia|].
        inversion HF; subst. destruct Hs as [Hs|Hs]; cbn [app] in Hs; injection Hs as -> _; congruence.
Qed.

Lemma match_whole_run (r : regex) (p : ascii -> bool) (n : nat) (s : text) :
  char_like plain_flags r p -> p newline = false ->
  (match_whole (at_least n r) s = true <-> run_of p n s).
Proof.
  intros Hr Hnl. unfold match_whole. fold dollar.
  rewrite (rmatch_at_least r p n Hr), <- (at_least_run_dollar p n s [] Hnl).
  destruct (at_least_run p n dollar s []).
  - split; [intros _; eexists; reflexivity | reflexivity].
  - split; [discriminate | intros [? H]; discriminate H].
Qed.

(** X19. The format check of [configure_account] accepts as an API key
    exactly the texts made of twelve or more capital letters and digits,
    and as an API secret exactly the texts made of 32 or more letters and
    digits; in both cases one newline may follow, because [$] also
    matches before a newline that ends the text. *)
Theorem credential_formats (s : text) :
  (match_whole key_pattern s = true
   <-> run_of (fun c => is_upper c || is_digit c) 12 s)
  /\ (match_whole secret_pattern s = true
      <-> run_of (fun c => is_lower c || (is_upper c || is_digit c)) 32 s).
Proof.
  split.
  - apply (match_whole_run upper_or_digit (fun c => is_upper c || is_digit c) 12 s);
      [|reflexivity].
    apply (char_like_alt _ _ is_upper is_digit); apply char_like_range.
  - apply (match_whole_run letter_or_digit
             (fun c => is_lower c || (is_upper c || is_digit c)) 32 s); [|reflexivity].
    apply (char_like_alt _ _ is_lower (fun c => is_upper c || is_digit c));
      [apply char_like_range|].
    apply (char_like_alt _ _ is_upper is_digit); apply char_like_range.
Qed.

(** A key with a newline after it passes the check. *)
Example key_with_newline_accepted :
  bad_format key_pattern (Some (#"PKABCDEF0123456789" ++ [newline])) = false
  /\ bad_format key_pattern (Some #"PKabcdef0123456789") = true
  /\ bad_format key_pattern (Some #"PK012345678") = true.
Proof. repeat split. Qed.

End FormatFacts.

Section ConfigureCoverage.
Import PyStr Regex Client Account.

Variable N : network.

(** X20. [configure_account] given a key or a secret that is [None],
    empty or of the wrong format returns [False] at once: it sends no
    request, does not call [set_alpaca_credentials], leaves the
    attributes of the manager as they were and prints one line. *)
Theorem malformed_credentials_rejected (save_raises : option exn) (m : credentials)
    (api_key api_secret : option text) (paper : bool) (st : cstate N) :
  bad_format key_pattern api_key = true \/ bad_format secret_pattern api_secret = true ->
  let result := configure_account N save_raises m api_key api_secret paper st in
  answer result.1 = inr false
  /\ saved result.1 = None
  /\ manager_after result.1 = m
  /\ sent result.2 = sent st
  /\ net result.2 = net st
  /\ exists line, console result.2 = console st ++ [line].
Proof.
  intros H. cbv zeta. unfold configure_account.
  destruct (bad_format key_pattern api_key); [cbn; eauto 10|].
  destruct H as [H|H]; [discriminate H|]. rewrite H. cbn. eauto 10.
Qed.

(** The test of the keys: one request, and [True] only for a reply with
    status 200. *)
Lemma test_api_keys_spec (api_key api_secret : text) (paper : bool) (st : cstate N) :
  sent (snd (_test_api_keys N api_key api_secret paper st))
  = sent st ++ [test_request api_key api_secret paper]
  /\ (fst (_test_api_keys N api_key api_secret paper st) = true ->
      exists resp,
        fst (send N (net st) (test_request api_key api_secret paper)) = inr resp
        /\ status_code resp = 200).
Proof.
  unfold _test_api_keys, cbind, request, print, cret.
  destruct (send N (net st) (test_request api_key api_secret paper)) as [[e|resp] w];
    cbn [fst snd sent]; [split; [reflexivity | discriminate]|].
  destruct (status_code resp =? 200) eqn:Hcode; cbn [fst snd sent];
    [|split; [reflexivity | discriminate]].
  apply Z.eqb_eq in Hcode.
  destruct (response_json resp) as [e|j]; cbn [fst snd sent];
    [split; [reflexivity | discriminate]|].
  destruct (json_id N j); cbn [fst snd sent]; (split; [reflexivity|]);
    [discriminate | eauto].
Qed.

(** X21. [configure_account] calls [set_alpaca_credentials] only with a
    key and a secret of the right format that Alpaca has just accepted:
    the one request sent before the call is a GET of [/v2/account] at the
    paper or the live address, as chosen, with this key and this secret
    in its headers, and the reply had status 200. It returns [True] only
    after that call, and then the manager holds the key, the secret and
    the address of the environment chosen, and is configured; in every
    other case the attributes of the manager are left as they were. *)
Theorem configure_account_saves (save_raises : option exn) (m : credentials)
    (api_key api_secret : option text) (paper : bool) (st : cstate N) :
  let result := configure_account N save_raises m api_key api_secret paper st in
  (forall key secret flag,
      saved result.1 = Some (key, secret, flag) ->
      api_key = Some key /\ api_secret = Some secret /\ flag = paper
      /\ match_whole key_pattern key = true
      /\ match_whole secret_pattern secret = true
      /\ sent result.2 = sent st ++ [test_request key secret paper]
      /\ exists resp,
          fst (send N (net st) (test_request key secret paper)) = inr resp
          /\ status_code resp = 200)
  /\ (answer result.1 = inr true ->
      is_Some (saved result.1)
      /\ manager_after result.1
         = {| api_key := api_key; api_secret := api_secret;
              base_url := Some (environment_url paper) |}
      /\ is_configured (manager_after result.1) = true)
  /\ (answer result.1 <> inr true -> manager_after result.1 = m).
Proof.
  cbv zeta. unfold configure_account.
  destruct (bad_format key_pattern api_key) eqn:Hk;
    [cbn; split; [discriminate | split; [discriminate | reflexivity]]|].
  destruct (bad_format secret_pattern api_secret) eqn:Hs;
    [cbn; split; [discriminate | split; [discriminate | reflexivity]]|].
  destruct api_key as [[|x key]|]; try discriminate Hk.
  destruct api_secret as [[|y secret]|]; try discriminate Hs.
  cbn [bad_format] in Hk, Hs. apply negb_false_iff in Hk, Hs.
  cbv zeta. cbn [default from_option id]. unfold id, cbind. cbv beta.
  destruct (test_api_keys_spec (x :: key) (y :: secret) paper st) as [Hsent Hok].
  destruct (_test_api_keys N (x :: key) (y :: secret) paper st) as [valid st1].
  cbn [fst snd] in Hsent, Hok.
  destruct valid; cbn [negb];
    [|cbn; split; [discriminate | split; [discriminate | reflexivity]]].
  destruct (Hok eq_refl) as (resp & Hreply & Hcode).
  destruct save_raises as [e|]; cbn [fst snd cret print answer saved manager_after sent].
  - split; [|split; [discriminate | reflexivity]].
    intros k s f Heq. cbn in Heq. injection Heq as <- <- <-. eauto 10.
  - split; [|split; [|intros H; congruence]].
    + intros k s f Heq. cbn in Heq. injection Heq as <- <- <-. eauto 10.
    + intros _. split; [eauto|]. split; [reflexivity|].
      unfold environment_url. destruct paper; reflexivity.
Qed.

End ConfigureCoverage.

Section ConfigureExamples.
Import PyStr Regex Client Account.

Lemma malformed_credentials_rejected_witness :
  let result :=
    configure_account offline None no_credentials (Some #"pk-123") None true fresh in
  answer result.1 = inr false
  /\ saved result.1 = None
  /\ manager_after result.1 = no_credentials
  /\ sent result.2 = sent fresh
  /\ net result.2 = net fresh
  /\ exists line, console result.2 = console fresh ++ [line].
Proof.
  apply (malformed_credentials_rejected offline None no_credentials (Some #"pk-123") None
           true fresh).
  left. reflexivity.
Defined.

End ConfigureExamples.

(* ===================================================================== *)
(** ** The patterns with the keyword [symbol] *)
(* ===================================================================== *)

Section MatcherCompleteness.
Import PyStr Regex Extractor.

Variable fl : flags.














End MatcherCompleteness.

Section KeywordPatterns.
Import PyStr Regex Extractor.



Lemma patterns_single_stars : Forall single_stars action_patterns.
Proof. repeat constructor. Qed.










(** A call written with the keywords is read by pattern 1, whose group
    takes the keyword along: the symbol is not the one written. *)
Example keyword_call_symbol :
  line_actions #"buy_stock(symbol='AAPL', quantity=10)"
  = [buy_action #"SYMBOL='AAPL" 10].
Proof. vm_compute. reflexivity. Qed.

Example keyword_price_symbol :
  line_actions #"get_stock_price(symbol='AAPL')" = [price_action #"SYMBOL='AAPL"].
Proof. vm_compute. reflexivity. Qed.

End KeywordPatterns.

(* ===================================================================== *)
(** ** AIBroker.process_instruction: what is asked and what is ordered *)
(* ===================================================================== *)

Section SymbolFacts.
Import PyStr Broker Instruction.

Lemma mem_spec (x : text) (l : list text) : mem x l = true <-> In x l.
Proof.
  unfold mem. rewrite existsb_exists. split.
  - intros (y & Hin & Hy). apply bool_decide_eq_true in Hy. subst. exact Hin.
  - intros Hin. exists x. split; [exact Hin | apply bool_decide_eq_true; reflexivity].
Qed.

(** What [[A-Z]{1,n}\b] matches is a run of one to [n] capital letters. *)
Lemma letters_to_boundary_shape (n : nat) (s w : text) :
  letters_to_boundary n s = Some w -> capitals n w.
Proof.
  unfold capitals. revert s w. induction n as [|n IH]; intros s w H; [destruct s; discriminate|].
  destruct s as [|x s]; [discriminate|]. cbn [letters_to_boundary] in H.
  destruct (is_upper x) eqn:Hx; [|discriminate].
  destruct (letters_to_boundary n s) as [w'|] eqn:Hw.
  - injection H as <-. destruct (IH s w' Hw) as [Hlen Hall].
    cbn [length]. split; [lia | constructor; assumption].
  - destruct (boundary (Some x) s); [|discriminate]. injection H as <-.
    cbn [length]. split; [lia | constructor; [exact Hx | constructor]].
Qed.

Lemma findall_all (Q : text -> Prop) (m : match_at) :
  (forall before s w n, m before s = Some (w, n) -> Q w) ->
  forall s before skip, Forall Q (findall m before skip s).
Proof.
  intros Hm s. induction s as [|x s IH]; intros before skip; [constructor|].
  cbn [findall]. destruct skip as [|k]; [|apply IH].
  destruct (m before (x :: s)) as [[w n]|] eqn:E; [|apply IH].
  constructor; [exact (Hm _ _ _ _ E) | apply IH].
Qed.

Lemma word_here_shape before s w n : word_here before s = Some (w, n) -> capitals 5 w.
Proof.
  unfold word_here. destruct (boundary before s); [|discriminate].
  destruct (letters_to_boundary 5 s) as [w'|] eqn:E; [|discriminate].
  cbn. intros [= <- _]. exact (letters_to_boundary_shape 5 s w' E).
Qed.

Lemma dollar_here_shape before s w n : dollar_here before s = Some (w, n) -> capitals 5 w.
Proof.
  unfold dollar_here. destruct s as [|x s]; [discriminate|].
  destruct (Ascii.eqb_spec x "$") as [->|Hx].
  - destruct (letters_to_boundary 5 s) as [w'|] eqn:E; [|discriminate].
    cbn. intros [= <- _]. exact (letters_to_boundary_shape 5 s w' E).
  - intros H. exfalso. apply Hx.
    destruct x as [[] [] [] [] [] [] [] []]; try discriminate H. reflexivity.
Qed.

Lemma table_symbols_capitals :
  Forall (capitals 5) (map snd company_to_symbol).
Proof.
  unfold capitals.
  repeat (constructor; [split; [cbn; lia | repeat constructor]|]). constructor.
Qed.

Lemma table_symbols_not_common :
  Forall (fun s => mem s common_words = false) (map snd company_to_symbol).
Proof. repeat (constructor; [reflexivity|]). constructor. Qed.

Lemma add_companies_in (u : text) (table : list (text * text)) (symbols : list text) (s : text) :
  In s (add_companies u table symbols) <->
  In s symbols \/ exists company, In (company, s) table /\ contains company u = true.
Proof.
  revert symbols. induction table as [|[company symbol] rest IH]; intros symbols.
  - cbn. split; [auto | intros [H|(c & [] & _)]; exact H].
  - cbn [add_companies]. rewrite IH. split.
    + intros [H|(c & Hin & Hc)].
      * destruct (contains company u) eqn:Hcu; cbn [andb] in H; [|left; exact H].
        destruct (negb (mem symbol symbols)); [|left; exact H].
        apply in_app_iff in H as [H|[<-|[]]]; [left; exact H|].
        right. exists company. split; [left; reflexivity | exact Hcu].
      * right. exists c. split; [right; exact Hin | exact Hc].
    + intros [H|(c & [Heq|Hin] & Hc)].
      * left. destruct (_ && _); [apply in_app_iff; left|]; exact H.
      * injection Heq as -> ->. left. rewrite Hc. cbn [andb].
        destruct (mem s symbols) eqn:Hm; cbn [negb].
        -- apply mem_spec. exact Hm.
        -- apply in_app_iff. right. left. reflexivity.
      * right. exists c. split; assumption.
Qed.

End SymbolFacts.

Section ScanFacts.
Import PyStr Broker Instruction.

Lemma upper_is_word (c : ascii) : is_upper c = true -> is_word c = true.
Proof. unfold is_word. intros ->. reflexivity. Qed.

Lemma no_word_not_upper (c : ascii) : is_word c = false -> is_upper c = false.
Proof. destruct (is_upper c) eqn:E; [rewrite (upper_is_word c E); discriminate | reflexivity]. Qed.

(** What [[A-Z]{1,n}\b] matches at the start of a text: a run of letters
    after which no word character comes. *)
Lemma letters_to_boundary_spec (n : nat) (s w : text) :
  letters_to_boundary n s = Some w ->
  exists post, s = w ++ post /\ capitals n w /\ no_word (head post).
Proof.
  revert s w. induction n as [|n IH]; intros s w H; [destruct s; discriminate|].
  destruct s as [|x s]; [discriminate|]. cbn [letters_to_boundary] in H.
  destruct (is_upper x) eqn:Hx; [|discriminate].
  destruct (letters_to_boundary n s) as [w'|] eqn:Hw.
  - injection H as <-. destruct (IH s w' Hw) as (post & -> & [Hlen Hall] & Hpost).
    exists post. split; [reflexivity|]. split; [|exact Hpost].
    split; [cbn [length]; lia | constructor; assumption].
  - destruct (boundary (Some x) s) eqn:Hb; [|discriminate]. injection H as <-.
    exists s. split; [reflexivity|]. split.
    + split; [cbn [length]; lia | constructor; [exact Hx | constructor]].
    + unfold boundary in Hb. cbn [from_option] in Hb.
      rewrite (upper_is_word x Hx) in Hb. unfold no_word.
      destruct (from_option is_word false (head s)); [discriminate | reflexivity].
Qed.

(** It matches every such run. *)
Lemma letters_to_boundary_complete (n : nat) (w post : text) :
  capitals n w -> no_word (head post) -> letters_to_boundary n (w ++ post) = Some w.
Proof.
  intros [Hlen Hall] Hpost. revert n Hlen.
  induction Hall as [|x w' Hx Hall IH]; intros n Hlen; cbn [length] in Hlen; [lia|].
  destruct n as [|n]; [lia|].
  cbn [app letters_to_boundary]. rewrite Hx.
  destruct w' as [|y w''].
  - cbn [app].
    assert (letters_to_boundary n post = None) as ->.
    { destruct n as [|n]; destruct post as [|c post']; try reflexivity.
      cbn [letters_to_boundary]. unfold no_word in Hpost. cbn in Hpost.
      rewrite (no_word_not_upper c Hpost). reflexivity. }
    unfold boundary. cbn [from_option]. rewrite (upper_is_word x Hx).
    unfold no_word in Hpost. rewrite Hpost. reflexivity.
  - rewrite IH; [reflexivity|]. cbn [length] in *. lia.
Qed.

Lemma before_after_cons (before : option ascii) (x : ascii) (pre : text) :
  before_after before (x :: pre) = before_after (Some x) pre.
Proof.
  unfold before_after. revert x. induction pre as [|y pre IH]; intros x; [reflexivity|].
  change (last (x :: y :: pre)) with (last (y :: pre)).
  destruct (last (y :: pre)) eqn:E; [reflexivity|].
  exfalso. clear -E. revert y E. induction pre as [|z pre IH]; intros y E; [discriminate|].
  exact (IH z E).
Qed.

(** Every text [findall] reports is a match at some position. *)
Lemma findall_in (m : match_at) (s : text) (before : option ascii) (skip : nat) (w : text) :
  In w (findall m before skip s) ->
  exists pre rest n, s = pre ++ rest /\ m (before_after before pre) rest = Some (w, n).
Proof.
  revert before skip. induction s as [|x s IH]; intros before skip H; [destruct H|].
  cbn [findall] in H.
  assert (forall k, In w (findall m (Some x) k s) ->
            exists pre rest n, x :: s = pre ++ rest
                               /\ m (before_after before pre) rest = Some (w, n)) as Hnext.
  { intros k Hk. destruct (IH _ _ Hk) as (pre & rest & n & -> & Hm).
    exists (x :: pre), rest, n. split; [reflexivity|]. rewrite before_after_cons. exact Hm. }
  destruct skip as [|k]; [|exact (Hnext _ H)].
  destruct (m before (x :: s)) as [[w0 n]|] eqn:E; [|exact (Hnext _ H)].
  destruct H as [<-|H]; [|exact (Hnext _ H)].
  exists [], (x :: s), n. split; [reflexivity | exact E].
Qed.

(** The search reaches every position at which no capital letter stands,
    with no match under way. *)
Lemma findall_reaches (m : match_at) (c : ascii) (rest : text) :
  letters_follow m -> is_upper c = false ->
  forall pre before skip,
    Forall (fun c => is_upper c = true) (take skip (pre ++ c :: rest)) ->
    exists found,
      findall m before skip (pre ++ c :: rest)
      = found ++ findall m (before_after before pre) 0 (c :: rest).
Proof.
  intros Hm Hc pre. induction pre as [|x pre IH]; intros before skip Hskip.
  - exists []. destruct skip as [|k]; [reflexivity|].
    cbn [app take] in Hskip. inversion Hskip as [|? ? Hx _]. congruence.
  - cbn [app findall]. rewrite before_after_cons. destruct skip as [|k].
    + destruct (m before (x :: pre ++ c :: rest)) as [[w n]|] eqn:E.
      * destruct (IH (Some x) (n - 1)%nat) as (found & ->).
        { exact (Hm _ _ _ _ E). }
        exists (w :: found). reflexivity.
      * apply IH. constructor.
    + cbn [app take] in Hskip. inversion Hskip as [|? ? _ Hk]. apply IH. exact Hk.
Qed.

Lemma word_here_letters : letters_follow word_here.
Proof.
  intros before s w n H. unfold word_here in H.
  destruct (boundary before s); [|discriminate].
  destruct (letters_to_boundary 5 s) as [w'|] eqn:E; [|discriminate].
  cbn in H. injection H as <- <-.
  destruct (letters_to_boundary_spec 5 s w' E) as (post & -> & [Hlen Hall] & _).
  destruct w' as [|x w']; [cbn in Hlen; lia|].
  cbn [app tail length]. replace (S (length w') - 1)%nat with (length w') by lia.
  rewrite take_app_length. inversion Hall. assumption.
Qed.

Lemma dollar_here_letters : letters_follow dollar_here.
Proof.
  intros before s w n H. unfold dollar_here in H.
  destruct s as [|x s]; [discriminate|].
  destruct (Ascii.eqb_spec x "$") as [->|Hx].
  - destruct (letters_to_boundary 5 s) as [w'|] eqn:E; [|discriminate].
    cbn in H. injection H as <- <-.
    destruct (letters_to_boundary_spec 5 s w' E) as (post & -> & [Hlen Hall] & _).
    cbn [tail]. replace (S (length w') - 1)%nat with (length w') by lia.
    rewrite take_app_length. exact Hall.
  - exfalso. apply Hx.
    destruct x as [[] [] [] [] [] [] [] []]; try discriminate H. reflexivity.
Qed.

(** The words [findall] reports for [\b[A-Z]{1,5}\b]. *)
Lemma findall_word_spec (s w : text) :
  In w (findall word_here None 0 s) <-> stands_alone s w.
Proof.
  split.
  - intros H. destruct (findall_in _ _ _ _ _ H) as (pre & rest & n & -> & Hm).
    unfold word_here in Hm.
    destruct (boundary (before_after None pre) rest) eqn:Hb; [|discriminate].
    destruct (letters_to_boundary 5 rest) as [w'|] eqn:E; [|discriminate].
    cbn in Hm. injection Hm as -> _.
    destruct (letters_to_boundary_spec 5 rest w E) as (post & -> & Hcap & Hpost).
    exists pre, post. split; [reflexivity|]. split; [exact Hcap|]. split; [|exact Hpost].
    destruct Hcap as [Hlen Hall]. destruct w as [|x w]; [cbn in Hlen; lia|].
    inversion Hall as [|? ? Hx _]. subst.
    unfold boundary in Hb. cbn [app head from_option] in Hb.
    rewrite (upper_is_word x Hx) in Hb. unfold no_word.
    assert (before_after None pre = last pre) as Hl
      by (unfold before_after; destruct (last pre); reflexivity).
    rewrite Hl in Hb. destruct (from_option is_word false (last pre)); [discriminate | reflexivity].
  - intros (pre & post & -> & Hcap & Hpre & Hpost).
    assert (forall before, no_word before ->
              In w (findall word_here before 0 (w ++ post))) as Hhere.
    { intros before Hbefore. destruct Hcap as [Hlen Hall].
      destruct w as [|x w]; [cbn in Hlen; lia|].
      pose proof (letters_to_boundary_complete 5 (x :: w) post (conj Hlen Hall) Hpost) as E.
      cbn [app] in *. cbn [findall]. unfold word_here at 1.
      inversion Hall as [|? ? Hx _]. subst.
      unfold boundary. cbn [head from_option]. rewrite (upper_is_word x Hx).
      unfold no_word in Hbefore. rewrite Hbefore. cbn [xorb]. rewrite E. cbn.
      left. reflexivity. }
    induction pre as [|c pre0 _] using rev_ind.
    + apply Hhere. reflexivity.
    + rewrite last_snoc in Hpre. unfold no_word in Hpre. cbn in Hpre.
      rewrite <- app_assoc. cbn [app].
      destruct (findall_reaches word_here c (w ++ post) word_here_letters
                  (no_word_not_upper c Hpre) pre0 None 0%nat) as (found & ->);
        [constructor|].
      apply in_app_iff. right. cbn [findall].
      assert (word_here (before_after None pre0) (c :: w ++ post) = None) as ->.
      { unfold word_here. destruct (boundary _ _); [|reflexivity].
        cbn [letters_to_boundary]. rewrite (no_word_not_upper c Hpre). reflexivity. }
      apply Hhere. exact Hpre.
Qed.

(** The tickers [findall] reports for [\$([A-Z]{1,5})\b]. *)
Lemma findall_dollar_spec (s w : text) :
  In w (findall dollar_here None 0 s) <-> follows_dollar s w.
Proof.
  split.
  - intros H. destruct (findall_in _ _ _ _ _ H) as (pre & rest & n & -> & Hm).
    unfold dollar_here in Hm. destruct rest as [|x rest]; [discriminate|].
    destruct (Ascii.eqb_spec x "$") as [->|Hx].
    + destruct (letters_to_boundary 5 rest) as [w'|] eqn:E; [|discriminate].
      cbn in Hm. injection Hm as -> _.
      destruct (letters_to_boundary_spec 5 rest w E) as (post & -> & Hcap & Hpost).
      exists pre, post. split; [reflexivity|]. split; assumption.
    + exfalso. apply Hx.
      destruct x as [[] [] [] [] [] [] [] []]; try discriminate Hm. reflexivity.
  - intros (pre & post & -> & Hcap & Hpost).
    destruct (findall_reaches dollar_here "$" (w ++ post) dollar_here_letters
                eq_refl pre None 0%nat) as (found & ->); [constructor|].
    apply in_app_iff. right. cbn [findall]. unfold dollar_here at 1.
    rewrite (letters_to_boundary_complete 5 w post Hcap Hpost). cbn.
    left. reflexivity.
Qed.

End ScanFacts.

Section InstructionCoverage.
Import PyStr Broker Instruction.

Variable P : platform.
Variable A : assistant.

(** The symbols read off the user's text, when [list(set(l))] lists the
    elements of [l]: the matches of the two patterns and the symbols of the
    companies named, less the common words. *)
Lemma input_symbols_in (user_input s : text) :
  set_lister A ->
  In s (input_symbols A user_input) <->
  ~ In s common_words /\
  (In s (findall word_here None 0 (upper user_input))
   \/ In s (findall dollar_here None 0 (upper user_input))
   \/ exists company, In (company, s) company_to_symbol
                      /\ contains company (upper user_input) = true).
Proof.
  intros Hset. unfold input_symbols.
  rewrite List.filter_In, (Hset _ s), add_companies_in, in_app_iff, (Hset _ s), negb_true_iff.
  assert (mem s common_words = false <-> ~ In s common_words) as ->.
  { rewrite <- mem_spec. destruct (mem s common_words); split; congruence. }
  tauto.
Qed.

Lemma input_symbols_ticker_like (user_input : text) :
  set_lister A -> Forall ticker_like (input_symbols A user_input).
Proof.
  intros Hset. apply List.Forall_forall. intros s Hs.
  apply (input_symbols_in user_input s Hset) in Hs as [Hc Hs].
  split; [|exact Hc].
  { destruct Hs as [Hs|[Hs|(company & Hin & _)]].
    - pose proof (findall_all (capitals 5) word_here word_here_shape
                    (upper user_input) None 0%nat) as H.
      rewrite List.Forall_forall in H. exact (H s Hs).
    - pose proof (findall_all (capitals 5) dollar_here dollar_here_shape
                    (upper user_input) None 0%nat) as H.
      rewrite List.Forall_forall in H. exact (H s Hs).
    - pose proof table_symbols_capitals as H. rewrite List.Forall_forall in H.
      apply H. apply in_map_iff. exists (company, s). split; [reflexivity | exact Hin]. }
Qed.

(** The calls and the exchanges of one run, step by step. *)
Lemma process_instruction_steps (user_input : text) (st : istate P A) :
  let st' := snd (process_instruction P A user_input st) in
  exists queries exchanges later,
    calls (broker st') = calls (broker st) ++ (queries ++ [GetAccount]) ++ later /\
    Forall (quote_query (input_symbols A user_input)) queries /\
    asked st' = asked st ++ exchanges /\
    (length exchanges <= 1)%nat /\
    orders_in later = flat_map (orders_of_exchange P) exchanges.
Proof.
  cbv zeta. unfold process_instruction.
  destruct (get_market_data_added P (input_symbols A user_input) (broker st))
    as (queries & Hc & Hq & _).
  destruct (get_market_data P (input_symbols A user_input) (broker st)) as [market_data b1].
  cbn [snd] in Hc. exists queries.
  destruct (dumps_market_data A market_data) as [e|market_json].
  { exists [], []. cbn [snd with_broker broker asked length flat_map].
    rewrite !app_nil_r. repeat split; [exact Hc | exact Hq | lia]. }
  unfold call_claude. cbn [with_broker llm broker asked].
  set (prompt := prompt_text A market_json _ user_input).
  destruct (ask A (llm st) prompt) as [[e|claude_response] w].
  { exists [(prompt, inl e)], []. cbn [snd broker asked length flat_map orders_of_exchange app].
    rewrite !app_nil_r. repeat split; [exact Hc | exact Hq | lia]. }
  destruct (Extractor.extract_action_from_response claude_response) as [|a actions] eqn:Hx.
  { exists [(prompt, inr claude_response)], [].
    cbn [snd broker asked length flat_map orders_of_exchange app].
    rewrite Hx, !app_nil_r. repeat split; [exact Hc | exact Hq | lia]. }
  cbn [broker].
  destruct (execute_from_orders P (a :: actions) 0 ∅ b1) as (later & Hl & Ho).
  fold (execute_actions P (a :: actions)) in Hl.
  destruct (execute_actions P (a :: actions) b1) as [results b3]. cbn [snd] in Hl.
  exists [(prompt, inr claude_response)], later.
  assert (orders_in later
          = flat_map (orders_of_exchange P) [(prompt, (inr claude_response : exn + text))])
    as Hflat.
  { cbn [flat_map orders_of_exchange snd]. rewrite Hx, app_nil_r. exact Ho. }
  destruct (dumps_results A results) as [e|results_json];
    cbn [snd with_broker broker asked length];
    (repeat split; [rewrite Hl, Hc, <- !app_assoc; reflexivity | exact Hq | lia | exact Hflat]).
Qed.

(** X23. The orders [process_instruction] places are read off the answer of
    the model alone: the run asks the model at most once, and the orders
    it adds are those of the actions of the first actions section of the
    answer, as the dispatcher places them. Nothing is ordered when the
    prompt could not be built or the call of the model failed, whatever the
    user's text says. *)
Theorem instruction_orders (user_input : text) (st : istate P A) :
  let st' := snd (process_instruction P A user_input st) in
  exists exchanges added,
    asked st' = asked st ++ exchanges /\
    (length exchanges <= 1)%nat /\
    calls (broker st') = calls (broker st) ++ added /\
    orders_in added = flat_map (orders_of_exchange P) exchanges /\
    Forall sound_order (orders_in added).
Proof.
  cbv zeta.
  destruct (process_instruction_steps user_input st)
    as (queries & exchanges & later & Hc & Hq & Ha & Hn & Ho).
  exists exchanges, ((queries ++ [GetAccount]) ++ later).
  assert (orders_in ((queries ++ [GetAccount]) ++ later)
          = flat_map (orders_of_exchange P) exchanges) as Hadded.
  { rewrite !orders_in_app, (quote_queries_no_order _ _ Hq). exact Ho. }
  repeat split; [exact Ha | exact Hn | exact Hc | exact Hadded |].
  rewrite Hadded. clear. induction exchanges as [|[prompt [e|reply]] rest IH];
    cbn [flat_map orders_of_exchange snd app]; [constructor | exact IH |].
  apply Forall_app. split; [apply orders_of_sound | exact IH].
Qed.

(** X24. Before it asks the model, [process_instruction] fetches market
    data: bars for symbols read off the user's text, each a word of one to
    five capital letters that is no common word, and then the account.
    These calls are made for every text, also one that names no symbol. *)
Theorem instruction_market_queries (user_input : text) (st : istate P A) :
  set_lister A ->
  let st' := snd (process_instruction P A user_input st) in
  exists queries later,
    calls (broker st') = calls (broker st) ++ queries ++ [GetAccount] ++ later /\
    Forall (fun c => exists symbol tf start,
                c = GetStockBars (bar_request symbol tf start) /\ ticker_like symbol)
           queries.
Proof.
  intros Hset. cbv zeta.
  destruct (process_instruction_steps user_input st)
    as (queries & exchanges & later & Hc & Hq & _).
  exists queries, later. split; [rewrite Hc, <- !app_assoc; reflexivity|].
  pose proof (input_symbols_ticker_like user_input Hset) as Ht.
  rewrite List.Forall_forall in Ht.
  eapply Forall_impl; [exact Hq|].
  intros c (symbol & tf & start & Hin & ->). exists symbol, tf, start.
  split; [reflexivity | exact (Ht symbol Hin)].
Qed.

(** X25. The symbols for which [process_instruction] fetches market data,
    for a text of 7-bit characters and whatever the order in which sets are
    listed: the whole words of one to five letters of the upper-cased text,
    the runs of one to five letters that follow a dollar sign and end a
    word, and the symbols of the companies of the table whose name occurs
    in the text; the common words are left out. *)
Theorem input_symbols_spec (user_input s : text) :
  set_lister A -> is_ascii user_input ->
  In s (input_symbols A user_input) <->
  ~ In s common_words /\
  (stands_alone (upper user_input) s
   \/ follows_dollar (upper user_input) s
   \/ exists company, In (company, s) company_to_symbol
                      /\ contains company (upper user_input) = true).
Proof.
  intros Hset _.
  rewrite (input_symbols_in user_input s Hset), findall_word_spec, findall_dollar_spec.
  reflexivity.
Qed.

End InstructionCoverage.

Section InstructionExamples.
Import PyStr Broker Instruction.

Lemma scripted_set_lister (answer : exn + text) : set_lister (scripted answer).
Proof.
  intros l x. cbn [scripted list_of_set]. rewrite <- !list_elem_of_In.
  apply elem_of_remove_dups.
Qed.

Example demo_input_symbols :
  input_symbols (scripted (inr demo_answer)) #"Buy 10 shares of Apple and $nvda"
  = [(#"BUY"); #"APPLE"; #"NVDA"; #"AAPL"].
Proof. vm_compute. reflexivity. Qed.

Example demo_run_orders :
  orders_in (calls (broker (snd (process_instruction (demo true) (scripted (inr demo_answer))
                                   #"Buy 10 shares of Apple" demo_istate))))
  = [buy_request #"AAPL" 10].
Proof. vm_compute. reflexivity. Qed.

Lemma instruction_market_queries_witness :
  let st' := snd (process_instruction (demo true) (scripted (inr demo_answer))
                    #"Buy 10 shares of Apple" demo_istate) in
  exists queries later,
    calls (broker st') = calls (broker demo_istate) ++ queries ++ [GetAccount] ++ later /\
    Forall (fun c => exists symbol tf start,
                c = GetStockBars (bar_request symbol tf start) /\ ticker_like symbol)
           queries.
Proof.
  apply (instruction_market_queries (demo true) (scripted (inr demo_answer))
           #"Buy 10 shares of Apple" demo_istate).
  apply scripted_set_lister.
Defined.

Lemma input_symbols_spec_witness :
  In #"TSLA" (input_symbols (scripted (inr demo_answer)) #"what is tesla worth?") <->
  ~ In #"TSLA" common_words /\
  (stands_alone (upper #"what is tesla worth?") #"TSLA"
   \/ follows_dollar (upper #"what is tesla worth?") #"TSLA"
   \/ exists company, In (company, #"TSLA") company_to_symbol
                      /\ contains company (upper #"what is tesla worth?") = true).
Proof.
  apply (input_symbols_spec (scripted (inr demo_answer)) #"what is tesla worth?" #"TSLA").
  - apply scripted_set_lister.
  - unfold is_ascii. repeat constructor.
Defined.

End InstructionExamples.
